(** * grablin CLI: credential resolver, schema validator, config store,
      generation orchestrator

    A shallow embedding of [src/lib/auth.ts], [src/lib/config.ts] and of the
    orchestration entry point [generate], with the properties stated about
    them by the design document; and of the interactive setup
    ([src/utils/prompts.ts]), the [whoami] action and the helpers of the
    [list] command, with further properties read off the code.

    Conventions of the embedding.
    - A JavaScript string is a Rocq [string]; a character is one code unit
      in the range 0..255.  Every regular expression of the program only
      accepts ASCII code units.
    - A property that may be missing ([undefined]) is an [option]; the
      JavaScript coercion [!x] / [x || y] on such a value is [truthy] and
      [js_or] below.
    - [process.env], header objects and the file system are finite maps
      ([gmap]) keyed by strings.
    - A thrown exception or a rejected promise is the [Throw] case of
      [completion]; asynchronous code is a state-passing computation over
      the [World] (the scripted network and the trace of effects). *)

From Stdlib Require Import ZArith Lia String Ascii List Bool.
From Stdlib Require Import Decimal DecimalZ DecimalFacts.
From stdpp Require Import gmap strings list pretty.

Set Warnings "-register-all".

Open Scope string_scope.

(** ** JavaScript primitives *)

Module Js.

(** The line feed, written ['\n'] in the source. *)
Definition LF : string := String (ascii_of_nat 10) "".

(** Exceptions of the program, by class ([e.name]) and message. *)
Inductive exn : Type :=
| AuthError (message : string)
| Error (message : string)
| SyntaxError (message : string)
| TypeError (message : string).

Definition message_of (e : exn) : string :=
  match e with
  | AuthError m | Error m | SyntaxError m | TypeError m => m
  end.

Definition is_AuthError (e : exn) : bool :=
  match e with AuthError _ => true | _ => false end.

(** Outcome of a call: a returned value (a fulfilled promise) or a thrown
    exception (a rejected promise). *)
Inductive completion (A : Type) : Type :=
| Return (a : A)
| Throw (e : exn).
Arguments Return {A} a.
Arguments Throw {A} e.

(** [!!x] for [x : string | undefined]: the empty string and [undefined]
    are the two falsy values. *)
Definition truthy (x : option string) : bool :=
  match x with
  | Some s => negb (s =? "")
  | None => false
  end.

(** [x || y] on [string | undefined]. *)
Definition js_or (x y : option string) : option string :=
  if truthy x then x else y.

(** [s.includes(sub)] *)
Fixpoint includes (s sub : string) : bool :=
  String.prefix sub s ||
  match s with
  | EmptyString => false
  | String _ s' => includes s' sub
  end.

(** [s.endsWith(suffix)] *)
Definition endsWith (s suffix : string) : bool :=
  let n := String.length s in
  let m := String.length suffix in
  (m <=? n)%nat && (String.substring (n - m) m s =? suffix).

(** [s.split(sep)] for a one-character separator. *)
Fixpoint split (sep : ascii) (s : string) : list string :=
  match s with
  | EmptyString => [EmptyString]
  | String c s' =>
      if Ascii.eqb c sep then EmptyString :: split sep s'
      else match split sep s' with
           | [] => [String c EmptyString]
           | w :: ws => String c w :: ws
           end
  end.

(** [xs.some(p)] *)
Definition some {A} (p : A -> bool) (xs : list A) : bool := existsb p xs.

(** Template-literal rendering of a non-negative integer index. *)
Definition show_nat (n : nat) : string := pretty n.

End Js.

Import Js.

(** ** Credential resolver: [src/lib/auth.ts] *)

Module Auth.

(** [process.env]: variable name to value. *)
Abbreviation ProcessEnv := (gmap string string).

Definition AUTH_ERROR_MESSAGE : string :=
  "GitHub token required. Set GITHUB_TOKEN or GH_TOKEN environment variable."
  ++ LF ++ "Create a token at: https://github.com/settings/tokens".

(** [getToken()] *)
Definition getToken (env : ProcessEnv) : completion string :=
  let token := js_or (env !! "GITHUB_TOKEN") (env !! "GH_TOKEN") in
  match token with
  | Some t => if negb (truthy token) then Throw (AuthError AUTH_ERROR_MESSAGE)
              else Return t
  | None => Throw (AuthError AUTH_ERROR_MESSAGE)
  end.

(** [hasToken()] *)
Definition hasToken (env : ProcessEnv) : bool :=
  truthy (js_or (env !! "GITHUB_TOKEN") (env !! "GH_TOKEN")).

(** [getAuthHeaders()]: the header object, or [getToken]'s exception. *)
Definition getAuthHeaders (env : ProcessEnv) : completion (gmap string string) :=
  match getToken env with
  | Return token => Return {[ "Authorization" := "Bearer " ++ token ]}
  | Throw e => Throw e
  end.

(** *** The identity lookup [getGitHubUser]

    The lookup is asynchronous: it awaits [fetch] and timers.  The world it
    runs in is a script of what the n-th [fetch] call yields, and the trace
    of the effects performed so far. *)

(** The identity payload [{login, name?, email?, id}]. *)
Record GitHubUser := {
  login : string;
  name : option string;
  email : option string;
  id : Z;
}.

(** A [Response] as the lookup reads it: the status code and what the
    promise [response.json()] settles to (the decoded payload, or the
    rejection raised when the body is not a JSON text). *)
Record Response := {
  status : Z;
  json : completion GitHubUser;
}.

(** [response.ok]: the status is in the range 200..299 (Fetch standard). *)
Definition ok (r : Response) : bool :=
  (200 <=? status r)%Z && (status r <=? 299)%Z.

(** What awaiting one [fetch] call yields: a response of any status, or a
    rejection (DNS, connection, timeout). *)
Inductive FetchOutcome : Type :=
| Responded (r : Response)
| Rejected (e : exn).

Inductive Event : Type :=
| EFetch (url : string) (headers : gmap string string)
| ESleep (ms : Z).

Record World := {
  network : nat -> FetchOutcome;
  trace : list Event;
}.

Definition is_fetch (ev : Event) : bool :=
  match ev with EFetch _ _ => true | ESleep _ => false end.

(** Number of [fetch] calls performed so far. *)
Definition fetch_count (t : list Event) : nat :=
  List.length (List.filter is_fetch t).

(** The timer waits performed so far, in order. *)
Fixpoint sleeps (t : list Event) : list Z :=
  match t with
  | [] => []
  | EFetch _ _ :: t' => sleeps t'
  | ESleep ms :: t' => ms :: sleeps t'
  end.

Definition log (ev : Event) (w : World) : World :=
  {| network := network w; trace := trace w ++ [ev] |}.

(** Asynchronous computations: state passing over the world, with
    rejection. *)
Definition Async (A : Type) : Type := World -> completion A * World.

Definition ret {A} (a : A) : Async A := fun w => (Return a, w).

Definition bind {A B} (m : Async A) (k : A -> Async B) : Async B :=
  fun w =>
    match m w with
    | (Return a, w') => k a w'
    | (Throw e, w') => (Throw e, w')
    end.

(** [try { m } catch (error) { h }] *)
Definition try_catch {A} (m : Async A) (h : exn -> Async A) : Async A :=
  fun w =>
    match m w with
    | (Return a, w') => (Return a, w')
    | (Throw e, w') => h e w'
    end.

(** A synchronous call that may throw, run inside asynchronous code. *)
Definition lift {A} (c : completion A) : Async A := fun w => (c, w).

#[global] Instance Async_ret : MRet Async := @ret.
#[global] Instance Async_bind : MBind Async := fun A B k m => bind m k.

(** [await fetch(url, {headers})] *)
Definition fetch (url : string) (headers : gmap string string) : Async Response :=
  fun w =>
    let w' := log (EFetch url headers) w in
    match network w (fetch_count (trace w)) with
    | Responded r => (Return r, w')
    | Rejected e => (Throw e, w')
    end.

(** [await new Promise(resolve => setTimeout(resolve, delay))] *)
Definition sleep (delay : Z) : Async unit :=
  fun w => (Return tt, log (ESleep delay) w).

(** How one iteration of the retry loop ends: it falls through to the next
    iteration, or leaves the function with a [return].  The function is
    [async], so a returned promise is adopted as it is: [return
    response.json()] settles the caller's promise with whatever
    [response.json()] settles to, and the enclosing [try] does not observe
    that settlement (nothing awaits the promise inside the block). *)
Inductive Flow : Type :=
| Next
| ReturnValue (v : option GitHubUser)
| ReturnPromise (p : completion GitHubUser).

Definition maxRetries : nat := 3.
Definition baseDelay : Z := 1000.

(** The wait guarded by [if (attempt < maxRetries - 1)]. *)
Definition backoff (attempt : nat) : Async unit :=
  if (attempt <? maxRetries - 1)%nat
  then sleep (baseDelay * 2 ^ Z.of_nat attempt)
  else ret tt.

(** The body of the [for] loop: the [try] block and its [catch]. *)
Definition attempt_once (env : ProcessEnv) (attempt : nat) : Async Flow :=
  try_catch
    (auth ← lift (getAuthHeaders env);
     response ← fetch "https://api.github.com/user"
                  (<["X-GitHub-Api-Version" := "2022-11-28"]>
                   (<["Accept" := "application/vnd.github+json"]> auth));
     if ok response then ret (ReturnPromise (json response))
     else if (400 <=? status response)%Z && (status response <? 500)%Z
          then ret (ReturnValue None)
          else backoff attempt;; ret Next)
    (fun _error => backoff attempt;; ret Next).

(** [for (let attempt = 0; attempt < maxRetries; attempt++) { ... }]
    followed by [return null].  [fuel] bounds the number of iterations;
    [maxRetries - attempt] is always enough. *)
Fixpoint retry_loop (env : ProcessEnv) (fuel attempt : nat) : Async (option GitHubUser) :=
  match fuel with
  | O => ret None
  | S fuel' =>
      if (attempt <? maxRetries)%nat then
        flow ← attempt_once env attempt;
        match flow with
        | Next => retry_loop env fuel' (S attempt)
        | ReturnValue v => ret v
        | ReturnPromise (Return u) => ret (Some u)
        | ReturnPromise (Throw e) => lift (Throw e)
        end
      else ret None
  end.

(** [getGitHubUser()] *)
Definition getGitHubUser (env : ProcessEnv) : Async (option GitHubUser) :=
  if negb (hasToken env) then ret None
  else retry_loop env maxRetries 0.

(** The lookup started in a world where nothing has happened yet. *)
Definition run_getGitHubUser (env : ProcessEnv) (net : nat -> FetchOutcome)
  : completion (option GitHubUser) * list Event :=
  let '(r, w) := getGitHubUser env {| network := net; trace := [] |} in
  (r, trace w).

End Auth.

(** ** Regular expressions: [RegExp.prototype.test] on anchored patterns

    Every pattern of the program is of the form [/^...$/] and uses only
    character classes, concatenation, groups, [?], [*], [+] and bounded
    repetition [{m,n}]: [re.test(s)] holds exactly when the whole of [s] is in
    the language of the pattern.  The language is given by [Matches]; the
    executable test takes derivatives. *)

Module Regex.

Inductive regex : Type :=
| Void                                   (* matches nothing *)
| Eps                                    (* the empty string *)
| Class (p : ascii -> bool)              (* one character of a class *)
| Seq (r1 r2 : regex)                    (* r1 r2 *)
| Alt (r1 r2 : regex)                    (* r1 | r2 *)
| Star (r : regex)                       (* r* *)
| Repeat (r : regex) (lo hi : nat).      (* r{lo,hi} *)

(** [r?] and [r+] *)
Definition Opt (r : regex) : regex := Alt Eps r.
Definition Plus (r : regex) : regex := Seq r (Star r).

(** The language of a pattern. *)
Inductive Matches : regex -> list ascii -> Prop :=
| MEps : Matches Eps []
| MClass p c : p c = true -> Matches (Class p) [c]
| MSeq r1 r2 s1 s2 : Matches r1 s1 -> Matches r2 s2 -> Matches (Seq r1 r2) (s1 ++ s2)
| MAltL r1 r2 s : Matches r1 s -> Matches (Alt r1 r2) s
| MAltR r1 r2 s : Matches r2 s -> Matches (Alt r1 r2) s
| MStar0 r : Matches (Star r) []
| MStarS r s1 s2 : Matches r s1 -> Matches (Star r) s2 -> Matches (Star r) (s1 ++ s2)
| MRepeat0 r hi : Matches (Repeat r 0 hi) []
| MRepeatS r lo hi s1 s2 :
    Matches r s1 -> Matches (Repeat r (Nat.pred lo) hi) s2 ->
    Matches (Repeat r lo (S hi)) (s1 ++ s2).

Fixpoint nullable (r : regex) : bool :=
  match r with
  | Void => false
  | Eps => true
  | Class _ => false
  | Seq r1 r2 => nullable r1 && nullable r2
  | Alt r1 r2 => nullable r1 || nullable r2
  | Star _ => true
  | Repeat r lo hi => (lo =? 0)%nat || (nullable r && (lo <=? hi)%nat)
  end.

(** Concatenation and alternation that drop the dead branches. *)
Definition seq_ (r1 r2 : regex) : regex :=
  match r1, r2 with
  | Void, _ => Void
  | _, Void => Void
  | Eps, _ => r2
  | _, _ => Seq r1 r2
  end.

Definition alt_ (r1 r2 : regex) : regex :=
  match r1, r2 with
  | Void, _ => r2
  | _, Void => r1
  | _, _ => Alt r1 r2
  end.

(** The derivative of [r] by the character [c]. *)
Fixpoint deriv (c : ascii) (r : regex) : regex :=
  match r with
  | Void => Void
  | Eps => Void
  | Class p => if p c then Eps else Void
  | Seq r1 r2 =>
      alt_ (seq_ (deriv c r1) r2) (if nullable r1 then deriv c r2 else Void)
  | Alt r1 r2 => alt_ (deriv c r1) (deriv c r2)
  | Star r1 => seq_ (deriv c r1) (Star r1)
  | Repeat r1 lo hi =>
      match hi with
      | O => Void
      | S hi' => seq_ (deriv c r1) (Repeat r1 (Nat.pred lo) hi')
      end
  end.

Fixpoint matches (r : regex) (s : list ascii) : bool :=
  match s with
  | [] => nullable r
  | c :: s' => matches (deriv c r) s'
  end.

(** [/^r$/.test(s)] *)
Definition test (r : regex) (s : string) : bool :=
  matches r (list_ascii_of_string s).

(** Character classes. *)
Definition range (lo hi : ascii) (c : ascii) : bool :=
  (nat_of_ascii lo <=? nat_of_ascii c)%nat && (nat_of_ascii c <=? nat_of_ascii hi)%nat.

Definition one_of (chars : string) (c : ascii) : bool :=
  existsb (Ascii.eqb c) (list_ascii_of_string chars).

Definition union (p q : ascii -> bool) (c : ascii) : bool := p c || q c.

Definition to_lower (c : ascii) : ascii :=
  if range "A" "Z" c then ascii_of_nat (nat_of_ascii c + 32) else c.

Definition to_upper (c : ascii) : ascii :=
  if range "a" "z" c then ascii_of_nat (nat_of_ascii c - 32) else c.

(** A class under the [i] flag: a character matches when its other case
    does.  (No character outside ASCII folds to an ASCII letter in a
    pattern without the [u] flag.) *)
Definition ignore_case (p : ascii -> bool) (c : ascii) : bool :=
  p c || p (to_lower c) || p (to_upper c).

End Regex.

(** ** JSON values, [JSON.stringify] and [JSON.parse] *)

Module Json.

(** What [JSON.parse] produces and [JSON.stringify] consumes.  A number is
    an integer (fractions and exponents are outside the model).  An object
    lists its members in order; reading a property takes the last member
    of that name, as [JSON.parse] lets a later member override an earlier
    one. *)
Inductive value : Type :=
| JNull
| JBool (b : bool)
| JNumber (n : Z)
| JString (s : string)
| JArray (items : list value)
| JObject (props : list (string * value)).

(** [object[key]] on the members of an object. *)
Fixpoint get_member (key : string) (props : list (string * value)) : option value :=
  match props with
  | [] => None
  | (k, v) :: props' =>
      match get_member key props' with
      | Some v' => Some v'
      | None => if (k =? key)%string then Some v else None
      end
  end.

(** [doc.key]: [None] is [undefined]. *)
Definition get (key : string) (doc : value) : option value :=
  match doc with
  | JObject props => get_member key props
  | _ => None
  end.

Definition chars (s : string) : list ascii := list_ascii_of_string s.

Definition DQUOTE : ascii := Eval cbv in ascii_of_nat 34.
Definition BACKSLASH : ascii := Eval cbv in ascii_of_nat 92.
Definition NEWLINE : ascii := Eval cbv in ascii_of_nat 10.
Definition SPACE : ascii := Eval cbv in ascii_of_nat 32.

Definition is_ws (c : ascii) : bool :=
  let n := nat_of_ascii c in
  (n =? 32)%nat || (n =? 9)%nat || (n =? 10)%nat || (n =? 13)%nat.

Definition is_digit (c : ascii) : bool :=
  (48 <=? nat_of_ascii c)%nat && (nat_of_ascii c <=? 57)%nat.

(** *** Printing *)

Definition hex_digit (n : nat) : ascii :=
  if (n <? 10)%nat then ascii_of_nat (48 + n) else ascii_of_nat (87 + n).

(** One character of a string, as [JSON.stringify] quotes it. *)
Definition escape_char (c : ascii) : list ascii :=
  let n := nat_of_ascii c in
  if (n =? 34)%nat then [BACKSLASH; DQUOTE]
  else if (n =? 92)%nat then [BACKSLASH; BACKSLASH]
  else if (n =? 8)%nat then [BACKSLASH; "b"%char]
  else if (n =? 12)%nat then [BACKSLASH; "f"%char]
  else if (n =? 10)%nat then [BACKSLASH; "n"%char]
  else if (n =? 13)%nat then [BACKSLASH; "r"%char]
  else if (n =? 9)%nat then [BACKSLASH; "t"%char]
  else if (n <? 32)%nat then
    [BACKSLASH; "u"%char; "0"%char; "0"%char; hex_digit (n / 16); hex_digit (n mod 16)]
  else [c].

Fixpoint escape (s : string) : list ascii :=
  match s with
  | EmptyString => []
  | String c s' => (escape_char c ++ escape s')%list
  end.

Definition quote (s : string) : list ascii := (DQUOTE :: escape s ++ [DQUOTE])%list.

Fixpoint print_uint (d : Decimal.uint) : list ascii :=
  match d with
  | Decimal.Nil => []
  | Decimal.D0 d' => "0"%char :: print_uint d'
  | Decimal.D1 d' => "1"%char :: print_uint d'
  | Decimal.D2 d' => "2"%char :: print_uint d'
  | Decimal.D3 d' => "3"%char :: print_uint d'
  | Decimal.D4 d' => "4"%char :: print_uint d'
  | Decimal.D5 d' => "5"%char :: print_uint d'
  | Decimal.D6 d' => "6"%char :: print_uint d'
  | Decimal.D7 d' => "7"%char :: print_uint d'
  | Decimal.D8 d' => "8"%char :: print_uint d'
  | Decimal.D9 d' => "9"%char :: print_uint d'
  end.

Definition print_Z (n : Z) : list ascii :=
  match Z.to_int n with
  | Decimal.Pos d => print_uint d
  | Decimal.Neg d => "-"%char :: print_uint d
  end.

Definition spaces (n : nat) : list ascii := repeat SPACE n.

Fixpoint join_comma (parts : list (list ascii)) : list ascii :=
  match parts with
  | [] => []
  | [p] => p
  | p :: ps => (p ++ ","%char :: join_comma ps)%list
  end.

(** The members of an array or object, one per line, indented by two
    more spaces than the line of the opening bracket. *)
Definition brackets (opening closing : ascii) (indent : nat) (parts : list (list ascii))
  : list ascii :=
  match parts with
  | [] => [opening; closing]
  | _ => (opening
          :: join_comma (map (fun p => NEWLINE :: spaces (indent + 2) ++ p) parts)
          ++ NEWLINE :: spaces indent ++ [closing])%list
  end.

(** The text of a value at nesting depth [indent / 2], with a gap of two
    spaces. *)
Fixpoint print (indent : nat) (v : value) : list ascii :=
  match v with
  | JNull => chars "null"
  | JBool true => chars "true"
  | JBool false => chars "false"
  | JNumber n => print_Z n
  | JString s => quote s
  | JArray items => brackets "["%char "]"%char indent (map (print (indent + 2)) items)
  | JObject props =>
      brackets "{"%char "}"%char indent
        (map (fun kv => (quote (fst kv) ++ chars ": " ++ print (indent + 2) (snd kv))%list)
             props)
  end.

(** [JSON.stringify(v, null, 2)] *)
Definition stringify (v : value) : string := string_of_list_ascii (print 0 v).

(** *** Parsing *)

Fixpoint skip_ws (s : list ascii) : list ascii :=
  match s with
  | c :: s' => if is_ws c then skip_ws s' else s
  | [] => []
  end.

Fixpoint strip_prefix (p s : list ascii) : option (list ascii) :=
  match p, s with
  | [], _ => Some s
  | a :: p', b :: s' => if Ascii.eqb a b then strip_prefix p' s' else None
  | _ :: _, [] => None
  end.

Definition hex_value (c : ascii) : option nat :=
  let n := nat_of_ascii c in
  if is_digit c then Some (n - 48)%nat
  else if (97 <=? n)%nat && (n <=? 102)%nat then Some (n - 87)%nat
  else if (65 <=? n)%nat && (n <=? 70)%nat then Some (n - 55)%nat
  else None.

(** The character of a [\uXXXX] escape; a code unit above 255 is outside
    the character model. *)
Definition unicode_escape (h1 h2 h3 h4 : ascii) : option ascii :=
  a ← hex_value h1; b ← hex_value h2; c ← hex_value h3; d ← hex_value h4;
  let code := (((a * 16 + b) * 16 + c) * 16 + d)%nat in
  if (code <? 256)%nat then Some (ascii_of_nat code) else None.

Definition simple_escape (e : ascii) : option ascii :=
  let n := nat_of_ascii e in
  if (n =? 34)%nat then Some DQUOTE
  else if (n =? 92)%nat then Some BACKSLASH
  else if (n =? 47)%nat then Some "/"%char
  else if (n =? 98)%nat then Some (ascii_of_nat 8)
  else if (n =? 102)%nat then Some (ascii_of_nat 12)
  else if (n =? 110)%nat then Some (ascii_of_nat 10)
  else if (n =? 114)%nat then Some (ascii_of_nat 13)
  else if (n =? 116)%nat then Some (ascii_of_nat 9)
  else None.

(** The characters of a string literal, after its opening quote and up to
    its closing quote. *)
Fixpoint parse_chars (s : list ascii) : option (string * list ascii) :=
  match s with
  | [] => None
  | c :: s1 =>
      if Ascii.eqb c DQUOTE then Some (EmptyString, s1)
      else if Ascii.eqb c BACKSLASH then
        match s1 with
        | e :: s2 =>
            if Ascii.eqb e "u"%char then
              match s2 with
              | h1 :: h2 :: h3 :: h4 :: s3 =>
                  x ← unicode_escape h1 h2 h3 h4;
                  '(str, rest) ← parse_chars s3;
                  Some (String x str, rest)
              | _ => None
              end
            else
              x ← simple_escape e;
              '(str, rest) ← parse_chars s2;
              Some (String x str, rest)
        | [] => None
        end
      else if (nat_of_ascii c <? 32)%nat then None
      else '(str, rest) ← parse_chars s1; Some (String c str, rest)
  end.

Definition digit_of (c : ascii) : option (Decimal.uint -> Decimal.uint) :=
  let n := nat_of_ascii c in
  if (n =? 48)%nat then Some Decimal.D0
  else if (n =? 49)%nat then Some Decimal.D1
  else if (n =? 50)%nat then Some Decimal.D2
  else if (n =? 51)%nat then Some Decimal.D3
  else if (n =? 52)%nat then Some Decimal.D4
  else if (n =? 53)%nat then Some Decimal.D5
  else if (n =? 54)%nat then Some Decimal.D6
  else if (n =? 55)%nat then Some Decimal.D7
  else if (n =? 56)%nat then Some Decimal.D8
  else if (n =? 57)%nat then Some Decimal.D9
  else None.

(** The longest prefix of digits. *)
Fixpoint parse_uint (s : list ascii) : Decimal.uint * list ascii :=
  match s with
  | [] => (Decimal.Nil, [])
  | c :: s1 =>
      match digit_of c with
      | Some digit => let '(d, rest) := parse_uint s1 in (digit d, rest)
      | None => (Decimal.Nil, s)
      end
  end.

(** A fraction or an exponent follows. *)
Definition number_continues (s : list ascii) : bool :=
  match s with
  | c :: _ => Ascii.eqb c "."%char || Ascii.eqb c "e"%char || Ascii.eqb c "E"%char
  | [] => false
  end.

(** No digit follows the leading zero of a JSON number. *)
Definition leading_zero (d : Decimal.uint) : bool :=
  match d with
  | Decimal.D0 Decimal.Nil => false
  | Decimal.D0 _ => true
  | _ => false
  end.

(** A JSON integer: an optional minus sign, then [0] or a digit string
    that does not start with [0]. *)
Definition parse_number (s : list ascii) : option (Z * list ascii) :=
  let '(negative, s1) :=
    match s with
    | c :: s1 => if Ascii.eqb c "-"%char then (true, s1) else (false, s)
    | [] => (false, s)
    end in
  let '(d, rest) := parse_uint s1 in
  match d with
  | Decimal.Nil => None
  | _ =>
      if leading_zero d || number_continues rest then None
      else Some (Z.of_int (if negative then Decimal.Neg d else Decimal.Pos d), rest)
  end.

(** Recursive descent; every call on a value, an element list or a member
    list spends one unit of [fuel]. *)
Fixpoint parse_value (fuel : nat) (s : list ascii) {struct fuel}
  : option (value * list ascii) :=
  match fuel with
  | O => None
  | S fuel' =>
      match skip_ws s with
      | [] => None
      | c :: rest =>
          if Ascii.eqb c DQUOTE then
            '(str, rest1) ← parse_chars rest; Some (JString str, rest1)
          else if Ascii.eqb c "["%char then
            match skip_ws rest with
            | [] => None
            | c1 :: rest1 =>
                if Ascii.eqb c1 "]"%char then Some (JArray [], rest1)
                else '(items, rest2) ← parse_elements fuel' rest;
                     Some (JArray items, rest2)
            end
          else if Ascii.eqb c "{"%char then
            match skip_ws rest with
            | [] => None
            | c1 :: rest1 =>
                if Ascii.eqb c1 "}"%char then Some (JObject [], rest1)
                else '(props, rest2) ← parse_members fuel' rest;
                     Some (JObject props, rest2)
            end
          else if Ascii.eqb c "n"%char then
            rest1 ← strip_prefix (chars "ull") rest; Some (JNull, rest1)
          else if Ascii.eqb c "t"%char then
            rest1 ← strip_prefix (chars "rue") rest; Some (JBool true, rest1)
          else if Ascii.eqb c "f"%char then
            rest1 ← strip_prefix (chars "alse") rest; Some (JBool false, rest1)
          else
            '(n, rest1) ← parse_number (c :: rest); Some (JNumber n, rest1)
      end
  end
with parse_elements (fuel : nat) (s : list ascii) {struct fuel}
  : option (list value * list ascii) :=
  match fuel with
  | O => None
  | S fuel' =>
      '(v, rest) ← parse_value fuel' s;
      match skip_ws rest with
      | [] => None
      | c :: rest1 =>
          if Ascii.eqb c ","%char then
            '(vs, rest2) ← parse_elements fuel' rest1; Some (v :: vs, rest2)
          else if Ascii.eqb c "]"%char then Some ([v], rest1)
          else None
      end
  end
with parse_members (fuel : nat) (s : list ascii) {struct fuel}
  : option (list (string * value) * list ascii) :=
  match fuel with
  | O => None
  | S fuel' =>
      match skip_ws s with
      | [] => None
      | q :: rest =>
          if Ascii.eqb q DQUOTE then
            '(key, rest1) ← parse_chars rest;
            match skip_ws rest1 with
            | [] => None
            | colon :: rest2 =>
                if Ascii.eqb colon ":"%char then
                  '(v, rest3) ← parse_value fuel' rest2;
                  match skip_ws rest3 with
                  | [] => None
                  | c :: rest4 =>
                      if Ascii.eqb c ","%char then
                        '(ms, rest5) ← parse_members fuel' rest4;
                        Some ((key, v) :: ms, rest5)
                      else if Ascii.eqb c "}"%char then Some ([(key, v)], rest4)
                      else None
                  end
                else None
            end
          else None
      end
  end.

(** [JSON.parse(text)]: [None] stands for the [SyntaxError]. *)
Definition parse (text : string) : option value :=
  '(v, rest) ← parse_value (String.length text) (chars text);
  match skip_ws rest with
  | [] => Some v
  | _ :: _ => None
  end.

End Json.

(** ** Schema validator: [src/lib/config.ts] *)

Module Config.

(** [ModuleConfig] of [utils/prompts.ts].  A field is [None] when the
    property is missing or [undefined]: the validator reads configurations
    loaded from disk, and tests every required property for presence. *)
Record ModuleConfig := {
  kind : option string;
  type : option string;
  moduleId : option string;
  layers : option (list string);
  fieldValues : option (list (string * Json.value));
}.

(** An optional property of an object literal, as the object spread sees
    it: absent, present with the value [undefined], or present with a
    value. *)
Inductive optional (A : Type) : Type :=
| Absent
| Undefined
| Present (a : A).
Arguments Absent {A}.
Arguments Undefined {A}.
Arguments Present {A} a.

(** The value of a property that the program may set to [null]: the
    setup stores the [null] of the choice "None" in [provider] and [vcs]. *)
Inductive or_null (A : Type) : Type :=
| Null
| NotNull (a : A).
Arguments Null {A}.
Arguments NotNull {A} a.

(** [GrablinConfig]: [ProjectConfig] extended with [version?].  [provider]
    and [vcs] are missing ([None]), [null] or a string. *)
Record GrablinConfig := {
  projectName : option string;
  description : option string;
  domain : option string;
  owner : option string;
  modules : option (list ModuleConfig);
  environments : option (list string);
  provider : option (or_null string);
  vcs : option (or_null string);
  version : optional string;
}.

Record ValidationResult := {
  valid : bool;
  errors : list string;
  warnings : list string;
}.

(** The string held by a property already tested to be truthy. *)
Definition the (x : option string) : string := default "" x.

(** [array.push(x)] *)
Definition push (array : list string) (x : string) : list string := (array ++ [x])%list.

Import Regex.

Definition letter : ascii -> bool := union (range "a" "z") (range "A" "Z").
Definition digit : ascii -> bool := range "0" "9".
Definition lower : ascii -> bool := range "a" "z".

(** [/^[a-zA-Z][a-zA-Z0-9-_]{0,99}$/] *)
Definition PROJECT_NAME_RE : regex :=
  Seq (Class letter) (Repeat (Class (union letter (union digit (one_of "-_")))) 0 99).

(** [[a-z0-9](?:[a-z0-9-]{0,61}[a-z0-9])?] under the [i] flag *)
Definition domain_label_i : regex :=
  Seq (Class (ignore_case (union lower digit)))
      (Opt (Seq (Repeat (Class (ignore_case (union lower (union digit (one_of "-"))))) 0 61)
                (Class (ignore_case (union lower digit))))).

(** [/^(?:[a-z0-9](?:[a-z0-9-]{0,61}[a-z0-9])?\.)+[a-z]{2,24}$/i] *)
Definition DOMAIN_RE : regex :=
  Seq (Plus (Seq domain_label_i (Class (one_of "."))))
      (Repeat (Class (ignore_case lower)) 2 24).

(** [[a-zA-Z0-9](?:[a-zA-Z0-9-]{0,61}[a-zA-Z0-9])?] *)
Definition host_label : regex :=
  Seq (Class (union letter digit))
      (Opt (Seq (Repeat (Class (union letter (union digit (one_of "-")))) 0 61)
                (Class (union letter digit)))).

(** [/^[a-zA-Z0-9.!#$%&'*+/=?^_`{|}~-]+@[a-zA-Z0-9](?:[a-zA-Z0-9-]{0,61}[a-zA-Z0-9])?(?:\.[a-zA-Z0-9](?:[a-zA-Z0-9-]{0,61}[a-zA-Z0-9])?)*$/] *)
Definition EMAIL_RE : regex :=
  Seq (Plus (Class (union letter (union digit (one_of ".!#$%&'*+/=?^_`{|}~-")))))
      (Seq (Class (one_of "@"))
           (Seq host_label (Star (Seq (Class (one_of ".")) host_label)))).

(** [/^[a-z][a-z0-9-]{0,99}$/] *)
Definition MODULE_ID_RE : regex :=
  Seq (Class lower) (Repeat (Class (union lower (union digit (one_of "-")))) 0 99).

(** [validateModule(module, index)] *)
Definition validateModule (module : ModuleConfig) (index : nat) : list string :=
  let errors : list string := [] in
  let prefix := "modules[" ++ show_nat index ++ "]" in
  let errors :=
    if negb (truthy (kind module)) then
      push errors (prefix ++ ".kind is required (code, extension, provider, vcs)")
    else if negb (existsb (String.eqb (the (kind module)))
                    ["code"; "extension"; "provider"; "vcs"]) then
      push errors (prefix ++ ".kind must be one of: code, extension, provider, vcs")
    else errors in
  let errors :=
    if negb (truthy (type module)) then push errors (prefix ++ ".type is required")
    else errors in
  let errors :=
    if negb (truthy (moduleId module)) then
      push errors (prefix ++ ".moduleId is required")
    else if negb (test MODULE_ID_RE (the (moduleId module))) then
      push errors (prefix ++ ".moduleId must be lowercase, start with a letter, use hyphens only, and be 1-100 chars")
    else if endsWith (the (moduleId module)) "-" || includes (the (moduleId module)) "--" then
      push errors (prefix ++ ".moduleId cannot end with hyphen or contain consecutive hyphens")
    else errors in
  errors.

(** The body of [validateConfig] is a sequence of [if] statements that
    push onto [errors] and [warnings]; each statement is one step below. *)

(** [if (!config.projectName) ... else if ...] *)
Definition check_projectName (config : GrablinConfig) (errors : list string) : list string :=
  if negb (truthy (projectName config)) then push errors "projectName is required"
  else if negb (test PROJECT_NAME_RE (the (projectName config))) then
    push errors "projectName must start with a letter, contain only letters, numbers, hyphens, and underscores, and be 1-100 chars"
  else errors.

(** [if (!config.domain) ... else if ... else if ... else if ...] *)
Definition check_domain (config : GrablinConfig) (errors : list string) : list string :=
  if negb (truthy (domain config)) then push errors "domain is required"
  else if negb (test DOMAIN_RE (the (domain config))) then
    push errors "domain must be a valid domain name (e.g., myapp.com, api.myapp.io)"
  else if (253 <? String.length (the (domain config)))%nat then
    push errors "domain name too long (max 253 characters)"
  else if some (fun label => (63 <? String.length label)%nat)
               (split "." (the (domain config))) then
    push errors "domain label too long (max 63 characters per label)"
  else errors.

(** [if (!config.owner) ... else if ... else if ...] *)
Definition check_owner (config : GrablinConfig) (errors : list string) : list string :=
  if negb (truthy (owner config)) then push errors "owner email is required"
  else if negb (test EMAIL_RE (the (owner config))) then
    push errors "owner must be a valid email address"
  else if (254 <? String.length (the (owner config)))%nat then
    push errors "email address too long (max 254 characters)"
  else errors.

(** [if (!config.modules || !Array.isArray(config.modules)) ... else if
    (config.modules.length === 0) ... else { forEach ...; filter ... }] *)
Definition check_modules (config : GrablinConfig) (errors warnings : list string)
  : list string * list string :=
  match modules config with
  | None => (push errors "modules array is required", warnings)
  | Some ms =>
      if (List.length ms =? 0)%nat then
        (errors, push warnings "No modules specified - project will be empty")
      else
        let errors :=
          (errors ++ concat (imap (fun index module => validateModule module index) ms))%list in
        let codeModules := List.filter (fun m => bool_decide (kind m = Some "code")) ms in
        if (List.length codeModules =? 0)%nat then
          (errors, push warnings "No code modules (frontend/backend) specified")
        else (errors, warnings)
  end.

(** [if (!config.environments || !Array.isArray(config.environments)) ...] *)
Definition check_environments (config : GrablinConfig) (warnings : list string) : list string :=
  match environments config with
  | None => push warnings "No environments specified, using defaults (dev, staging, prod)"
  | Some _ => warnings
  end.

(** [validateConfig(config)] *)
Definition validateConfig (config : GrablinConfig) : ValidationResult :=
  let errors : list string := [] in
  let warnings : list string := [] in
  let errors := check_projectName config errors in
  let errors := check_domain config errors in
  let errors := check_owner config errors in
  let '(errors, warnings) := check_modules config errors warnings in
  let warnings := check_environments config warnings in
  {| valid := (List.length errors =? 0)%nat; errors := errors; warnings := warnings |}.

(** [getConfigPath(configOption)] *)
Definition DEFAULT_CONFIG_FILE : string := "grablin.json".

Definition getConfigPath (configOption : option string) : string :=
  the (js_or configOption (Some DEFAULT_CONFIG_FILE)).

(** *** The config store: [saveConfig] and [loadConfig]

    The file system maps an absolute path to the text of the file there.
    [path.resolve] is a function of the path alone while the working
    directory of the process stays the same. *)

Abbreviation FileSystem := (gmap string string).

Import Json.

(** An object under construction: its own enumerable properties in
    order, a value [None] being [undefined]. *)
Abbreviation object := (list (string * option value)).

(** [obj[key] = v]: an existing property keeps its place. *)
Fixpoint set_property (key : string) (v : option value) (obj : object) : object :=
  match obj with
  | [] => [(key, v)]
  | (k, v') :: obj' =>
      if (k =? key)%string then (k, v) :: obj'
      else (k, v') :: set_property key v obj'
  end.

(** [{ ...obj, ...props }]: the own properties of [props] are copied over
    [obj] one by one. *)
Definition spread (obj props : object) : object :=
  fold_left (fun o kv => set_property (fst kv) (snd kv) o) props obj.

(** The object as [JSON.stringify] sees it: a property whose value is
    [undefined] is left out. *)
Definition serializable (obj : object) : value :=
  JObject (omap (fun kv => pair (fst kv) <$> snd kv) obj).

(** A property that is there when its field holds a value. *)
Definition field {A} (key : string) (to_json : A -> value) (x : option A) : object :=
  match x with
  | Some a => [(key, Some (to_json a))]
  | None => []
  end.

Definition strings_json (xs : list string) : value := JArray (map JString xs).

(** [null] is written as [null]. *)
Definition or_null_json (x : or_null string) : value :=
  match x with
  | Null => JNull
  | NotNull s => JString s
  end.

(** A module as a JSON value. *)
Definition module_json (m : ModuleConfig) : value :=
  serializable
    (field "kind" JString (kind m) ++ field "type" JString (type m)
     ++ field "moduleId" JString (moduleId m)
     ++ field "layers" strings_json (layers m)
     ++ field "fieldValues" JObject (fieldValues m))%list.

(** The own properties of a configuration object.  For every field but
    [version], a missing property and an [undefined] one are serialized
    alike (both are left out) and are not told apart here. *)
Definition own_properties (config : GrablinConfig) : object :=
  (field "projectName" JString (projectName config)
   ++ field "description" JString (description config)
   ++ field "domain" JString (domain config)
   ++ field "owner" JString (owner config)
   ++ field "modules" (fun ms => JArray (map module_json ms)) (modules config)
   ++ field "environments" strings_json (environments config)
   ++ field "provider" or_null_json (provider config)
   ++ field "vcs" or_null_json (vcs config)
   ++ match version config with
      | Absent => []
      | Undefined => [("version", None)]
      | Present v => [("version", Some (JString v))]
      end)%list.

(** The message of the engine's [SyntaxError] is not modelled. *)
Definition SYNTAX_ERROR_MESSAGE : string := "Unexpected token in JSON".

Section ConfigStore.

Variable path_resolve : string -> string.

(** [loadConfig(configPath)]: the parsed document, [None] for [null]. *)
Definition loadConfig (fs : FileSystem) (configPath : option string)
  : completion (option value) :=
  let filePath := the (js_or configPath (Some DEFAULT_CONFIG_FILE)) in
  let absolutePath := path_resolve filePath in
  match fs !! absolutePath with
  | None => Return None
  | Some content =>
      match parse content with
      | Some document => Return (Some document)
      | None => Throw (Error ("Failed to parse config file: " ++ SYNTAX_ERROR_MESSAGE))
      end
  end.

(** [saveConfig(config, configPath)]: the path written, and the file
    system after the write (a write that fails, for want of a directory or
    of a permission, is not modelled). *)
Definition saveConfig (fs : FileSystem) (config : GrablinConfig) (configPath : option string)
  : string * FileSystem :=
  let filePath := the (js_or configPath (Some DEFAULT_CONFIG_FILE)) in
  let absolutePath := path_resolve filePath in
  let configWithVersion :=
    spread [("version", Some (JString "1.0"))] (own_properties config) in
  (absolutePath,
   <[absolutePath := stringify (serializable configWithVersion) ++ LF]> fs).

End ConfigStore.

End Config.

(** ** Generation orchestrator: [generate] of [src/lib/generator.ts] *)

Module Generator.

Import Config.

Record GenerateOptions := {
  config : GrablinConfig;
  apiUrl : option string;
  output : option string;
  pushToGithub : bool;
  repoName : option string;
  private : bool;
  verbose : bool;
}.

Inductive GenerationOutcome : Type :=
| Success (fileCount : Z) (outputPath repoUrl cloneCommand : option string)
| Failure (error : string).

(** The request sent to the generation service. *)
Record Request := {
  url : string;
  method : string;
  headers : gmap string string;
  body : Json.value;
}.

(** The responses the orchestrator tells apart. *)
Inductive ApiResponse : Type :=
| NonOk (status : Z) (text : string)
| Archive (fileCount : Z)
| JsonFailure (error : string)
| JsonSuccess (fileCount : Z) (repoUrl cloneCommand : option string).

Inductive PostOutcome : Type :=
| Replied (r : ApiResponse)
| Failed (e : exn).

Definition DEFAULT_API_URL : string := "https://api.grablin.com".

(** The request body: the sections [project], [modules] and [output], and
    [repoName] / [private] when pushing to a repository host. *)
Definition request_body (options : GenerateOptions) : Json.value :=
  let c := config options in
  serializable
    ([("project",
       Some (serializable
               (field "name" Json.JString (projectName c)
                ++ field "domain" Json.JString (domain c)
                ++ field "owner" Json.JString (owner c)
                ++ field "description" Json.JString (description c))%list));
      ("modules", Some (Json.JArray (map module_json (default [] (modules c)))));
      ("output", Some (Json.JString (if pushToGithub options then "github" else "local")))]
     ++ (if pushToGithub options
         then field "repoName" Json.JString (repoName options)
              ++ [("private", Some (Json.JBool (private options)))]
         else []))%list.

(** Modelled from the spec: [generate] lives in [src/lib/generator.ts],
    which is not among the sources; only its caller and its tests are.  The
    steps are those of the design document: fail fast on a missing
    credential with the [AuthError] message, before any network call; fail
    when no output mode is requested; POST the request body to
    [<apiUrl>/api/generate] with the authorization and content-type
    headers; map the response, or a transport exception, to one outcome.
    The result is paired with the requests sent. *)
Definition generate (env : Auth.ProcessEnv) (options : GenerateOptions)
    (post : Request -> PostOutcome) : GenerationOutcome * list Request :=
  match Auth.getAuthHeaders env with
  | Throw e => (Failure (message_of e), [])
  | Return auth =>
      if negb (truthy (output options)) && negb (pushToGithub options) then
        (Failure "No output option specified", [])
      else
        let request :=
          {| url := the (js_or (apiUrl options) (Some DEFAULT_API_URL)) ++ "/api/generate";
             method := "POST";
             headers := <["Content-Type" := "application/json"]> auth;
             body := request_body options |} in
        let outcome :=
          match post request with
          | Failed e => Failure (message_of e)
          | Replied (NonOk status text) =>
              Failure ("API error (" ++ pretty status ++ "): " ++ text)
          | Replied (Archive fileCount) => Success fileCount (output options) None None
          | Replied (JsonFailure error) => Failure error
          | Replied (JsonSuccess fileCount repoUrl cloneCommand) =>
              if pushToGithub options then Success fileCount None repoUrl cloneCommand
              else Success fileCount (output options) None None
          end in
        (outcome, [request])
  end.

End Generator.

(** ** Interactive setup: [src/utils/prompts.ts]

    [inquirer.prompt] asks the questions and hands back the answers: for an
    [input] question the text typed, once its [validate] returns [true] and
    after its [filter]; for a [list] question the [value] of the choice
    taken; for a [checkbox] question the values of the choices ticked.  The
    answers are the input of the model; the validators of the name and of
    the domain, the filter of the environments and the construction of the
    configuration are the program's.  (The validator of the owner address,
    whose pattern [[^\s@]] takes characters of any script, is left out.) *)

Module Prompts.

Import Regex.
Import Config.

(** A choice of a [list] or [checkbox] question; the value [None] is
    [null]. *)
Record Choice := {
  name : string;
  value : option string;
}.

Definition FRONTEND_CHOICES : list Choice :=
  [ {| name := "React (Vite + TypeScript)"; value := Some "react" |};
    {| name := "Next.js (Static/SSR)"; value := Some "nextjs" |};
    {| name := "None"; value := None |} ].

Definition BACKEND_CHOICES : list Choice :=
  [ {| name := "Spring Boot (Java/Kotlin)"; value := Some "spring" |};
    {| name := "Django REST Framework (Python)"; value := Some "drf" |};
    {| name := "None"; value := None |} ].

Definition EXTENSION_CHOICES : list Choice :=
  [ {| name := "Auth0 (Authentication)"; value := Some "auth0" |};
    {| name := "Okta (Enterprise SSO)"; value := Some "okta" |};
    {| name := "Stytch (Passwordless)"; value := Some "stytch" |};
    {| name := "Stripe (Payments)"; value := Some "stripe" |};
    {| name := "RBAC (Role-based access)"; value := Some "rbac" |};
    {| name := "Redis (Caching)"; value := Some "redis" |};
    {| name := "MemoryDB (In-memory store)"; value := Some "memorydb" |};
    {| name := "RDBMS (PostgreSQL)"; value := Some "rdbms" |};
    {| name := "Rate Limiting"; value := Some "ratelimit" |};
    {| name := "Webhooks (Outbound)"; value := Some "webhooks" |};
    {| name := "Audit Log"; value := Some "auditlog" |};
    {| name := "Teams (Multi-tenancy)"; value := Some "teams" |};
    {| name := "Custom Domain"; value := Some "customdomain" |};
    {| name := "Cloudflare (CDN/DNS)"; value := Some "cloudflare" |};
    {| name := "Route53 (DNS)"; value := Some "route53" |};
    {| name := "Whitelabel"; value := Some "whitelabel" |} ].

Definition PROVIDER_CHOICES : list Choice :=
  [ {| name := "AWS"; value := Some "aws" |};
    {| name := "DigitalOcean"; value := Some "digitalocean" |};
    {| name := "None (local only)"; value := None |} ].

Definition VCS_CHOICES : list Choice :=
  [ {| name := "GitHub"; value := Some "github" |};
    {| name := "None"; value := None |} ].

(** What a [validate] function returns: [true], or the message shown
    before the question is asked again. *)
Inductive Validation : Type :=
| Valid
| Invalid (message : string).

(** White space of [String.prototype.trim] among the characters of the
    model (code units below 256): tab, line feed, vertical tab, form feed,
    carriage return, space and no-break space. *)
Definition is_space (c : ascii) : bool :=
  let n := nat_of_ascii c in
  (n =? 9)%nat || (n =? 10)%nat || (n =? 11)%nat || (n =? 12)%nat || (n =? 13)%nat
  || (n =? 32)%nat || (n =? 160)%nat.

(** [/^[a-zA-Z][a-zA-Z0-9-_]*$/] *)
Definition PROMPT_NAME_RE : regex :=
  Seq (Class letter) (Star (Class (union letter (union digit (one_of "-_"))))).

(** [/^[a-z0-9][a-z0-9-]*\.[a-z]{2,}$/] *)
Definition PROMPT_DOMAIN_RE : regex :=
  Seq (Class (union lower digit))
      (Seq (Star (Class (union lower (union digit (one_of "-")))))
           (Seq (Class (one_of "."))
                (Seq (Repeat (Class lower) 2 2) (Star (Class lower))))).

(** The [validate] of the project-name question. *)
Definition validate_projectName (input : string) : Validation :=
  if negb (test PROMPT_NAME_RE input) then
    Invalid "Project name must start with a letter and contain only letters, numbers, hyphens, and underscores"
  else Valid.

(** The [validate] of the domain question. *)
Definition validate_domain (input : string) : Validation :=
  if negb (test PROMPT_DOMAIN_RE input) then
    Invalid "Please enter a valid domain (e.g., myapp.com)"
  else Valid.

(** [s.trim()] *)
Fixpoint trimStart (s : string) : string :=
  match s with
  | EmptyString => EmptyString
  | String c s' => if is_space c then trimStart s' else s
  end.

Fixpoint trimEnd (s : string) : string :=
  match s with
  | EmptyString => EmptyString
  | String c s' =>
      match trimEnd s' with
      | EmptyString => if is_space c then EmptyString else String c EmptyString
      | t => String c t
      end
  end.

Definition trim (s : string) : string := trimEnd (trimStart s).

(** The [filter] of the environments question:
    [input.split(',').map(s => s.trim()).filter(Boolean)]. *)
Definition environments_filter (input : string) : list string :=
  List.filter (fun s => truthy (Some s)) (map trim (split "," input)).

(** The answers to the three groups of questions.  (The fields are named
    after the group, as the property names are those of the
    configuration.) *)
Record BasicAnswers := {
  basic_projectName : string;
  basic_description : string;
  basic_domain : string;
  basic_owner : string;
}.

Record StackAnswers := {
  frontend : option string;
  backend : option string;
  extensions : list string;
}.

Record InfraAnswers := {
  infra_provider : option string;
  infra_vcs : option string;
  infra_environments : list string;
}.

(** [fieldValues: {}] *)
Definition no_fieldValues : option (list (string * Json.value)) := Some [].

(** [for (const ext of stackAnswers.extensions) modules.push(...)] *)
Definition push_extensions (modules : list ModuleConfig) (extensions : list string)
  : list ModuleConfig :=
  fold_left
    (fun modules ext =>
       (modules ++ [ {| kind := Some "extension"; type := Some ext; moduleId := Some ext;
                        layers := None; fieldValues := no_fieldValues |} ])%list)
    extensions modules.

(** The answer to a [list] question as the value of a property: the
    [null] of the choice "None", or the string of another choice. *)
Definition answered (answer : option string) : or_null string :=
  match answer with
  | Some s => NotNull s
  | None => Null
  end.

(** [promptForConfig()], from the answers on.  The result always carries
    the properties [provider] and [vcs]; they hold [null] when the question
    was answered with "None". *)
Definition promptForConfig (basicAnswers : BasicAnswers) (stackAnswers : StackAnswers)
    (infraAnswers : InfraAnswers) : GrablinConfig :=
  let modules : list ModuleConfig := [] in
  let modules :=
    if truthy (frontend stackAnswers) then
      (modules ++ [ {| kind := Some "code"; type := frontend stackAnswers;
                       moduleId := Some "frontend";
                       layers := Some ["frontend"; "cicd"];
                       fieldValues := no_fieldValues |} ])%list
    else modules in
  let modules :=
    if truthy (backend stackAnswers) then
      (modules ++ [ {| kind := Some "code"; type := backend stackAnswers;
                       moduleId := Some "api";
                       layers := Some ["backend"; "cicd"];
                       fieldValues := no_fieldValues |} ])%list
    else modules in
  let modules := push_extensions modules (extensions stackAnswers) in
  let modules :=
    if truthy (infra_provider infraAnswers) then
      (modules ++ [ {| kind := Some "provider"; type := infra_provider infraAnswers;
                       moduleId := infra_provider infraAnswers;
                       layers := Some ["ops"];
                       fieldValues := no_fieldValues |} ])%list
    else modules in
  let modules :=
    if truthy (infra_vcs infraAnswers) then
      (modules ++ [ {| kind := Some "vcs"; type := infra_vcs infraAnswers;
                       moduleId := infra_vcs infraAnswers;
                       layers := Some ["cicd"];
                       fieldValues := no_fieldValues |} ])%list
    else modules in
  {| projectName := Some (basic_projectName basicAnswers);
     description := js_or (Some (basic_description basicAnswers)) None;
     domain := Some (basic_domain basicAnswers);
     owner := Some (basic_owner basicAnswers);
     modules := Some modules;
     environments := Some (infra_environments infraAnswers);
     provider := Some (answered (infra_provider infraAnswers));
     vcs := Some (answered (infra_vcs infraAnswers));
     version := Absent |}.

End Prompts.

(** ** The [whoami] command: [src/commands/whoami.ts]

    What the action prints, call by call ([logger] and the spinner write
    styled lines to the terminal; the styling of [chalk] is left out), and
    how the process ends. *)

Module Whoami.

Import Auth.

Inductive Output : Type :=
| ConsoleLog (text : string)            (* console.log(text); console.log() prints an empty line *)
| LoggerInfo (msg : string)
| LoggerError (msg : string)
| LoggerSection (title : string)
| LoggerKv (key value : string)
| SpinnerStart (text : string)          (* ora(text).start() *)
| SpinnerStop
| SpinnerFail (text : string).

(** A run of the action: the lines printed, the code of [process.exit]
    ([None] when the action returns), and the world after it. *)
Record Run := {
  printed : list Output;
  exitCode : option Z;
  world : World;
}.

(** The action of [whoamiCommand]. *)
Definition whoamiCommand (env : ProcessEnv) (w : World) : Run :=
  if negb (hasToken env) then
    {| printed :=
         [ ConsoleLog "";
           LoggerInfo "Not authenticated.";
           ConsoleLog "";
           LoggerSection "Setup";
           ConsoleLog "  Set GITHUB_TOKEN or GH_TOKEN environment variable:";
           ConsoleLog "";
           ConsoleLog "    export GITHUB_TOKEN=ghp_xxxx";
           ConsoleLog "";
           ConsoleLog "  Create a token at: https://github.com/settings/tokens";
           ConsoleLog "" ];
       exitCode := None;
       world := w |}
  else
    let spinner := [SpinnerStart "Fetching user info"] in
    match getGitHubUser env w with
    | (Return user, w') =>
        match user with
        | None =>
            {| printed := (spinner ++ [SpinnerStop; LoggerError "Invalid or expired token."])%list;
               exitCode := Some 1%Z;
               world := w' |}
        | Some user =>
            {| printed :=
                 (spinner
                  ++ [ SpinnerStop; ConsoleLog ""; LoggerSection "Authenticated User";
                       LoggerKv "Username" (login user) ]
                  ++ (if truthy (name user) then [LoggerKv "Name" (default "" (name user))]
                      else [])
                  ++ (if truthy (email user) then [LoggerKv "Email" (default "" (email user))]
                      else [])
                  ++ [ LoggerKv "User ID" (pretty (id user)); ConsoleLog "" ])%list;
               exitCode := None;
               world := w' |}
        end
    | (Throw error, w') =>
        {| printed :=
             (spinner ++ [SpinnerFail "Failed to fetch user info";
                          LoggerError (message_of error)])%list;
           exitCode := Some 1%Z;
           world := w' |}
    end.

End Whoami.

(** ** The [list] command: [src/commands/list.ts]

    The three helpers read plain objects by key.  A plain object answers
    for its own properties and for the members it inherits from
    [Object.prototype]; both kinds of answer are modelled. *)

Module ListCommand.

Record ModuleInfo := {
  id : string;
  type : string;
  name : string;
  description : string;
  kind : option string;            (* [None]: the property is missing *)
  layers : option (list string);
}.

(** The names every plain object inherits from [Object.prototype]. *)
Definition OBJECT_PROTOTYPE : list string :=
  [ "constructor"; "__defineGetter__"; "__defineSetter__"; "hasOwnProperty";
    "__lookupGetter__"; "__lookupSetter__"; "isPrototypeOf"; "propertyIsEnumerable";
    "toString"; "valueOf"; "__proto__"; "toLocaleString" ].

(** What [obj[key]] yields: the value of an own property, a member of
    [Object.prototype] (a function, or the prototype itself for
    [__proto__]; truthy, and without a [push]), or [undefined]. *)
Inductive Member (A : Type) : Type :=
| OwnProperty (a : A)
| InheritedMember
| NoProperty.
Arguments OwnProperty {A} a.
Arguments InheritedMember {A}.
Arguments NoProperty {A}.

(** The own properties of an object, in insertion order. *)
Fixpoint own_property {A} (obj : list (string * A)) (key : string) : option A :=
  match obj with
  | [] => None
  | (k, a) :: obj' => if (k =? key)%string then Some a else own_property obj' key
  end.

(** [obj[key]] *)
Definition member {A} (obj : list (string * A)) (key : string) : Member A :=
  match own_property obj key with
  | Some a => OwnProperty a
  | None =>
      if existsb (String.eqb key) OBJECT_PROTOTYPE then InheritedMember else NoProperty
  end.

(** [obj[key] = a] for a key that the object holds or that
    [Object.prototype] does not define. *)
Fixpoint assign {A} (obj : list (string * A)) (key : string) (a : A) : list (string * A) :=
  match obj with
  | [] => [(key, a)]
  | (k, a') :: obj' =>
      if (k =? key)%string then (k, a) :: obj' else (k, a') :: assign obj' key a
  end.

(** [c.toLowerCase()] on one character of the model (code units below
    256): the letters A-Z and the capital letters of Latin-1. *)
Definition lower_char (c : ascii) : ascii :=
  let n := nat_of_ascii c in
  if ((65 <=? n) && (n <=? 90) || (192 <=? n) && (n <=? 222) && negb (n =? 215))%nat
  then ascii_of_nat (n + 32) else c.

(** [s.toLowerCase()] *)
Fixpoint toLowerCase (s : string) : string :=
  match s with
  | EmptyString => EmptyString
  | String c s' => String (lower_char c) (toLowerCase s')
  end.

(** What the two lookups with a fallback return: a string, or the
    inherited member that the lookup ran into. *)
Inductive Looked : Type :=
| Str (s : string)
| Inherited.

(** [mapTypeToKind(type)]; [None] is [null]. *)
Definition mapTypeToKind (type : string) : option Looked :=
  let mapping : list (string * string) :=
    [ ("modules", "code"); ("code", "code");
      ("extensions", "extension"); ("extension", "extension");
      ("providers", "provider"); ("provider", "provider");
      ("vcs", "vcs") ] in
  match member mapping (toLowerCase type) with
  | OwnProperty k => if truthy (Some k) then Some (Str k) else None
  | InheritedMember => Some Inherited
  | NoProperty => None
  end.

(** The [for] loop of [groupByKind]: [groups[kind].push(module)] on an
    inherited member throws a [TypeError]. *)
Fixpoint group_loop (modules : list ModuleInfo) (groups : list (string * list ModuleInfo))
  : completion (list (string * list ModuleInfo)) :=
  match modules with
  | [] => Return groups
  | module :: modules' =>
      let kind := default "" (js_or (kind module) (Some "unknown")) in
      match member groups kind with
      | NoProperty => group_loop modules' (assign groups kind ([] ++ [module])%list)
      | OwnProperty items => group_loop modules' (assign groups kind (items ++ [module])%list)
      | InheritedMember => Throw (TypeError "groups[kind].push is not a function")
      end
  end.

Definition priority : list string := ["code"; "extension"; "provider"; "vcs"; "unknown"].

(** The second loop: [if (groups[kind]) sorted[kind] = groups[kind]]. *)
Fixpoint sort_loop (kinds : list string) (groups sorted : list (string * list ModuleInfo))
  : list (string * list ModuleInfo) :=
  match kinds with
  | [] => sorted
  | kind :: kinds' =>
      match member groups kind with
      | OwnProperty items => sort_loop kinds' groups (assign sorted kind items)
      | InheritedMember => sort_loop kinds' groups sorted   (* no kind of [priority] is inherited *)
      | NoProperty => sort_loop kinds' groups sorted
      end
  end.

(** [groupByKind(modules)]: the groups in the order of [Object.entries]. *)
Definition groupByKind (modules : list ModuleInfo)
  : completion (list (string * list ModuleInfo)) :=
  match group_loop modules [] with
  | Return groups => Return (sort_loop priority groups [])
  | Throw e => Throw e
  end.

(** [formatKindTitle(kind)] *)
Definition formatKindTitle (kind : string) : Looked :=
  let titles : list (string * string) :=
    [ ("code", "Code Modules (Frontend/Backend)");
      ("extension", "Extensions");
      ("provider", "Cloud Providers");
      ("vcs", "Version Control");
      ("unknown", "Other") ] in
  match member titles kind with
  | OwnProperty title => if truthy (Some title) then Str title else Str kind
  | InheritedMember => Inherited
  | NoProperty => Str kind
  end.

End ListCommand.

(** * Vocabulary of the properties

    The predicates, measures and sample inputs that the statements of the
    last part use. *)

Import ListCommand.
Import Whoami.
Import Prompts.
Import Auth.
Import Config.
Import Generator.
Import Json.

(** ** Identity lookup: classes of responses, expected effects, inputs *)

(** The request every attempt sends for the credential [token]. *)
Definition identity_request (token : string) : Event :=
  EFetch "https://api.github.com/user"
    (<["X-GitHub-Api-Version" := "2022-11-28"]>
     (<["Accept" := "application/vnd.github+json"]>
      {[ "Authorization" := "Bearer " ++ token ]})).

Definition is_4xx (r : Response) : bool :=
  (400 <=? status r)%Z && (status r <? 500)%Z.



(** The world after one attempt that is to be retried. *)
Definition after_retryable (token : string) (attempt : nat) (w : World) : World :=
  let w1 := log (identity_request token) w in
  if (attempt <? maxRetries - 1)%nat
  then log (ESleep (baseDelay * 2 ^ Z.of_nat attempt)) w1
  else w1.

(** The wait that follows a failed attempt: none after the last one. *)
Definition wait_after (attempt : nat) : list Z :=
  if (attempt <? maxRetries - 1)%nat then [baseDelay * 2 ^ Z.of_nat attempt]%Z else [].

(** The waits after the attempts [a], [a+1], ..., [a+k-1]. *)
Fixpoint waits_from (a k : nat) : list Z :=
  match k with
  | O => []
  | S k' => (wait_after a ++ waits_from (S a) k')%list
  end.

Definition delay_of (attempt : nat) : Z := (baseDelay * 2 ^ Z.of_nat attempt)%Z.

(** A credential, and a server that answers every request with 500. *)
Definition token_env : ProcessEnv := {[ "GITHUB_TOKEN" := "ghp_test" ]}.


(** A 200 response whose body is not a JSON text. *)
Definition undecodable_200 : nat -> FetchOutcome :=
  fun _ => Responded {| status := 200;
                        json := Throw (SyntaxError "Unexpected token < in JSON at position 0") |}.

(** ** Schema validator and orchestrator: sample configurations *)

(** A configuration that is valid but for its domain. *)
Definition with_domain (d : string) : GrablinConfig :=
  {| projectName := Some "ValidApp"; description := None; domain := Some d;
     owner := Some "test@example.com"; modules := Some [];
     environments := Some ["dev"]; provider := None; vcs := None;
     version := Absent |}.




(** The configuration of the repository's test "rejects missing
    projectName": no modules, and an empty project name. *)
Definition unnamed_project : GrablinConfig :=
  {| projectName := Some ""; description := None; domain := Some "test.com";
     owner := Some "test@example.com"; modules := Some [];
     environments := Some ["dev"]; provider := None; vcs := None;
     version := Absent |}.

(** The options of the repository's test "returns error when no token". *)
Definition test_options : GenerateOptions :=
  {| config :=
       {| projectName := Some "test-app"; description := None;
          domain := Some "test.com"; owner := Some "test@example.com";
          modules := Some [ {| kind := Some "code"; type := Some "react";
                               moduleId := Some "frontend";
                               layers := Some ["frontend"]; fieldValues := None |} ];
          environments := Some ["dev"; "prod"]; provider := None; vcs := None;
          version := Absent |};
     apiUrl := None; output := Some "/tmp/test"; pushToGithub := false;
     repoName := None; private := false; verbose := false |}.

(** ** JSON texts and objects under construction *)

(** What may follow a number: no digit, and no fraction or exponent. *)
Definition number_ends (rest : list ascii) : Prop :=
  match rest with
  | [] => True
  | c :: _ => digit_of c = None /\ number_continues rest = false
  end.

(** Fuel that suffices to parse the text of a value. *)
Fixpoint fuel_of (v : value) : nat :=
  match v with
  | JArray items => S (list_sum (map (fun x => S (fuel_of x)) items))
  | JObject props => S (list_sum (map (fun kv => S (fuel_of (snd kv))) props))
  | _ => 1
  end.

Definition starts_number (c : ascii) : bool := is_digit c || Ascii.eqb c "-".

(** The round-trip property of one value, for any indentation, any
    sufficient fuel and any text that may follow a number. *)
Definition parses_back (v : value) : Prop :=
  forall indent fuel rest,
    (fuel_of v <= fuel)%nat -> number_ends rest ->
    parse_value fuel (print indent v ++ rest)%list = Some (v, rest).

(** The value of a property of an object under construction. *)
Fixpoint assoc (key : string) (obj : object) : option (option value) :=
  match obj with
  | [] => None
  | (k, v) :: obj' => if (k =? key)%string then Some v else assoc key obj'
  end.

(** The value the last property of that name in [props] holds. *)
Fixpoint assoc_last (key : string) (props : object) : option (option value) :=
  match props with
  | [] => None
  | (k, v) :: props' =>
      match assoc_last key props' with
      | Some v' => Some v'
      | None => if (k =? key)%string then Some v else None
      end
  end.

Definition keys (obj : object) : list string := map fst obj.

(** The configuration of the repository's test "saves and loads config
    correctly", written to an empty file system. *)
Definition saved_config : GrablinConfig :=
  {| projectName := Some "TestApp"; description := None; domain := Some "test.com";
     owner := Some "test@example.com"; modules := Some [];
     environments := Some ["dev"; "prod"]; provider := None; vcs := None;
     version := Absent |}.



(** ** Identity lookup: the attempts that are retried *)

(** An attempt the loop retries: a rejected [fetch], or a response that
    is neither [ok] nor 4xx. *)
Definition retried (o : FetchOutcome) : bool :=
  match o with
  | Responded r => negb (ok r) && negb (is_4xx r)
  | Rejected _ => true
  end.

(** The effects of the [n] retried attempts [a], ..., [a + n - 1]. *)
Fixpoint retried_trace (token : string) (a n : nat) : list Event :=
  match n with
  | O => []
  | S n' => (identity_request token :: map ESleep (wait_after a)
             ++ retried_trace token (S a) n')%list
  end.

(** The world after these attempts. *)
Fixpoint after_retried (token : string) (a n : nat) (w : World) : World :=
  match n with
  | O => w
  | S n' => after_retried token (S a) n' (after_retryable token a w)
  end.

(** An effect the lookup may perform: the identity request of the
    credential, or a wait. *)
Definition lookup_effect (token : string) (ev : Event) : Prop :=
  ev = identity_request token \/ exists ms, ev = ESleep ms.

(** An identity payload, and servers that answer 503 once and then 200,
    or 301 to every request. *)
Definition octocat : GitHubUser :=
  {| login := "octocat"; name := Some "The Octocat"; email := None; id := 583231 |}.

Definition flaky_server : nat -> FetchOutcome :=
  fun n =>
    match n with
    | O => Responded {| status := 503; json := Throw (SyntaxError "Unexpected end of JSON input") |}
    | _ => Responded {| status := 200; json := Return octocat |}
    end.

Definition redirecting_server : nat -> FetchOutcome :=
  fun _ => Responded {| status := 301; json := Throw (SyntaxError "Unexpected end of JSON input") |}.

(** ** Schema validator: the accepted shapes, in words *)

(** The characters of a project name after the first: a letter, a digit,
    a hyphen or an underscore. *)
Definition name_char (c : ascii) : bool :=
  letter c || digit c || Ascii.eqb c "-" || Ascii.eqb c "_".

(** The characters of a module id after the first: a lowercase letter, a
    digit or a hyphen. *)
Definition id_char (c : ascii) : bool :=
  lower c || digit c || Ascii.eqb c "-".

(** A string of 1 to 100 characters that starts with a character of
    [first] and goes on with characters of [rest]. *)
Definition shaped (first rest : ascii -> bool) (s : string) : Prop :=
  match s with
  | EmptyString => False
  | String c s' =>
      first c = true /\ forallb rest (chars s') = true /\ (String.length s <= 100)%nat
  end.

(** No two hyphens in a row, and no hyphen at the end. *)
Fixpoint hyphens_apart (s : list ascii) : bool :=
  match s with
  | [] => true
  | c :: s' =>
      match s' with
      | [] => negb (Ascii.eqb c "-")
      | c' :: _ => negb (Ascii.eqb c "-" && Ascii.eqb c' "-") && hyphens_apart s'
      end
  end.

Definition KINDS : list string := ["code"; "extension"; "provider"; "vcs"].

(** A module the validator has nothing to say about. *)
Definition module_accepted (m : ModuleConfig) : Prop :=
  (exists k, kind m = Some k /\ In k KINDS)
  /\ (exists t, type m = Some t /\ t <> "")
  /\ (exists id, moduleId m = Some id
        /\ shaped lower id_char id /\ hyphens_apart (chars id) = true).

(** The six things [validateModule] can say, after the position. *)
Definition MODULE_COMPLAINTS : list string :=
  [ ".kind is required (code, extension, provider, vcs)";
    ".kind must be one of: code, extension, provider, vcs";
    ".type is required";
    ".moduleId is required";
    ".moduleId must be lowercase, start with a letter, use hyphens only, and be 1-100 chars";
    ".moduleId cannot end with hyphen or contain consecutive hyphens" ].

(** [config] with other modules. *)
Definition with_modules (config : GrablinConfig) (ms : list ModuleConfig) : GrablinConfig :=
  {| projectName := projectName config; description := description config;
     domain := domain config; owner := owner config;
     modules := Some ms; environments := environments config;
     provider := provider config; vcs := vcs config; version := version config |}.

Definition sample_module (k id : string) : ModuleConfig :=
  {| kind := Some k; type := Some id; moduleId := Some id; layers := None;
     fieldValues := None |}.

Definition sample_project : GrablinConfig :=
  {| projectName := Some "TestApp"; description := None; domain := Some "test.com";
     owner := Some "dev@test.com";
     modules := Some [sample_module "code" "react"; sample_module "extension" "auth0"];
     environments := Some ["dev"]; provider := None; vcs := None; version := Absent |}.

(** A complaint about the module at [index]. *)
Definition at_position (index : nat) (complaint : string) : string :=
  ("modules[" ++ show_nat index ++ "]") ++ complaint.

(** The labels of a domain name: 1 to 63 characters each. *)
Definition label_sized (label : string) : Prop :=
  (1 <= String.length label <= 63)%nat.

Definition LABEL_TOO_LONG : string := "domain label too long (max 63 characters per label)".

(** A configuration the validator finds no error in. *)
Definition project_accepted (config : GrablinConfig) : Prop :=
  (exists s, projectName config = Some s /\ shaped letter name_char s)
  /\ (exists d, domain config = Some d /\ Regex.test DOMAIN_RE d = true
                /\ (String.length d <= 253)%nat)
  /\ (exists o, owner config = Some o /\ Regex.test EMAIL_RE o = true
                /\ (String.length o <= 254)%nat)
  /\ (exists ms, modules config = Some ms /\ Forall module_accepted ms).

(** What [validateConfig] can say about the configuration as a whole. *)
Definition CONFIG_COMPLAINTS : list string :=
  [ "projectName is required";
    "projectName must start with a letter, contain only letters, numbers, hyphens, and underscores, and be 1-100 chars";
    "domain is required";
    "domain must be a valid domain name (e.g., myapp.com, api.myapp.io)";
    "domain name too long (max 253 characters)";
    "owner email is required";
    "owner must be a valid email address";
    "email address too long (max 254 characters)";
    "modules array is required" ].

(** The three warnings. *)
Definition NO_MODULES : string := "No modules specified - project will be empty".
Definition NO_CODE_MODULES : string := "No code modules (frontend/backend) specified".
Definition NO_ENVIRONMENTS : string :=
  "No environments specified, using defaults (dev, staging, prod)".

(** The characters of the host part of an address: letters, digits,
    hyphens and dots. *)
Definition host_char (c : ascii) : bool :=
  letter c || digit c || Ascii.eqb c "-" || Ascii.eqb c ".".

(** ** Config store: the saved document *)

(** The document that [saveConfig] writes for [config]. *)
Definition saved_document (config : GrablinConfig) : value :=
  serializable (spread [("version", Some (JString "1.0"))] (own_properties config)).

(** A file of blanks: spaces, tabs, line feeds and carriage returns only. *)
Definition blank (content : string) : bool := forallb is_ws (chars content).

(** The answers of a setup that takes neither a cloud provider nor a
    version control host. *)
Definition local_only : Prompts.InfraAnswers :=
  {| Prompts.infra_provider := None; Prompts.infra_vcs := None;
     Prompts.infra_environments := ["dev"] |}.

(** ** Interactive setup: answers taken from the choices *)

(** The answer to a [list] question is the value of one of its choices. *)
Definition chosen_from (choices : list Choice) (answer : option string) : Prop :=
  In answer (map Prompts.value choices).

(** The answers to the [list] and [checkbox] questions come from the
    tables of choices. *)
Definition answers_from_choices (stackAnswers : StackAnswers) (infraAnswers : InfraAnswers)
  : Prop :=
  chosen_from FRONTEND_CHOICES (frontend stackAnswers)
  /\ chosen_from BACKEND_CHOICES (backend stackAnswers)
  /\ Forall (fun ext => chosen_from EXTENSION_CHOICES (Some ext)) (extensions stackAnswers)
  /\ chosen_from PROVIDER_CHOICES (infra_provider infraAnswers)
  /\ chosen_from VCS_CHOICES (infra_vcs infraAnswers).

(** The module ids of a configuration, in order. *)
Definition module_ids (config : GrablinConfig) : list (option string) :=
  map moduleId (default [] (modules config)).

(** No white space at either end. *)
Definition trimmed (s : string) : Prop := trimStart s = s /\ trimEnd s = s.

Definition my_app : BasicAnswers :=
  {| basic_projectName := "my-app"; basic_description := "";
     basic_domain := "myapp.com"; basic_owner := "dev@myapp.com" |}.

Definition full_stack : StackAnswers :=
  {| frontend := Some "react"; backend := Some "drf"; extensions := ["auth0"; "stripe"] |}.

Definition on_aws : InfraAnswers :=
  {| infra_provider := Some "aws"; infra_vcs := Some "github";
     infra_environments := ["dev"; "staging"; "prod"] |}.

(** The module of an extension ticked in the setup. *)
Definition extension_module (ext : string) : ModuleConfig :=
  {| kind := Some "extension"; type := Some ext; moduleId := Some ext;
     layers := None; fieldValues := no_fieldValues |}.

(** The ids of the modules that are not extensions. *)
Definition FIXED_IDS : list (option string) :=
  [Some "frontend"; Some "api"; Some "aws"; Some "digitalocean"; Some "github"].

(** ** The [whoami] command, run where nothing has happened yet *)

Definition run_whoami (env : ProcessEnv) (net : nat -> FetchOutcome) : Run :=
  whoamiCommand env {| network := net; trace := [] |}.

(** A script on which the loop of the lookup ends at attempt [k] with the
    2xx response [r]: the attempts before were all retried. *)
Definition settles_at (net : nat -> FetchOutcome) (k : nat) (r : Response) : Prop :=
  (k < maxRetries)%nat
  /\ (forall j, (j < k)%nat -> retried (net j) = true)
  /\ net k = Responded r /\ ok r = true.

(** A network that refuses every connection. *)
Definition unreachable_network : nat -> FetchOutcome :=
  fun _ => Rejected (TypeError "fetch failed").

(** ** The [list] command: kinds and groups *)

(** [module.kind || 'unknown'] *)
Definition kind_or_unknown (module : ModuleInfo) : string :=
  default "" (js_or (ListCommand.kind module) (Some "unknown")).

(** The modules of one kind, in the order given. *)
Definition of_kind (k : string) (modules : list ModuleInfo) : list ModuleInfo :=
  List.filter (fun module => (kind_or_unknown module =? k)%string) modules.

(** The non-empty groups of the kinds of [priority], in that order. *)
Definition grouped (modules : list ModuleInfo) : list (string * list ModuleInfo) :=
  omap (fun k => match of_kind k modules with
                 | [] => None
                 | items => Some (k, items)
                 end) priority.

(** A kind that names a member of [Object.prototype]. *)
Definition inherited_kind (module : ModuleInfo) : Prop :=
  In (kind_or_unknown module) OBJECT_PROTOTYPE.

Definition TITLES : list string :=
  ["Code Modules (Frontend/Backend)"; "Extensions"; "Cloud Providers"; "Version Control";
   "Other"].

Definition sample_info (i : string) (k : option string) : ModuleInfo :=
  {| ListCommand.id := i; ListCommand.type := i; ListCommand.name := i;
     ListCommand.description := ""; ListCommand.kind := k; ListCommand.layers := None |}.

(** A capital letter A-Z. *)
Definition is_capital (c : ascii) : bool :=
  (65 <=? nat_of_ascii c)%nat && (nat_of_ascii c <=? 90)%nat.

(** The type words of the [list] command. *)
Definition TYPE_WORDS : list string :=
  ["modules"; "code"; "extensions"; "extension"; "providers"; "provider"; "vcs"].

(** * Properties *)

(** ** Credential resolver *)

Lemma truthy_Some_ne (s : string) : s <> "" -> truthy (Some s) = true.
Proof.
  intros Hs. unfold truthy. destruct (String.eqb_spec s ""); [contradiction | reflexivity].
Qed.

Lemma truthy_true_inv (x : option string) :
  truthy x = true -> exists s, x = Some s /\ s <> "".
Proof.
  destruct x as [s|]; simpl; [|discriminate].
  destruct (String.eqb_spec s ""); [discriminate|]. eauto.
Qed.

Lemma truthy_false_inv (x : option string) :
  truthy x = false -> x = None \/ x = Some "".
Proof.
  destruct x as [s|]; simpl; [|auto].
  destruct (String.eqb_spec s ""); [subst; auto | discriminate].
Qed.

Lemma getToken_hasToken (env : ProcessEnv) :
  hasToken env = true ->
  exists t, js_or (env !! "GITHUB_TOKEN") (env !! "GH_TOKEN") = Some t /\
            t <> "" /\ getToken env = Return t.
Proof.
  unfold hasToken, getToken. intros H.
  destruct (truthy_true_inv _ H) as (t & Ht & Hne).
  exists t. rewrite Ht in *. rewrite H. auto.
Qed.

Lemma getToken_no_token (env : ProcessEnv) :
  hasToken env = false -> getToken env = Throw (AuthError AUTH_ERROR_MESSAGE).
Proof.
  unfold hasToken, getToken. intros H.
  destruct (js_or _ _) as [t|]; [rewrite H|]; reflexivity.
Qed.

Lemma hasToken_neither (env : ProcessEnv) :
  hasToken env = false <->
  truthy (env !! "GITHUB_TOKEN") = false /\ truthy (env !! "GH_TOKEN") = false.
Proof.
  unfold hasToken, js_or.
  destruct (truthy (env !! "GITHUB_TOKEN")) eqn:E1; [rewrite E1|]; intuition congruence.
Qed.

(** C8: [getToken] reads the primary variable [GITHUB_TOKEN] first and
    the secondary [GH_TOKEN] as fallback.  A non-empty primary value is
    returned whatever the secondary holds, so in every environment in which
    both variables are set to non-empty values the primary value is
    returned; when the primary is missing or empty, a non-empty secondary
    value is returned; and a returned token is always one of these two. *)
Theorem getToken_prefers_primary (env : ProcessEnv) :
  (forall a b, env !! "GITHUB_TOKEN" = Some a -> a <> "" ->
               env !! "GH_TOKEN" = Some b -> b <> "" ->
               getToken env = Return a)
  /\ (forall a, env !! "GITHUB_TOKEN" = Some a -> a <> "" -> getToken env = Return a)
  /\ (forall b, truthy (env !! "GITHUB_TOKEN") = false ->
                env !! "GH_TOKEN" = Some b -> b <> "" ->
                getToken env = Return b)
  /\ (forall t, getToken env = Return t ->
        (env !! "GITHUB_TOKEN" = Some t /\ t <> "")
        \/ (truthy (env !! "GITHUB_TOKEN") = false /\ env !! "GH_TOKEN" = Some t /\ t <> "")).
Proof.
  assert (Hprimary : forall a, env !! "GITHUB_TOKEN" = Some a -> a <> "" ->
                               getToken env = Return a).
  { intros a Ha Hane. unfold getToken, js_or.
    rewrite Ha, (truthy_Some_ne a Hane). simpl.
    destruct (String.eqb_spec a ""); [contradiction | reflexivity]. }
  split; [intros a b Ha Hane _ _; exact (Hprimary a Ha Hane)|].
  split; [exact Hprimary|]. split.
  - intros b Hfalsy Hb Hbne. unfold getToken, js_or.
    rewrite Hfalsy, Hb. cbv beta iota zeta. rewrite (truthy_Some_ne b Hbne). reflexivity.
  - intros t Ht. destruct (hasToken env) eqn:Htok.
    + destruct (getToken_hasToken env Htok) as (t' & Hor & Hne & Ht').
      assert (t' = t) as -> by congruence.
      unfold js_or in Hor. destruct (truthy (env !! "GITHUB_TOKEN")); auto.
    + rewrite (getToken_no_token env Htok) in Ht. discriminate.
Qed.

Lemma getToken_prefers_primary_witness :
  getToken (<["GITHUB_TOKEN" := "A"]> {["GH_TOKEN" := "B"]}) = Return "A"
  /\ getToken {["GH_TOKEN" := "B"]} = Return "B"
  /\ getToken (<["GITHUB_TOKEN" := ""]> {["GH_TOKEN" := "B"]}) = Return "B".
Proof.
  split; [|split].
  - apply (proj1 (getToken_prefers_primary (<["GITHUB_TOKEN" := "A"]> {["GH_TOKEN" := "B"]}))
             "A" "B");
      [reflexivity | discriminate | reflexivity | discriminate].
  - apply (proj1 (proj2 (proj2 (getToken_prefers_primary {["GH_TOKEN" := "B"]}))) "B");
      [reflexivity | reflexivity | discriminate].
  - apply (proj1 (proj2 (proj2 (getToken_prefers_primary
                                  (<["GITHUB_TOKEN" := ""]> {["GH_TOKEN" := "B"]})))) "B");
      [reflexivity | reflexivity | discriminate].
Defined.

(** C9: [getAuthHeaders] returns exactly the one-entry mapping
    [Authorization -> "Bearer " + token] when [getToken] returns [token];
    it throws exactly what [getToken] throws, which happens exactly when
    neither credential variable yields a token and is the [AuthError] whose
    message names both variables and the token-creation URL. *)
Theorem getAuthHeaders_spec (env : ProcessEnv) :
  (forall token, getToken env = Return token ->
     getAuthHeaders env = Return {[ "Authorization" := "Bearer " ++ token ]})
  /\ (forall e, getAuthHeaders env = Throw e <-> getToken env = Throw e)
  /\ ((exists e, getAuthHeaders env = Throw e) <->
       truthy (env !! "GITHUB_TOKEN") = false /\ truthy (env !! "GH_TOKEN") = false)
  /\ (forall e, getAuthHeaders env = Throw e -> e = AuthError AUTH_ERROR_MESSAGE)
  /\ includes AUTH_ERROR_MESSAGE "GITHUB_TOKEN" = true
  /\ includes AUTH_ERROR_MESSAGE "GH_TOKEN" = true
  /\ includes AUTH_ERROR_MESSAGE "https://github.com/settings/tokens" = true.
Proof.
  assert (Hprop : forall e, getAuthHeaders env = Throw e <-> getToken env = Throw e).
  { intros e. unfold getAuthHeaders. destruct (getToken env); split; congruence. }
  assert (Hcases : hasToken env = true \/ hasToken env = false)
    by (destruct (hasToken env); auto).
  split; [|split; [exact Hprop|split; [|split]]].
  - intros token H. unfold getAuthHeaders. rewrite H. reflexivity.
  - rewrite <- hasToken_neither. split.
    + intros [e He]. apply Hprop in He. destruct Hcases as [Ht|Hf]; [|exact Hf].
      destruct (getToken_hasToken env Ht) as (t & _ & _ & Hr). congruence.
    + intros Hf. eexists. apply Hprop. apply getToken_no_token, Hf.
  - intros e He. apply Hprop in He. destruct Hcases as [Ht|Hf].
    + destruct (getToken_hasToken env Ht) as (t & _ & _ & Hr). congruence.
    + rewrite (getToken_no_token env Hf) in He. congruence.
  - repeat split; vm_compute; reflexivity.
Qed.

Example getAuthHeaders_bearer :
  getAuthHeaders {[ "GITHUB_TOKEN" := "ghp_mytoken" ]}
  = Return {[ "Authorization" := "Bearer ghp_mytoken" ]}.
Proof. reflexivity. Qed.

Example getAuthHeaders_no_token :
  getAuthHeaders ∅ = Throw (AuthError AUTH_ERROR_MESSAGE).
Proof. reflexivity. Qed.

(** C10: an empty string counts as an absent credential.  With the primary
    variable empty and the secondary non-empty, [getToken] returns the
    secondary value and [hasToken] is true; with both variables empty or
    unset, [getToken] throws [AuthError] and [hasToken] is false. *)
Theorem empty_credentials_are_absent (env : ProcessEnv) :
  (forall b, env !! "GITHUB_TOKEN" = Some "" -> env !! "GH_TOKEN" = Some b ->
     b <> "" -> getToken env = Return b /\ hasToken env = true)
  /\ ((env !! "GITHUB_TOKEN" = None \/ env !! "GITHUB_TOKEN" = Some "") ->
      (env !! "GH_TOKEN" = None \/ env !! "GH_TOKEN" = Some "") ->
      getToken env = Throw (AuthError AUTH_ERROR_MESSAGE) /\ hasToken env = false).
Proof.
  split.
  - intros b Ha Hb Hne. unfold getToken, hasToken, js_or. rewrite Ha, Hb. simpl.
    destruct (String.eqb_spec b ""); [contradiction | auto].
  - intros Ha Hb.
    assert (Hf : hasToken env = false).
    { apply hasToken_neither. destruct Ha as [-> | ->], Hb as [-> | ->]; auto. }
    split; [apply getToken_no_token, Hf | exact Hf].
Qed.

Example empty_primary_falls_back :
  getToken (<["GITHUB_TOKEN" := ""]> {["GH_TOKEN" := "ghp_test456"]}) = Return "ghp_test456"
  /\ hasToken (<["GITHUB_TOKEN" := ""]> {["GH_TOKEN" := "ghp_test456"]}) = true.
Proof. split; reflexivity. Qed.

Example empty_both_is_absent :
  getToken (<["GITHUB_TOKEN" := ""]> {["GH_TOKEN" := ""]}) = Throw (AuthError AUTH_ERROR_MESSAGE)
  /\ hasToken (<["GITHUB_TOKEN" := ""]> {["GH_TOKEN" := ""]}) = false
  /\ hasToken ∅ = false.
Proof. repeat split; reflexivity. Qed.

(** ** Identity lookup *)




(** One iteration of the loop, by what the network yields. *)
Lemma attempt_once_eq (env : ProcessEnv) (token : string) (attempt : nat) (w : World) :
  getToken env = Return token ->
  attempt_once env attempt w =
    match network w (fetch_count (trace w)) with
    | Responded r =>
        if ok r then (Return (ReturnPromise (json r)), log (identity_request token) w)
        else if is_4xx r then (Return (ReturnValue None), log (identity_request token) w)
        else (Return Next, after_retryable token attempt w)
    | Rejected _ => (Return Next, after_retryable token attempt w)
    end.
Proof.
  intros Ht.
  unfold attempt_once, try_catch, mbind, Async_bind, bind, lift, getAuthHeaders,
    fetch, after_retryable, backoff, sleep, ret, is_4xx.
  rewrite Ht. fold (identity_request token).
  destruct (network w (fetch_count (trace w))) as [r|e].
  - destruct (ok r); [reflexivity|].
    destruct ((400 <=? status r)%Z && (status r <? 500)%Z); [reflexivity|].
    destruct (attempt <? maxRetries - 1)%nat; reflexivity.
  - destruct (attempt <? maxRetries - 1)%nat; reflexivity.
Qed.



Lemma fetch_count_app t1 t2 : fetch_count (t1 ++ t2)%list = (fetch_count t1 + fetch_count t2)%nat.
Proof. unfold fetch_count. rewrite List.filter_app, List.length_app. reflexivity. Qed.

Lemma sleeps_app t1 t2 : sleeps (t1 ++ t2)%list = (sleeps t1 ++ sleeps t2)%list.
Proof.
  induction t1 as [|[u h|ms] t1 IH]; simpl; [reflexivity | exact IH | now rewrite IH].
Qed.

Lemma after_retryable_network t a w : network (after_retryable t a w) = network w.
Proof. unfold after_retryable. destruct (a <? maxRetries - 1)%nat; reflexivity. Qed.

Lemma fetch_count_log ev w :
  fetch_count (trace (log ev w)) =
  (fetch_count (trace w) + if is_fetch ev then 1 else 0)%nat.
Proof. simpl. rewrite fetch_count_app. unfold fetch_count. simpl. destruct (is_fetch ev); reflexivity. Qed.


Lemma after_retryable_fetch_count t a w :
  fetch_count (trace (after_retryable t a w)) = S (fetch_count (trace w)).
Proof.
  unfold after_retryable. destruct (a <? maxRetries - 1)%nat;
    rewrite !fetch_count_log; simpl; lia.
Qed.




Lemma retry_loop_exhausted env fuel a w :
  (maxRetries <= a)%nat -> retry_loop env fuel a w = (Return None, w).
Proof.
  intros Ha. destruct fuel as [|fuel]; simpl; [reflexivity|].
  destruct (Nat.ltb_spec a maxRetries) as [Hlt|_]; [lia | reflexivity].
Qed.



Lemma waits_from_delays : forall k a,
  (a + k <= maxRetries - 1)%nat -> waits_from a k = map delay_of (seq a k).
Proof.
  induction k as [|k IH]; intros a Hk; [reflexivity|].
  simpl. rewrite IH by lia. unfold wait_after.
  destruct (Nat.ltb_spec a (maxRetries - 1)) as [_|Hge]; [reflexivity | lia].
Qed.

Lemma run_with_token env net :
  hasToken env = true ->
  run_getGitHubUser env net =
  (let '(r, w) := retry_loop env maxRetries 0 {| network := net; trace := [] |} in
   (r, trace w)).
Proof. intros H. unfold run_getGitHubUser, getGitHubUser. rewrite H. reflexivity. Qed.




(** Without a credential the lookup returns none and touches nothing. *)
Lemma getGitHubUser_no_credential (env : ProcessEnv) (net : nat -> FetchOutcome) :
  hasToken env = false -> run_getGitHubUser env net = (Return None, []).
Proof.
  intros H. unfold run_getGitHubUser, getGitHubUser. rewrite H. reflexivity.
Qed.

Example getGitHubUser_empty_credentials :
  run_getGitHubUser (<["GITHUB_TOKEN" := ""]> {["GH_TOKEN" := ""]}) undecodable_200
  = (Return None, []).
Proof. reflexivity. Qed.

(** When no 2xx body fails to decode, the lookup returns for every script
    of 4xx, 5xx and transport failures. *)
Lemma retry_loop_returns env t : forall fuel a w,
  getToken env = Return t ->
  (forall n r, network w n = Responded r -> ok r = true -> exists u, json r = Return u) ->
  exists v w', retry_loop env fuel a w = (Return v, w').
Proof.
  induction fuel as [|fuel IH]; intros a w Ht Hdec; [simpl; unfold ret; eauto|].
  simpl. destruct (a <? maxRetries)%nat; [|unfold ret; eauto].
  unfold mbind, Async_bind, bind. rewrite (attempt_once_eq env t a w Ht).
  destruct (network w (fetch_count (trace w))) as [r|e] eqn:Hn.
  - destruct (ok r) eqn:Hok.
    + destruct (Hdec _ r Hn Hok) as [u Hu]. rewrite Hu. unfold ret. eauto.
    + destruct (is_4xx r); [unfold ret; eauto|].
      apply IH; [exact Ht|]. rewrite after_retryable_network. exact Hdec.
  - apply IH; [exact Ht|]. rewrite after_retryable_network. exact Hdec.
Qed.

Lemma getGitHubUser_returns_when_bodies_decode env net :
  (forall n r, net n = Responded r -> ok r = true -> exists u, json r = Return u) ->
  exists v tr, run_getGitHubUser env net = (Return v, tr).
Proof.
  intros Hdec. destruct (hasToken env) eqn:Htok.
  - destruct (getToken_hasToken env Htok) as (t & _ & _ & Ht).
    rewrite (run_with_token env net Htok).
    destruct (retry_loop_returns env t maxRetries 0%nat
                {| network := net; trace := [] |} Ht Hdec) as (v & w' & Hrun).
    rewrite Hrun. eauto.
  - rewrite (getGitHubUser_no_credential env net Htok). eauto.
Qed.

(** C4: the lookup is documented never to raise, yet on a 2xx response it
    returns the promise of [response.json()] without awaiting it inside the
    [try]: when the body does not decode, the rejection reaches the
    caller. *)
Theorem getGitHubUser_rejects_on_undecodable_body :
  hasToken token_env = true
  /\ run_getGitHubUser token_env undecodable_200 =
     (Throw (SyntaxError "Unexpected token < in JSON at position 0"),
      [identity_request "ghp_test"]).
Proof. split; vm_compute; reflexivity. Qed.

(** ** The executable pattern test decides the language of the pattern *)

Section RegexCorrect.
Import Regex.

Lemma Matches_Void_inv s : Matches Void s -> False.
Proof. inversion 1. Qed.

Lemma Matches_Eps_inv s : Matches Eps s -> s = [].
Proof. inversion 1. reflexivity. Qed.

Lemma Matches_Seq_inv r1 r2 s :
  Matches (Seq r1 r2) s -> exists s1 s2, s = (s1 ++ s2)%list /\ Matches r1 s1 /\ Matches r2 s2.
Proof. inversion 1; subst. eauto. Qed.

Lemma Matches_Alt_inv r1 r2 s : Matches (Alt r1 r2) s -> Matches r1 s \/ Matches r2 s.
Proof. inversion 1; subst; auto. Qed.

Lemma Matches_seq_ r1 r2 s : Matches (seq_ r1 r2) s <-> Matches (Seq r1 r2) s.
Proof.
  split.
  - intros H. destruct r1, r2; simpl in H;
      try exact H; try (exfalso; exact (Matches_Void_inv _ H));
      apply (MSeq Eps _ [] s MEps H).
  - intros H. apply Matches_Seq_inv in H. destruct H as (s1 & s2 & -> & H1 & H2).
    destruct r1, r2; simpl;
      try (exfalso; eapply Matches_Void_inv; eassumption);
      try (apply Matches_Eps_inv in H1; subst s1; exact H2);
      constructor; assumption.
Qed.

Lemma Matches_alt_ r1 r2 s : Matches (alt_ r1 r2) s <-> Matches (Alt r1 r2) s.
Proof.
  split.
  - intros H. destruct r1, r2; simpl in H;
      try exact H; try (apply MAltL; exact H); try (apply MAltR; exact H).
  - intros H. apply Matches_Alt_inv in H.
    destruct H as [H|H]; destruct r1, r2; simpl;
      try (exfalso; eapply Matches_Void_inv; eassumption);
      try exact H; try (apply MAltL; exact H); try (apply MAltR; exact H).
Qed.

Lemma Repeat_nil r : Matches r [] -> forall hi lo, (lo <= hi)%nat -> Matches (Repeat r lo hi) [].
Proof.
  intros Hr. induction hi as [|hi IH]; intros lo Hle.
  - assert (lo = 0%nat) by lia. subst. constructor.
  - apply (MRepeatS r lo hi [] []); [exact Hr|]. apply IH. lia.
Qed.

Lemma nullable_Matches r : nullable r = true -> Matches r [].
Proof.
  induction r as [| |p|r1 IH1 r2 IH2|r1 IH1 r2 IH2|r IH|r IH lo hi]; simpl; intros H;
    try discriminate.
  - constructor.
  - apply andb_prop in H. destruct H as [H1 H2].
    apply (MSeq r1 r2 [] []); auto.
  - apply orb_prop in H. destruct H as [H|H]; [apply MAltL | apply MAltR]; auto.
  - constructor.
  - apply orb_prop in H. destruct H as [H|H].
    + apply Nat.eqb_eq in H. subst. constructor.
    + apply andb_prop in H. destruct H as [H1 H2]. apply Nat.leb_le in H2.
      apply Repeat_nil; auto.
Qed.

Lemma Matches_nil_nullable r s : Matches r s -> s = [] -> nullable r = true.
Proof.
  induction 1 as [ | p c Hp | r1 r2 s1 s2 H1 IH1 H2 IH2 | r1 r2 s H IH | r1 r2 s H IH
                 | r | r s1 s2 H1 IH1 H2 IH2 | r hi | r lo hi s1 s2 H1 IH1 H2 IH2 ];
    intros Hs; simpl; try reflexivity; try discriminate.
  - apply app_eq_nil in Hs. destruct Hs. rewrite IH1, IH2; auto.
  - rewrite IH; auto.
  - rewrite IH; auto. apply orb_true_r.
  - apply app_eq_nil in Hs. destruct Hs as [Hs1 Hs2].
    specialize (IH1 Hs1). specialize (IH2 Hs2). simpl in IH2. rewrite IH1.
    apply orb_prop in IH2. apply orb_true_iff.
    destruct IH2 as [E|E].
    + apply Nat.eqb_eq in E. destruct lo as [|lo]; [left; reflexivity|].
      right. apply Nat.leb_le. simpl in E. lia.
    + apply andb_prop in E. destruct E as [_ E]. apply Nat.leb_le in E.
      right. apply Nat.leb_le. lia.
Qed.

Lemma nullable_spec r : nullable r = true <-> Matches r [].
Proof. split; [apply nullable_Matches | intros H; apply (Matches_nil_nullable r [] H eq_refl)]. Qed.

Lemma deriv_sound c : forall r s, Matches (deriv c r) s -> Matches r (c :: s).
Proof.
  induction r as [| |p|r1 IH1 r2 IH2|r1 IH1 r2 IH2|r IH|r IH lo hi]; simpl; intros s H.
  - inversion H.
  - inversion H.
  - destruct (p c) eqn:Hp; [|inversion H].
    apply Matches_Eps_inv in H. subst. constructor. exact Hp.
  - apply Matches_alt_, Matches_Alt_inv in H. destruct H as [H|H].
    + apply Matches_seq_, Matches_Seq_inv in H. destruct H as (s1 & s2 & -> & H1 & H2).
      apply (MSeq r1 r2 (c :: s1) s2); auto.
    + destruct (nullable r1) eqn:Hn; [|inversion H].
      apply (MSeq r1 r2 [] (c :: s)); [apply nullable_Matches, Hn | auto].
  - apply Matches_alt_, Matches_Alt_inv in H.
    destruct H as [H|H]; [apply MAltL | apply MAltR]; auto.
  - apply Matches_seq_, Matches_Seq_inv in H. destruct H as (s1 & s2 & -> & H1 & H2).
    apply (MStarS r (c :: s1) s2); auto.
  - destruct hi as [|hi]; [inversion H|].
    apply Matches_seq_, Matches_Seq_inv in H. destruct H as (s1 & s2 & -> & H1 & H2).
    apply (MRepeatS r lo hi (c :: s1) s2); auto.
Qed.

Lemma deriv_complete r s' :
  Matches r s' -> forall c s, s' = c :: s -> Matches (deriv c r) s.
Proof.
  induction 1 as [ | p c' Hp | r1 r2 s1 s2 H1 IH1 H2 IH2 | r1 r2 s0 H IH | r1 r2 s0 H IH
                 | r | r s1 s2 H1 IH1 H2 IH2 | r hi | r lo hi s1 s2 H1 IH1 H2 IH2 ];
    intros c s Hs; simpl; try discriminate.
  - injection Hs as -> <-. rewrite Hp. constructor.
  - apply Matches_alt_. destruct s1 as [|c1 s1]; simpl in Hs.
    + apply MAltR. rewrite (Matches_nil_nullable r1 [] H1 eq_refl). auto.
    + injection Hs as -> <-. apply MAltL, Matches_seq_. constructor; auto.
  - apply Matches_alt_, MAltL. auto.
  - apply Matches_alt_, MAltR. auto.
  - destruct s1 as [|c1 s1]; simpl in Hs.
    + apply (IH2 c s Hs).
    + injection Hs as -> <-. apply Matches_seq_. constructor; auto.
  - destruct s1 as [|c1 s1]; simpl in Hs.
    + specialize (IH2 c s Hs). simpl in IH2.
      destruct hi as [|hi]; [inversion IH2|].
      apply Matches_seq_, Matches_Seq_inv in IH2.
      destruct IH2 as (t1 & t2 & -> & Ht1 & Ht2).
      apply Matches_seq_. constructor; [exact Ht1|].
      apply (MRepeatS r (Nat.pred lo) hi [] t2 H1 Ht2).
    + injection Hs as -> <-. apply Matches_seq_. constructor; auto.
Qed.

Lemma deriv_spec c r s : Matches (deriv c r) s <-> Matches r (c :: s).
Proof. split; [apply deriv_sound | intros H; apply (deriv_complete r (c :: s) H c s eq_refl)]. Qed.

Lemma matches_spec : forall s r, matches r s = true <-> Matches r s.
Proof.
  induction s as [|c s IH]; intros r; simpl.
  - apply nullable_spec.
  - rewrite IH. apply deriv_spec.
Qed.

End RegexCorrect.

(** ** Schema validator *)

Lemma includes_app_r (a b sub : string) :
  includes b sub = true -> includes (a ++ b) sub = true.
Proof.
  intros H. induction a as [|c a IH]; simpl; [exact H|].
  rewrite IH. apply orb_true_r.
Qed.

Lemma In_push (array : list string) (x : string) : In x (push array x).
Proof. unfold push. apply in_or_app. right. left. reflexivity. Qed.

Lemma push_app (array : list string) (x : string) : push array x = (array ++ [x])%list.
Proof. reflexivity. Qed.

(** Each step only appends to the errors it is given. *)
Lemma check_projectName_app config errors :
  check_projectName config errors = (errors ++ check_projectName config [])%list.
Proof.
  unfold check_projectName, push.
  repeat match goal with |- context [if ?b then _ else _] => destruct b end;
    rewrite ?app_nil_r; reflexivity.
Qed.

Lemma check_domain_app config errors :
  check_domain config errors = (errors ++ check_domain config [])%list.
Proof.
  unfold check_domain, push.
  repeat match goal with |- context [if ?b then _ else _] => destruct b end;
    rewrite ?app_nil_r; reflexivity.
Qed.

Lemma check_owner_app config errors :
  check_owner config errors = (errors ++ check_owner config [])%list.
Proof.
  unfold check_owner, push.
  repeat match goal with |- context [if ?b then _ else _] => destruct b end;
    rewrite ?app_nil_r; reflexivity.
Qed.

Lemma check_modules_errors_app config errors warnings :
  fst (check_modules config errors warnings) =
  (errors ++ fst (check_modules config [] warnings))%list.
Proof.
  unfold check_modules, push. destruct (modules config) as [ms|]; [|reflexivity].
  destruct (List.length ms =? 0)%nat; simpl; [now rewrite app_nil_r|].
  destruct (List.length _ =? 0)%nat; reflexivity.
Qed.

(** The errors of a configuration, step by step. *)
Lemma validateConfig_errors config :
  errors (validateConfig config) =
  (check_projectName config [] ++ check_domain config [] ++ check_owner config []
   ++ fst (check_modules config [] []))%list.
Proof.
  unfold validateConfig.
  destruct (check_modules config _ _) as [es ws] eqn:E. simpl.
  change es with (fst (es, ws)). rewrite <- E.
  rewrite check_modules_errors_app, check_owner_app, check_domain_app.
  rewrite <- !app_assoc. reflexivity.
Qed.

Lemma validateConfig_valid config :
  valid (validateConfig config) = true <-> errors (validateConfig config) = [].
Proof.
  unfold validateConfig. destruct (check_modules config _ _) as [es ws]. simpl.
  rewrite Nat.eqb_eq. destruct es; simpl; split; congruence.
Qed.

(** A domain contributes at most one error. *)
Lemma check_domain_at_most_one config :
  (List.length (check_domain config []) <= 1)%nat.
Proof.
  unfold check_domain, push.
  repeat match goal with |- context [if ?b then _ else _] => destruct b end;
    simpl; lia.
Qed.




(** C3 (as amended): for a configuration whose [modules] is the empty
    sequence, the warnings contain "No modules specified - project will be
    empty" and the modules contribute no error: the errors are those of
    [projectName], [domain] and [owner], and the result is valid exactly when
    these three fields raise none. *)
Theorem empty_modules_is_a_warning (config : GrablinConfig) :
  modules config = Some [] ->
  In "No modules specified - project will be empty" (warnings (validateConfig config))
  /\ includes "No modules specified - project will be empty" "empty" = true
  /\ errors (validateConfig config) =
       (check_projectName config [] ++ check_domain config [] ++ check_owner config [])%list
  /\ (valid (validateConfig config) = true <->
      check_projectName config [] = [] /\ check_domain config [] = []
      /\ check_owner config [] = []).
Proof.
  intros Hm.
  assert (He : errors (validateConfig config) =
    (check_projectName config [] ++ check_domain config [] ++ check_owner config [])%list).
  { rewrite validateConfig_errors. unfold check_modules. rewrite Hm. simpl.
    rewrite app_nil_r. reflexivity. }
  split; [|split; [reflexivity|split; [exact He|]]].
  - unfold validateConfig, check_modules. rewrite Hm. simpl.
    unfold check_environments. destruct (environments config); simpl; auto.
  - rewrite validateConfig_valid, He. split.
    + intros H. apply app_eq_nil in H. destruct H as [H1 H].
      apply app_eq_nil in H. tauto.
    + intros (-> & -> & ->). reflexivity.
Qed.

Lemma empty_modules_is_a_warning_witness :
  In "No modules specified - project will be empty"
     (warnings (validateConfig (with_domain "test.com")))
  /\ valid (validateConfig (with_domain "test.com")) = true.
Proof.
  destruct (empty_modules_is_a_warning (with_domain "test.com") eq_refl)
    as (Hw & _ & _ & Hv).
  split; [exact Hw|]. apply Hv. repeat split; vm_compute; reflexivity.
Defined.

(** C3 (as stated) fails: with [modules] empty and no project name the
    result is not valid, although the "empty" warning is there. *)
Lemma empty_modules_can_be_invalid :
  modules unnamed_project = Some []
  /\ valid (validateConfig unnamed_project) = false
  /\ errors (validateConfig unnamed_project) = ["projectName is required"]
  /\ warnings (validateConfig unnamed_project) =
       ["No modules specified - project will be empty"].
Proof. repeat split; vm_compute; reflexivity. Qed.

Lemma includes_empty_hyphens : includes "" "--" = false /\ endsWith "" "-" = false.
Proof. split; reflexivity. Qed.

(** C6: a module whose [moduleId] ends in a hyphen or contains a doubled
    hyphen gets at least one error that mentions [moduleId], whatever its
    index and its other fields. *)
Theorem moduleId_hyphen_rule (module : ModuleConfig) (index : nat) (id : string) :
  moduleId module = Some id ->
  endsWith id "-" = true \/ includes id "--" = true ->
  exists e, In e (validateModule module index) /\ includes e "moduleId" = true.
Proof.
  intros Hid Hhyphen.
  assert (Hne : id <> "").
  { intros ->. destruct Hhyphen as [H|H]; vm_compute in H; discriminate. }
  unfold validateModule. rewrite Hid. simpl the. rewrite (truthy_Some_ne id Hne). simpl negb.
  set (prefix := "modules[" ++ show_nat index ++ "]").
  destruct (Regex.test MODULE_ID_RE id) eqn:Hre; simpl negb; cbv iota.
  - assert (Hor : endsWith id "-" || includes id "--" = true)
      by (apply orb_true_iff; exact Hhyphen).
    rewrite Hor.
    eexists. split; [apply In_push|]. apply includes_app_r. reflexivity.
  - eexists. split; [apply In_push|]. apply includes_app_r. reflexivity.
Qed.

Lemma moduleId_hyphen_rule_witness :
  exists e,
    In e (validateModule {| kind := Some "code"; type := Some "react";
                            moduleId := Some "front--end"; layers := None;
                            fieldValues := None |} 0)
    /\ includes e "moduleId" = true.
Proof.
  apply (moduleId_hyphen_rule _ 0 "front--end"); [reflexivity | right; reflexivity].
Defined.

Example trailing_hyphen_reported :
  validateModule {| kind := Some "code"; type := Some "react"; moduleId := Some "api-";
                    layers := None; fieldValues := None |} 2
  = ["modules[2].moduleId cannot end with hyphen or contain consecutive hyphens"].
Proof. vm_compute. reflexivity. Qed.

(** ** Generation orchestrator *)

(** C7: without a credential [generate] fails with the message of the
    credential resolver's [AuthError], which contains "GitHub token
    required", and sends no request. *)
Theorem generate_requires_token (env : ProcessEnv) (options : GenerateOptions)
    (post : Request -> PostOutcome) :
  hasToken env = false ->
  generate env options post = (Failure AUTH_ERROR_MESSAGE, [])
  /\ getToken env = Throw (AuthError AUTH_ERROR_MESSAGE)
  /\ includes AUTH_ERROR_MESSAGE "GitHub token required" = true.
Proof.
  intros H. pose proof (getToken_no_token env H) as Ht.
  split; [|split; [exact Ht | vm_compute; reflexivity]].
  unfold generate, getAuthHeaders. rewrite Ht. reflexivity.
Qed.

Lemma generate_requires_token_witness :
  generate ∅ test_options (fun _ => Replied (Archive 0)) = (Failure AUTH_ERROR_MESSAGE, [])
  /\ getToken ∅ = Throw (AuthError AUTH_ERROR_MESSAGE)
  /\ includes AUTH_ERROR_MESSAGE "GitHub token required" = true.
Proof.
  apply (generate_requires_token ∅ test_options). reflexivity.
Defined.

Example generate_requires_output :
  generate token_env
    {| config := config test_options; apiUrl := None; output := None;
       pushToGithub := false; repoName := None; private := false; verbose := false |}
    (fun _ => Replied (Archive 0))
  = (Failure "No output option specified", []).
Proof. vm_compute. reflexivity. Qed.

(** ** [JSON.parse] inverts [JSON.stringify] *)

Section JsonRoundTrip.
Local Open Scope list_scope.

Lemma skip_ws_spaces n s : skip_ws (spaces n ++ s) = skip_ws s.
Proof. induction n as [|n IH]; simpl; [reflexivity | exact IH]. Qed.

Lemma skip_ws_newline_spaces n s : skip_ws (NEWLINE :: spaces n ++ s) = skip_ws s.
Proof. simpl. apply skip_ws_spaces. Qed.

Lemma skip_ws_idem s : skip_ws (skip_ws s) = skip_ws s.
Proof.
  induction s as [|c s IH]; simpl; [reflexivity|].
  destruct (is_ws c) eqn:E; [exact IH | simpl; rewrite E; reflexivity].
Qed.

Lemma parse_value_skip_ws fuel s1 s2 :
  skip_ws s1 = skip_ws s2 -> parse_value fuel s1 = parse_value fuel s2.
Proof. intros H. destruct fuel; simpl; [reflexivity | rewrite H; reflexivity]. Qed.

Lemma parse_chars_escape_char c tl :
  parse_chars (escape_char c ++ tl) =
  '(str, rest) ← parse_chars tl; Some (String c str, rest).
Proof.
  destruct c as [[] [] [] [] [] [] [] []]; reflexivity.
Qed.

Lemma parse_chars_escape s rest :
  parse_chars (escape s ++ DQUOTE :: rest) = Some (s, rest).
Proof.
  induction s as [|c s IH]; [reflexivity|].
  simpl escape. rewrite <- app_assoc, parse_chars_escape_char, IH. reflexivity.
Qed.

Lemma parse_chars_quote s rest :
  parse_chars (escape s ++ [DQUOTE] ++ rest) = Some (s, rest).
Proof. apply parse_chars_escape. Qed.

Lemma parse_uint_print d : forall rest,
  number_ends rest -> parse_uint (print_uint d ++ rest) = (d, rest).
Proof.
  induction d as [|d IH|d IH|d IH|d IH|d IH|d IH|d IH|d IH|d IH|d IH]; intros rest Hrest;
    try (simpl; rewrite (IH rest Hrest); reflexivity).
  simpl. destruct rest as [|c rest]; [reflexivity|].
  destruct Hrest as [Hd _]. simpl. rewrite Hd. reflexivity.
Qed.

(** The digits of an integer: at least one, and no leading zero. *)
Lemma to_int_digits z :
  exists d, (Z.to_int z = Decimal.Pos d \/ Z.to_int z = Decimal.Neg d)
            /\ d <> Decimal.Nil /\ leading_zero d = false.
Proof.
  assert (Hnorm : Decimal.norm (Z.to_int z) = Z.to_int z)
    by (rewrite <- (DecimalZ.to_of (Z.to_int z)), DecimalZ.of_to; reflexivity).
  assert (Hhead : forall d, Decimal.nzhead d = d -> d <> Decimal.Nil ->
                            leading_zero d = false).
  { intros d Hd Hnil. destruct d; try reflexivity.
    exfalso. exact (DecimalFacts.nzhead_nonzero _ _ Hd). }
  destruct (Z.to_int z) as [d|d]; simpl in Hnorm; exists d.
  - split; [auto|]. injection Hnorm as Hu. unfold Decimal.unorm in Hu.
    destruct (Decimal.nzhead d) eqn:Hnz;
      try (rewrite Hu in Hnz; split;
             [rewrite <- Hu; discriminate | apply Hhead; [exact Hnz | rewrite <- Hu; discriminate]]).
    subst d. split; [discriminate | reflexivity].
  - split; [auto|].
    destruct (Decimal.nzhead d) eqn:Hnz; try discriminate;
      injection Hnorm as Hu; rewrite Hu in Hnz;
      (split; [rewrite <- Hu; discriminate | apply Hhead; [exact Hnz | rewrite <- Hu; discriminate]]).
Qed.

Lemma print_uint_head d :
  d <> Decimal.Nil ->
  exists c tl, print_uint d = c :: tl /\ is_digit c = true.
Proof. destruct d; intros H; try contradiction; simpl; eauto. Qed.

Lemma parse_number_print z rest :
  number_ends rest -> parse_number (print_Z z ++ rest) = Some (z, rest).
Proof.
  intros Hrest. destruct (to_int_digits z) as (d & Hz & Hnil & Hlz).
  assert (Hcont : number_continues rest = false)
    by (destruct rest; [reflexivity | apply Hrest]).
  unfold print_Z, parse_number. destruct Hz as [Hz|Hz]; rewrite Hz.
  - destruct (print_uint_head d Hnil) as (c & tl & Hp & Hc).
    rewrite Hp. simpl app.
    assert (Hminus : Ascii.eqb c "-" = false).
    { destruct c as [[] [] [] [] [] [] [] []]; try reflexivity; discriminate. }
    cbv beta iota. rewrite Hminus. change (c :: tl ++ rest) with ((c :: tl) ++ rest). rewrite <- Hp.
    rewrite (parse_uint_print d rest Hrest), Hlz, Hcont. cbv beta iota. simpl orb.
    destruct d; try contradiction; cbv iota; rewrite <- Hz, DecimalZ.of_to; reflexivity.
  - change (("-"%char :: print_uint d) ++ rest) with ("-"%char :: (print_uint d ++ rest)).
    cbv beta iota. change (Ascii.eqb "-" "-") with true. cbv beta iota.
    rewrite (parse_uint_print d rest Hrest), Hlz, Hcont. cbv beta iota. simpl orb.
    destruct d; try contradiction; cbv iota; rewrite <- Hz, DecimalZ.of_to; reflexivity.
Qed.

(** Induction on a value whose hypotheses cover the elements of an array
    and the members of an object. *)
Lemma value_ind_nested (P : value -> Prop) :
  P JNull ->
  (forall b, P (JBool b)) ->
  (forall n, P (JNumber n)) ->
  (forall s, P (JString s)) ->
  (forall items, Forall P items -> P (JArray items)) ->
  (forall props, Forall (fun kv => P (snd kv)) props -> P (JObject props)) ->
  forall v, P v.
Proof.
  intros Hnull Hbool Hnumber Hstring Harray Hobject.
  fix IH 1. intros [|b|n|s|items|props].
  - exact Hnull.
  - apply Hbool.
  - apply Hnumber.
  - apply Hstring.
  - apply Harray. induction items as [|x items IHitems]; constructor.
    + apply IH.
    + exact IHitems.
  - apply Hobject. induction props as [|[k x] props IHprops]; constructor.
    + apply IH.
    + exact IHprops.
Qed.

(** How [parse_value] dispatches on the first character. *)
Lemma dispatch_string fuel tl :
  parse_value (S fuel) (DQUOTE :: tl) =
  '(str, rest1) ← parse_chars tl; Some (JString str, rest1).
Proof. reflexivity. Qed.

Lemma dispatch_array fuel tl c1 rest1 :
  skip_ws tl = c1 :: rest1 -> Ascii.eqb c1 "]" = false ->
  parse_value (S fuel) ("["%char :: tl) =
  '(items, rest2) ← parse_elements fuel tl; Some (JArray items, rest2).
Proof. intros H1 H2. simpl. rewrite H1, H2. reflexivity. Qed.

Lemma dispatch_object fuel tl c1 rest1 :
  skip_ws tl = c1 :: rest1 -> Ascii.eqb c1 "}" = false ->
  parse_value (S fuel) ("{"%char :: tl) =
  '(props, rest2) ← parse_members fuel tl; Some (JObject props, rest2).
Proof. intros H1 H2. simpl. rewrite H1, H2. reflexivity. Qed.

Lemma dispatch_number fuel c tl :
  starts_number c = true ->
  parse_value (S fuel) (c :: tl) =
  '(n, rest1) ← parse_number (c :: tl); Some (JNumber n, rest1).
Proof.
  destruct c as [[] [] [] [] [] [] [] []]; intros H; try discriminate H; reflexivity.
Qed.

Lemma starts_number_head c :
  starts_number c = true ->
  is_ws c = false /\ Ascii.eqb c "]" = false /\ Ascii.eqb c "}" = false.
Proof.
  destruct c as [[] [] [] [] [] [] [] []]; intros H; try discriminate H; repeat split.
Qed.

Lemma print_Z_head z : exists c tl, print_Z z = c :: tl /\ starts_number c = true.
Proof.
  destruct (to_int_digits z) as (d & Hz & Hnil & _). unfold print_Z.
  destruct Hz as [Hz|Hz]; rewrite Hz.
  - destruct (print_uint_head d Hnil) as (c & tl & Hp & Hc).
    exists c, tl. split; [exact Hp|]. unfold starts_number. rewrite Hc. reflexivity.
  - eexists _, _. split; reflexivity.
Qed.

(** The text of a value starts with a character that is neither white
    space nor a closing bracket. *)
Lemma print_head indent v :
  exists c tl, print indent v = c :: tl
    /\ is_ws c = false /\ Ascii.eqb c "]" = false /\ Ascii.eqb c "}" = false.
Proof.
  destruct v as [|[]|n|s|items|props]; simpl;
    try (eexists _, _; repeat split; fail).
  - destruct (print_Z_head n) as (c & tl & Hp & Hc).
    exists c, tl. split; [exact Hp|]. apply starts_number_head, Hc.
  - unfold brackets. destruct (map _ items); eexists _, _; repeat split.
  - unfold brackets. destruct (map _ props); eexists _, _; repeat split.
Qed.

Lemma skip_ws_head c tl : is_ws c = false -> skip_ws (c :: tl) = c :: tl.
Proof. intros H. simpl. rewrite H. reflexivity. Qed.

Lemma skip_ws_print indent v rest :
  skip_ws (print indent v ++ rest) = print indent v ++ rest.
Proof.
  destruct (print_head indent v) as (c & tl & Hp & Hws & _).
  rewrite Hp. apply skip_ws_head, Hws.
Qed.

Lemma number_ends_comma tl : number_ends (","%char :: tl).
Proof. split; reflexivity. Qed.

Lemma number_ends_newline tl : number_ends (NEWLINE :: tl).
Proof. split; reflexivity. Qed.

Lemma parse_value_indented v indent fuel n rest :
  parses_back v -> (fuel_of v <= fuel)%nat -> number_ends rest ->
  parse_value fuel (NEWLINE :: spaces n ++ print indent v ++ rest) = Some (v, rest).
Proof.
  intros Hv Hfuel Hrest. rewrite <- (Hv indent fuel rest Hfuel Hrest).
  apply parse_value_skip_ws. apply skip_ws_newline_spaces.
Qed.

(** The lines of the elements of an array, up to its closing bracket. *)
Lemma parse_elements_print items :
  Forall parses_back items -> items <> [] ->
  forall indent k fuel rest,
    (list_sum (map (fun x => S (fuel_of x)) items) <= fuel)%nat ->
    parse_elements fuel
      (join_comma (map (fun p => NEWLINE :: spaces indent ++ p) (map (print indent) items))
       ++ NEWLINE :: spaces k ++ "]"%char :: rest)
    = Some (items, rest).
Proof.
  induction 1 as [|x xs Hx Hxs IH]; intros Hne indent k fuel rest Hfuel; [contradiction|].
  simpl in Hfuel. destruct fuel as [|fuel]; [lia|].
  assert (Hstep : forall tail, number_ends tail ->
    parse_elements (S fuel) (NEWLINE :: spaces indent ++ print indent x ++ tail) =
    match skip_ws tail with
    | [] => None
    | c :: rest1 =>
        if Ascii.eqb c "," then
          '(vs, rest2) ← parse_elements fuel rest1; Some (x :: vs, rest2)
        else if Ascii.eqb c "]" then Some ([x], rest1)
        else None
    end).
  { intros tail Htail. simpl parse_elements.
    rewrite (parse_value_indented x indent fuel indent tail Hx) by (try exact Htail; lia).
    reflexivity. }
  destruct xs as [|y ys].
  - replace (join_comma (map (fun p => NEWLINE :: spaces indent ++ p) (map (print indent) [x]))
             ++ NEWLINE :: spaces k ++ "]"%char :: rest)
      with (NEWLINE :: spaces indent ++ print indent x
            ++ NEWLINE :: spaces k ++ "]"%char :: rest)
      by (simpl; rewrite <- app_assoc; reflexivity).
    rewrite Hstep by apply number_ends_newline.
    rewrite skip_ws_newline_spaces. reflexivity.
  - replace (join_comma (map (fun p => NEWLINE :: spaces indent ++ p)
                           (map (print indent) (x :: y :: ys)))
             ++ NEWLINE :: spaces k ++ "]"%char :: rest)
      with (NEWLINE :: spaces indent ++ print indent x
            ++ ","%char :: (join_comma (map (fun p => NEWLINE :: spaces indent ++ p)
                                       (map (print indent) (y :: ys)))
                            ++ NEWLINE :: spaces k ++ "]"%char :: rest))
      by (simpl; rewrite <- !app_assoc; reflexivity).
    rewrite Hstep by apply number_ends_comma.
    rewrite (skip_ws_head ","%char) by reflexivity.
    change (Ascii.eqb "," ",") with true. cbv iota.
    rewrite IH; [reflexivity | discriminate | simpl in *; lia].
Qed.

(** The lines of the members of an object, up to its closing bracket. *)
Lemma parse_members_print props :
  Forall (fun kv => parses_back (snd kv)) props -> props <> [] ->
  forall indent k fuel rest,
    (list_sum (map (fun kv => S (fuel_of (snd kv))) props) <= fuel)%nat ->
    parse_members fuel
      (join_comma (map (fun p => NEWLINE :: spaces indent ++ p)
                     (map (fun kv => quote (fst kv) ++ chars ": " ++ print indent (snd kv))
                          props))
       ++ NEWLINE :: spaces k ++ "}"%char :: rest)
    = Some (props, rest).
Proof.
  induction 1 as [|[key v] xs Hx Hxs IH]; intros Hne indent k fuel rest Hfuel; [contradiction|].
  simpl in Hfuel, Hx. destruct fuel as [|fuel]; [lia|].
  assert (Hstep : forall tail, number_ends tail ->
    parse_members (S fuel)
      (NEWLINE :: spaces indent
       ++ DQUOTE :: escape key ++ DQUOTE :: ":"%char :: SPACE :: print indent v ++ tail) =
    match skip_ws tail with
    | [] => None
    | c :: rest4 =>
        if Ascii.eqb c "," then
          '(ms, rest5) ← parse_members fuel rest4; Some ((key, v) :: ms, rest5)
        else if Ascii.eqb c "}" then Some ([(key, v)], rest4)
        else None
    end).
  { intros tail Htail.
    change (parse_members (S fuel) ?s) with
      (match skip_ws s with
       | [] => None
       | q :: rest0 =>
           if Ascii.eqb q DQUOTE then
             '(key0, rest1) ← parse_chars rest0;
             match skip_ws rest1 with
             | [] => None
             | colon :: rest2 =>
                 if Ascii.eqb colon ":" then
                   '(v0, rest3) ← parse_value fuel rest2;
                   match skip_ws rest3 with
                   | [] => None
                   | c :: rest4 =>
                       if Ascii.eqb c "," then
                         '(ms, rest5) ← parse_members fuel rest4;
                         Some ((key0, v0) :: ms, rest5)
                       else if Ascii.eqb c "}" then Some ([(key0, v0)], rest4)
                       else None
                   end
                 else None
             end
           else None
       end).
    rewrite skip_ws_newline_spaces. rewrite (skip_ws_head DQUOTE) by reflexivity.
    change (Ascii.eqb DQUOTE DQUOTE) with true. cbv iota.
    rewrite parse_chars_escape. simpl mbind. cbv beta iota.
    rewrite (parse_value_skip_ws fuel (SPACE :: print indent v ++ tail) (print indent v ++ tail))
      by reflexivity.
    rewrite (Hx indent fuel tail) by (try exact Htail; lia). reflexivity. }
  destruct xs as [|y ys].
  - replace (join_comma _ ++ NEWLINE :: spaces k ++ "}"%char :: rest)
      with (NEWLINE :: spaces indent
            ++ DQUOTE :: escape key ++ DQUOTE :: ":"%char :: SPACE :: print indent v
            ++ NEWLINE :: spaces k ++ "}"%char :: rest)
      by (simpl; unfold quote; simpl; rewrite <- !app_assoc; simpl; rewrite <- !app_assoc; reflexivity).
    rewrite Hstep by apply number_ends_newline.
    rewrite skip_ws_newline_spaces. reflexivity.
  - replace (join_comma _ ++ NEWLINE :: spaces k ++ "}"%char :: rest)
      with (NEWLINE :: spaces indent
            ++ DQUOTE :: escape key ++ DQUOTE :: ":"%char :: SPACE :: print indent v
            ++ ","%char ::
               (join_comma (map (fun p => NEWLINE :: spaces indent ++ p)
                  (map (fun kv => quote (fst kv) ++ chars ": " ++ print indent (snd kv))
                       (y :: ys)))
                ++ NEWLINE :: spaces k ++ "}"%char :: rest))
      by (simpl; unfold quote; simpl; rewrite <- !app_assoc; simpl; rewrite <- !app_assoc; reflexivity).
    rewrite Hstep by apply number_ends_comma.
    rewrite (skip_ws_head ","%char) by reflexivity.
    change (Ascii.eqb "," ",") with true. cbv iota.
    rewrite IH; [reflexivity | discriminate | simpl in *; lia].
Qed.

Lemma join_comma_cons p ps tail :
  exists mid, join_comma (p :: ps) ++ tail = p ++ mid.
Proof.
  destruct ps as [|q qs]; simpl.
  - exists tail. reflexivity.
  - eexists. rewrite <- app_assoc. reflexivity.
Qed.

Lemma brackets_app o c indent parts rest :
  parts <> [] ->
  brackets o c indent parts ++ rest =
  o :: join_comma (map (fun p => NEWLINE :: spaces (indent + 2) ++ p) parts)
       ++ NEWLINE :: spaces indent ++ c :: rest.
Proof.
  intros Hne. destruct parts as [|p ps]; [contradiction|].
  unfold brackets. rewrite <- app_comm_cons, <- app_assoc.
  rewrite <- app_comm_cons, <- app_assoc. reflexivity.
Qed.

(** Parsing the text of a value gives the value back. *)
Theorem parse_value_print v : parses_back v.
Proof.
  induction v as [|b|n|s|items IH|props IH] using value_ind_nested;
    intros indent fuel rest Hfuel Hrest;
    (destruct fuel as [|fuel]; [simpl in Hfuel; lia|]).
  - reflexivity.
  - destruct b; reflexivity.
  - simpl print. destruct (print_Z_head n) as (c & tl & Hp & Hc).
    rewrite Hp. simpl app. rewrite (dispatch_number fuel c _ Hc).
    change (c :: tl ++ rest) with ((c :: tl) ++ rest). rewrite <- Hp.
    rewrite (parse_number_print n rest Hrest). reflexivity.
  - simpl print. unfold quote. rewrite <- app_comm_cons, dispatch_string.
    rewrite <- app_assoc. rewrite parse_chars_quote. reflexivity.
  - simpl print. simpl fuel_of in Hfuel. destruct items as [|x xs]; [reflexivity|].
    rewrite brackets_app by discriminate.
    set (closing := NEWLINE :: spaces indent ++ "]"%char :: rest).
    destruct (print_head (indent + 2) x) as (c & tl & Hp & Hws & Hclose & _).
    assert (Hskip : exists rest1,
      skip_ws (join_comma (map (fun p => NEWLINE :: spaces (indent + 2) ++ p)
                             (map (print (indent + 2)) (x :: xs))) ++ closing)
      = c :: rest1).
    { simpl map. destruct (join_comma_cons
        (NEWLINE :: spaces (indent + 2) ++ print (indent + 2) x)
        (map (fun p => NEWLINE :: spaces (indent + 2) ++ p) (map (print (indent + 2)) xs))
        closing) as [mid ->].
      rewrite <- app_comm_cons, <- app_assoc, skip_ws_newline_spaces, skip_ws_print, Hp.
      eexists. reflexivity. }
    destruct Hskip as [rest1 Hskip].
    rewrite (dispatch_array fuel _ c rest1 Hskip Hclose).
    unfold closing.
    rewrite parse_elements_print; [reflexivity | exact IH | discriminate | lia].
  - simpl fuel_of in Hfuel. destruct props as [|[key x] xs]; [reflexivity|].
    change (print indent (JObject ((key, x) :: xs)))
      with (brackets "{" "}" indent
              (map (fun kv => quote (fst kv) ++ chars ": " ++ print (indent + 2) (snd kv))
                   ((key, x) :: xs))).
    rewrite brackets_app by discriminate.
    set (closing := NEWLINE :: spaces indent ++ "}"%char :: rest).
    assert (Hskip : exists rest1,
      skip_ws (join_comma
                 (map (fun p => NEWLINE :: spaces (indent + 2) ++ p)
                    (map (fun kv => quote (fst kv) ++ chars ": " ++ print (indent + 2) (snd kv))
                         ((key, x) :: xs))) ++ closing)
      = DQUOTE :: rest1).
    { rewrite !map_cons. simpl fst. simpl snd. destruct (join_comma_cons
        (NEWLINE :: spaces (indent + 2) ++ quote key ++ chars ": " ++ print (indent + 2) x)
        (map (fun p => NEWLINE :: spaces (indent + 2) ++ p)
           (map (fun kv => quote (fst kv) ++ chars ": " ++ print (indent + 2) (snd kv)) xs))
        closing) as [mid ->].
      rewrite <- app_comm_cons, <- app_assoc, skip_ws_newline_spaces.
      unfold quote. rewrite <- !app_comm_cons.
      rewrite (skip_ws_head DQUOTE) by reflexivity. eexists. reflexivity. }
    destruct Hskip as [rest1 Hskip].
    rewrite (dispatch_object fuel _ DQUOTE rest1 Hskip eq_refl).
    unfold closing.
    rewrite parse_members_print; [reflexivity | exact IH | discriminate | lia].
Qed.

(** The text of a value is at least as long as the fuel its parse needs. *)
Lemma length_join_comma parts :
  (list_sum (map (@length ascii) parts) <= length (join_comma parts))%nat.
Proof.
  induction parts as [|p [|q qs] IH]; simpl in *; rewrite ?length_app; simpl; lia.
Qed.

Lemma length_brackets o c indent parts :
  (list_sum (map (fun p => S (length p)) parts) < length (brackets o c indent parts))%nat.
Proof.
  destruct parts as [|p ps]; [simpl; lia|].
  change (brackets o c indent (p :: ps))
    with (o :: join_comma (map (fun p => NEWLINE :: spaces (indent + 2) ++ p) (p :: ps))
            ++ NEWLINE :: spaces indent ++ [c]).
  generalize (p :: ps). intros qs.
  change (length (o :: ?l)) with (S (length l)). rewrite length_app.
  pose proof (length_join_comma (map (fun p => NEWLINE :: spaces (indent + 2) ++ p) qs)) as H.
  assert (Hle : (list_sum (map (fun p => S (length p)) qs)
                 <= list_sum (map (@length ascii)
                                (map (fun p => NEWLINE :: spaces (indent + 2) ++ p) qs)))%nat).
  { clear H. induction qs as [|q qs IH]; simpl; [lia|]. rewrite length_app. lia. }
  lia.
Qed.

Lemma fuel_of_le_length v : forall indent, (fuel_of v <= length (print indent v))%nat.
Proof.
  induction v as [|b|n|s|items IH|props IH] using value_ind_nested; intros indent.
  - simpl. lia.
  - destruct b; simpl; lia.
  - simpl. destruct (print_Z_head n) as (c & tl & -> & _). simpl. lia.
  - simpl. lia.
  - simpl print. simpl fuel_of.
    pose proof (length_brackets "[" "]" indent (map (print (indent + 2)) items)) as H.
    assert (Hle : (list_sum (map (fun x => S (fuel_of x)) items)
                   <= list_sum (map (fun p => S (length p)) (map (print (indent + 2)) items)))%nat).
    { clear H. induction IH as [|x xs Hx _ IHxs]; simpl; [lia|].
      specialize (Hx (indent + 2)%nat). lia. }
    lia.
  - change (print indent (JObject props))
      with (brackets "{" "}" indent
              (map (fun kv => quote (fst kv) ++ chars ": " ++ print (indent + 2) (snd kv))
                   props)).
    simpl fuel_of.
    pose proof (length_brackets "{" "}" indent
      (map (fun kv => quote (fst kv) ++ chars ": " ++ print (indent + 2) (snd kv)) props)) as H.
    assert (Hle : (list_sum (map (fun kv => S (fuel_of (snd kv))) props)
                   <= list_sum (map (fun p => S (length p))
                        (map (fun kv => quote (fst kv) ++ chars ": "
                                        ++ print (indent + 2) (snd kv)) props)))%nat).
    { clear H. induction IH as [|x xs Hx _ IHxs]; [simpl; lia|].
      rewrite !map_cons. rewrite !length_app.
      change (list_sum (?a :: ?l)) with (a + list_sum l)%nat.
      specialize (Hx (indent + 2)%nat). lia. }
    lia.
Qed.

Lemma chars_app s1 s2 : chars (s1 ++ s2)%string = chars s1 ++ chars s2.
Proof. unfold chars. induction s1 as [|c s1 IH]; simpl; [reflexivity | now rewrite IH]. Qed.

Lemma length_chars s : length (chars s) = String.length s.
Proof. unfold chars. induction s as [|c s IH]; simpl; [reflexivity | now rewrite IH]. Qed.

(** [JSON.parse(JSON.stringify(v, null, 2) + "\n")] is [v]. *)
Theorem parse_stringify v : parse (stringify v ++ LF)%string = Some v.
Proof.
  unfold parse, stringify.
  rewrite chars_app. unfold chars at 1. rewrite list_ascii_of_string_of_list_ascii.
  rewrite <- length_chars, chars_app, length_app. unfold chars at 1.
  rewrite list_ascii_of_string_of_list_ascii.
  rewrite (parse_value_print v 0%nat _ (chars LF)).
  - reflexivity.
  - pose proof (fuel_of_le_length v 0%nat). lia.
  - apply number_ends_newline.
Qed.

End JsonRoundTrip.

(** ** Config store *)

Section ObjectLemmas.
Local Open Scope list_scope.

Lemma assoc_set_property key k v obj :
  assoc key (set_property k v obj) = if (k =? key)%string then Some v else assoc key obj.
Proof.
  induction obj as [|[k' v'] obj IH]; simpl; [reflexivity|].
  destruct (String.eqb_spec k' k) as [->|Hne]; simpl.
  - destruct (k =? key)%string; reflexivity.
  - rewrite IH. destruct (String.eqb_spec k' key) as [->|Hne'].
    + destruct (String.eqb_spec k key) as [->|_]; [contradiction | reflexivity].
    + reflexivity.
Qed.

(** The object spread: a property of [props] wins over one of [obj]. *)
Lemma assoc_spread key props : forall obj,
  assoc key (spread obj props) =
  match assoc_last key props with
  | Some v => Some v
  | None => assoc key obj
  end.
Proof.
  unfold spread. induction props as [|[k v] props IH]; intros obj; simpl; [reflexivity|].
  rewrite IH, assoc_set_property. simpl.
  destruct (assoc_last key props); [reflexivity|].
  destruct (k =? key)%string; reflexivity.
Qed.

Lemma assoc_last_app key a b :
  assoc_last key (a ++ b) =
  match assoc_last key b with
  | Some v => Some v
  | None => assoc_last key a
  end.
Proof.
  induction a as [|[k v] a IH]; simpl.
  - destruct (assoc_last key b); reflexivity.
  - rewrite IH. destruct (assoc_last key b); reflexivity.
Qed.

Lemma assoc_last_field {A} key k (to_json : A -> value) (x : option A) :
  assoc_last key (field k to_json x) =
  if (k =? key)%string then (fun a => Some (to_json a)) <$> x else None.
Proof. destruct x; simpl; destruct (k =? key)%string; reflexivity. Qed.

Lemma assoc_not_in key obj : ~ In key (keys obj) -> assoc key obj = None.
Proof.
  induction obj as [|[k v] obj IH]; simpl; [reflexivity|]. intros Hnin.
  destruct (String.eqb_spec k key) as [->|_]; [tauto | apply IH; tauto].
Qed.

Lemma keys_set_property_in k v obj :
  In k (keys obj) -> keys (set_property k v obj) = keys obj.
Proof.
  induction obj as [|[k' v'] obj IH]; simpl; [contradiction|]. intros Hin.
  destruct (String.eqb_spec k' k) as [->|Hne]; simpl; [reflexivity|].
  rewrite IH; [reflexivity|]. destruct Hin; [contradiction | assumption].
Qed.

Lemma keys_set_property_new k v obj :
  ~ In k (keys obj) -> keys (set_property k v obj) = keys obj ++ [k].
Proof.
  induction obj as [|[k' v'] obj IH]; simpl; [reflexivity|]. intros Hnin.
  destruct (String.eqb_spec k' k) as [->|Hne]; simpl; [tauto|].
  rewrite IH; [reflexivity | tauto].
Qed.

Lemma NoDup_set_property k v obj :
  List.NoDup (keys obj) -> List.NoDup (keys (set_property k v obj)).
Proof.
  intros H. destruct (in_dec string_dec k (keys obj)) as [Hin|Hnin].
  - rewrite keys_set_property_in by exact Hin. exact H.
  - rewrite keys_set_property_new by exact Hnin.
    apply List.NoDup_app; repeat split; auto.
    + constructor; [simpl; tauto | constructor].
    + intros x Hx [<-|[]]. contradiction.
Qed.

Lemma NoDup_spread props : forall obj,
  List.NoDup (keys obj) -> List.NoDup (keys (spread obj props)).
Proof.
  unfold spread. induction props as [|[k v] props IH]; intros obj H; simpl; [exact H|].
  apply IH, NoDup_set_property, H.
Qed.

(** Reading a property of the serialized object. *)
Lemma get_member_serializable key obj :
  List.NoDup (keys obj) ->
  get_member key (omap (fun kv => pair (fst kv) <$> snd kv) obj) =
  match assoc key obj with
  | Some (Some v) => Some v
  | _ => None
  end.
Proof.
  induction obj as [|[k ov] obj IH]; intros Hnd; [reflexivity|].
  inversion Hnd as [|? ? Hnin Hnd']; subst. specialize (IH Hnd').
  change (assoc key ((k, ov) :: obj))
    with (if (k =? key)%string then Some ov else assoc key obj).
  destruct ov as [v|].
  - change (omap ?f ((k, Some v) :: obj)) with ((k, v) :: omap f obj).
    change (get_member key ((k, v) :: ?l))
      with (match get_member key l with
            | Some v' => Some v'
            | None => if (k =? key)%string then Some v else None
            end).
    rewrite IH. destruct (String.eqb_spec k key) as [->|Hne].
    + rewrite (assoc_not_in key obj Hnin). reflexivity.
    + destruct (assoc key obj) as [[?|]|]; reflexivity.
  - change (omap ?f ((k, None) :: obj)) with (omap f obj).
    rewrite IH. destruct (String.eqb_spec k key) as [->|Hne].
    + rewrite (assoc_not_in key obj Hnin). reflexivity.
    + reflexivity.
Qed.

End ObjectLemmas.

(** The property [key] of the document that [saveConfig] writes. *)
Lemma saved_property key config :
  get key (serializable (spread [("version", Some (JString "1.0"))] (own_properties config))) =
  match
    match assoc_last key (own_properties config) with
    | Some v => Some v
    | None => if ("version" =? key)%string then Some (Some (JString "1.0")) else None
    end
  with
  | Some (Some v) => Some v
  | _ => None
  end.
Proof.
  unfold serializable, get.
  rewrite get_member_serializable.
  - rewrite assoc_spread. reflexivity.
  - apply NoDup_spread. simpl. constructor; [simpl; tauto | constructor].
Qed.







Example saved_config_roundtrip :
  let fs := snd (saveConfig (fun p => "/tmp/" ++ p) ∅ saved_config (Some "grablin.json")) in
  (get "version" <$> (fs !! "/tmp/grablin.json" ≫= parse)) = Some (Some (JString "1.0"))
  /\ (get "projectName" <$> (fs !! "/tmp/grablin.json" ≫= parse)) = Some (Some (JString "TestApp"))
  /\ loadConfig (fun p => "/tmp/" ++ p) fs (Some "nonexistent.json") = Return None.
Proof. vm_compute. repeat split. Qed.

(** ** Identity lookup: every script of responses *)

Lemma attempt_once_retried env token attempt w :
  getToken env = Return token ->
  retried (network w (fetch_count (trace w))) = true ->
  attempt_once env attempt w = (Return Next, after_retryable token attempt w).
Proof.
  intros Ht Hs. rewrite (attempt_once_eq env token) by exact Ht.
  destruct (network w (fetch_count (trace w))) as [r|e]; [|reflexivity].
  simpl in Hs. apply andb_prop in Hs. destruct Hs as [H1 H2].
  apply negb_true_iff in H1, H2. rewrite H1, H2. reflexivity.
Qed.

Lemma attempt_once_ok env token attempt w r :
  getToken env = Return token ->
  network w (fetch_count (trace w)) = Responded r -> ok r = true ->
  attempt_once env attempt w =
  (Return (ReturnPromise (json r)), log (identity_request token) w).
Proof.
  intros Ht Hn Hok. rewrite (attempt_once_eq env token) by exact Ht.
  rewrite Hn, Hok. reflexivity.
Qed.

Lemma after_retryable_trace t a w :
  trace (after_retryable t a w) =
  (trace w ++ identity_request t :: map ESleep (wait_after a))%list.
Proof.
  unfold after_retryable, wait_after. destruct (a <? maxRetries - 1)%nat; simpl.
  - rewrite <- app_assoc. reflexivity.
  - reflexivity.
Qed.

Lemma after_retried_network t n : forall a w,
  network (after_retried t a n w) = network w.
Proof.
  induction n as [|n IH]; intros a w; simpl; [reflexivity|].
  rewrite IH. apply after_retryable_network.
Qed.

Lemma after_retried_trace t n : forall a w,
  trace (after_retried t a n w) = (trace w ++ retried_trace t a n)%list.
Proof.
  induction n as [|n IH]; intros a w; simpl.
  - rewrite app_nil_r. reflexivity.
  - rewrite IH, after_retryable_trace, <- app_assoc. reflexivity.
Qed.

Lemma after_retried_fetch_count t n : forall a w,
  fetch_count (trace (after_retried t a n w)) = (fetch_count (trace w) + n)%nat.
Proof.
  induction n as [|n IH]; intros a w; simpl; [lia|].
  rewrite IH, after_retryable_fetch_count. lia.
Qed.

(** [n] retried attempts in a row take the loop [n] iterations further. *)
Lemma retry_loop_retried env t : forall n fuel a w,
  getToken env = Return t ->
  fetch_count (trace w) = a ->
  (a + n <= maxRetries)%nat ->
  (forall j, (a <= j < a + n)%nat -> retried (network w j) = true) ->
  retry_loop env (n + fuel) a w = retry_loop env fuel (a + n) (after_retried t a n w).
Proof.
  induction n as [|n IH]; intros fuel a w Ht Hc Hle Hretry.
  - simpl. rewrite Nat.add_0_r. reflexivity.
  - change (S n + fuel)%nat with (S (n + fuel)). simpl retry_loop.
    destruct (Nat.ltb_spec a maxRetries) as [_|Hge]; [|lia].
    unfold mbind, Async_bind, bind.
    rewrite (attempt_once_retried env t a w Ht)
      by (rewrite Hc; apply Hretry; lia).
    rewrite (IH fuel (S a) (after_retryable t a w)); auto.
    + simpl. f_equal. lia.
    + rewrite after_retryable_fetch_count. lia.
    + lia.
    + intros j Hj. rewrite after_retryable_network. apply Hretry. lia.
Qed.

Lemma retried_trace_fetch_count t n : forall a,
  fetch_count (retried_trace t a n) = n.
Proof.
  induction n as [|n IH]; intros a; [reflexivity|].
  simpl retried_trace.
  change (identity_request t :: ?l) with ([identity_request t] ++ l)%list.
  rewrite !fetch_count_app, IH. unfold wait_after.
  destruct (a <? maxRetries - 1)%nat; reflexivity.
Qed.

Lemma retried_trace_sleeps t n : forall a,
  sleeps (retried_trace t a n) = waits_from a n.
Proof.
  induction n as [|n IH]; intros a; [reflexivity|].
  simpl retried_trace.
  change (identity_request t :: ?l) with ([identity_request t] ++ l)%list.
  rewrite !sleeps_app, IH. simpl. unfold wait_after.
  destruct (a <? maxRetries - 1)%nat; reflexivity.
Qed.

Lemma retried_trace_effects t n : forall a,
  Forall (lookup_effect t) (retried_trace t a n).
Proof.
  induction n as [|n IH]; intros a; simpl; constructor.
  - left. reflexivity.
  - apply Forall_app. split; [|apply IH].
    unfold wait_after. destruct (a <? maxRetries - 1)%nat; simpl.
    + constructor; [right; eexists; reflexivity | constructor].
    + constructor.
Qed.

(** A 2xx response met after [k] retried attempts settles the lookup with
    whatever its body decodes to. *)
Lemma run_settles (env : ProcessEnv) (net : nat -> FetchOutcome) (t : string)
    (k : nat) (r : Response) :
  hasToken env = true -> getToken env = Return t ->
  (k < maxRetries)%nat ->
  (forall j, (j < k)%nat -> retried (net j) = true) ->
  net k = Responded r -> ok r = true ->
  run_getGitHubUser env net
  = (match json r with
     | Return u => Return (Some u)
     | Throw e => Throw e
     end, (retried_trace t 0 k ++ [identity_request t])%list).
Proof.
  intros Htok Ht Hk Hretry Hn Hok.
  pose proof (eq_refl : maxRetries = 3%nat) as Hmax.
  rewrite (run_with_token env net Htok).
  set (w0 := {| network := net; trace := [] |}).
  replace maxRetries with (k + (maxRetries - k))%nat at 1 by lia.
  rewrite (retry_loop_retried env t k (maxRetries - k) 0 w0 Ht eq_refl)
    by (try lia; intros j Hj; apply Hretry; lia).
  destruct (maxRetries - k)%nat as [|fuel] eqn:Hfuel; [lia|].
  simpl retry_loop. simpl (0 + k)%nat.
  destruct (Nat.ltb_spec k maxRetries) as [_|Hge]; [|lia].
  unfold mbind, Async_bind, bind.
  rewrite (attempt_once_ok env t k (after_retried t 0 k w0) r Ht).
  - destruct (json r); simpl; rewrite after_retried_trace; reflexivity.
  - rewrite after_retried_network, after_retried_fetch_count. exact Hn.
  - exact Hok.
Qed.

(** The loop rejects only with the rejection of a 2xx body. *)
Lemma retry_loop_throws env t : forall fuel a w e w',
  getToken env = Return t ->
  fetch_count (trace w) = a ->
  retry_loop env fuel a w = (Throw e, w') ->
  exists k r, (a <= k < maxRetries)%nat
    /\ (forall j, (a <= j < k)%nat -> retried (network w j) = true)
    /\ network w k = Responded r /\ ok r = true /\ json r = Throw e.
Proof.
  induction fuel as [|fuel IH]; intros a w e w' Ht Hc Hrun; [discriminate|].
  simpl retry_loop in Hrun.
  destruct (Nat.ltb_spec a maxRetries) as [Hlt|Hge]; [|discriminate].
  unfold mbind, Async_bind, bind in Hrun.
  rewrite (attempt_once_eq env t a w Ht), Hc in Hrun.
  assert (Hnext : retried (network w a) = true ->
                  retry_loop env fuel (S a) (after_retryable t a w) = (Throw e, w') ->
                  exists k r, (a <= k < maxRetries)%nat
                    /\ (forall j, (a <= j < k)%nat -> retried (network w j) = true)
                    /\ network w k = Responded r /\ ok r = true /\ json r = Throw e).
  { intros Ha Hrun'.
    apply IH in Hrun'; [|exact Ht | rewrite after_retryable_fetch_count; lia].
    destruct Hrun' as (k & r & Hk & Hretry & Hn & Hok & Hj).
    rewrite after_retryable_network in Hn.
    exists k, r. split; [lia|]. split; [|auto].
    intros j Hj'. destruct (Nat.eq_dec j a) as [->|Hne]; [exact Ha|].
    rewrite <- (after_retryable_network t a w). apply Hretry. lia. }
  destruct (network w a) as [r|err] eqn:Hn.
  - destruct (ok r) eqn:Hok.
    + destruct (json r) as [u|e'] eqn:Hj; [discriminate|].
      injection Hrun as <- _. exists a, r. split; [lia|]. split; [intros j Hj'; lia|].
      auto.
    + destruct (is_4xx r) eqn:H4; [discriminate|].
      apply Hnext; [|exact Hrun]. simpl. rewrite Hok, H4. reflexivity.
  - apply Hnext; [reflexivity | exact Hrun].
Qed.

(** X1: with a credential, a decodable 2xx response met after [k] retried
    attempts is returned: the lookup performs [k + 1] requests and the waits
    of the [k] failed attempts. *)
Theorem getGitHubUser_returns_user (env : ProcessEnv) (net : nat -> FetchOutcome)
    (k : nat) (r : Response) (u : GitHubUser) :
  hasToken env = true ->
  (k < maxRetries)%nat ->
  (forall j, (j < k)%nat -> retried (net j) = true) ->
  net k = Responded r -> ok r = true -> json r = Return u ->
  exists t, getToken env = Return t
    /\ run_getGitHubUser env net
       = (Return (Some u), (retried_trace t 0 k ++ [identity_request t])%list)
    /\ fetch_count (snd (run_getGitHubUser env net)) = S k
    /\ sleeps (snd (run_getGitHubUser env net)) = map delay_of (seq 0 k).
Proof.
  intros Htok Hk Hretry Hn Hok Hu.
  pose proof (eq_refl : maxRetries = 3%nat) as Hmax.
  destruct (getToken_hasToken env Htok) as (t & _ & _ & Ht). exists t.
  split; [exact Ht|].
  assert (Hrun : run_getGitHubUser env net
                 = (Return (Some u), (retried_trace t 0 k ++ [identity_request t])%list)).
  { rewrite (run_settles env net t k r Htok Ht Hk Hretry Hn Hok), Hu. reflexivity. }
  split; [exact Hrun|]. rewrite Hrun. cbn [snd]. split.
  - rewrite fetch_count_app, retried_trace_fetch_count.
    change (fetch_count [identity_request t]) with 1%nat. lia.
  - rewrite sleeps_app, retried_trace_sleeps.
    change (sleeps [identity_request t]) with (@nil Z). rewrite app_nil_r.
    apply waits_from_delays. lia.
Qed.

(** A server that fails once with 503 and then answers. *)
Lemma getGitHubUser_returns_user_witness :
  exists t, getToken token_env = Return t
    /\ run_getGitHubUser token_env flaky_server
       = (Return (Some octocat), (retried_trace t 0 1 ++ [identity_request t])%list)
    /\ fetch_count (snd (run_getGitHubUser token_env flaky_server)) = 2%nat
    /\ sleeps (snd (run_getGitHubUser token_env flaky_server)) = map delay_of (seq 0 1).
Proof.
  apply (getGitHubUser_returns_user token_env flaky_server 1
           {| status := 200; json := Return octocat |} octocat);
    [reflexivity | unfold maxRetries; lia | | reflexivity | reflexivity | reflexivity].
  intros j Hj. assert (j = 0%nat) as -> by lia. reflexivity.
Defined.

(** X2: a response whose status is outside 200..299 and 400..499 is retried
    like a transport error, whatever the status (a redirect, a 1xx, a 5xx or
    above): three such attempts end in none after three requests and the
    waits of 1000 ms and 2000 ms. *)
Theorem getGitHubUser_retries_every_other_status (env : ProcessEnv)
    (net : nat -> FetchOutcome) :
  hasToken env = true ->
  (forall j, (j < maxRetries)%nat -> retried (net j) = true) ->
  exists t, getToken env = Return t
    /\ run_getGitHubUser env net = (Return None, retried_trace t 0 maxRetries)
    /\ fetch_count (snd (run_getGitHubUser env net)) = maxRetries
    /\ sleeps (snd (run_getGitHubUser env net)) = [1000; 2000]%Z.
Proof.
  intros Htok Hretry.
  pose proof (eq_refl : maxRetries = 3%nat) as Hmax.
  destruct (getToken_hasToken env Htok) as (t & _ & _ & Ht). exists t.
  split; [exact Ht|].
  assert (Hrun : run_getGitHubUser env net = (Return None, retried_trace t 0 maxRetries)).
  { rewrite (run_with_token env net Htok).
    set (w0 := {| network := net; trace := [] |}).
    replace maxRetries with (maxRetries + 0)%nat at 1 by lia.
    rewrite (retry_loop_retried env t maxRetries 0 0 w0 Ht eq_refl)
      by (try lia; intros j Hj; apply Hretry; lia).
    rewrite retry_loop_exhausted by (simpl; lia).
    rewrite after_retried_trace. reflexivity. }
  split; [exact Hrun|]. rewrite Hrun. cbn [snd]. split.
  - apply retried_trace_fetch_count.
  - rewrite retried_trace_sleeps. reflexivity.
Qed.

Lemma getGitHubUser_retries_every_other_status_witness :
  exists t, getToken token_env = Return t
    /\ run_getGitHubUser token_env redirecting_server
       = (Return None, retried_trace t 0 maxRetries)
    /\ fetch_count (snd (run_getGitHubUser token_env redirecting_server)) = maxRetries
    /\ sleeps (snd (run_getGitHubUser token_env redirecting_server)) = [1000; 2000]%Z.
Proof.
  apply (getGitHubUser_retries_every_other_status token_env redirecting_server);
    [reflexivity | intros j _; reflexivity].
Defined.

(** The loop on any script: some attempts are retried, and then either
    one attempt ends the lookup or the budget is spent. *)
Lemma retry_loop_shape env t : forall fuel a w,
  getToken env = Return t ->
  exists res w' n (stopped : bool),
    retry_loop env fuel a w = (res, w')
    /\ trace w' = (trace w ++ retried_trace t a n
                   ++ if stopped then [identity_request t] else [])%list
    /\ (n + (if stopped then 1 else 0) <= fuel)%nat.
Proof.
  induction fuel as [|fuel IH]; intros a w Ht.
  - exists (Return None), w, 0%nat, false. simpl. rewrite app_nil_r. repeat split. lia.
  - simpl retry_loop. destruct (a <? maxRetries)%nat.
    + unfold mbind, Async_bind, bind. rewrite (attempt_once_eq env t a w Ht).
      assert (Hstop : forall res, exists (res' : completion (option GitHubUser)) w' n (stopped : bool),
                (res, log (identity_request t) w) = (res', w')
                /\ trace w' = (trace w ++ retried_trace t a n
                               ++ if stopped then [identity_request t] else [])%list
                /\ (n + (if stopped then 1 else 0) <= S fuel)%nat).
      { intros res. exists res, (log (identity_request t) w), 0%nat, true.
        repeat split. simpl. lia. }
      assert (Hnext : exists res w' n (stopped : bool),
                retry_loop env fuel (S a) (after_retryable t a w) = (res, w')
                /\ trace w' = (trace w ++ retried_trace t a n
                               ++ if stopped then [identity_request t] else [])%list
                /\ (n + (if stopped then 1 else 0) <= S fuel)%nat).
      { destruct (IH (S a) (after_retryable t a w) Ht) as (res & w' & n & stopped & Hr & Htr & Hn).
        exists res, w', (S n), stopped. split; [exact Hr|]. split; [|lia].
        rewrite Htr, after_retryable_trace. simpl retried_trace.
        rewrite <- !app_assoc. simpl. rewrite <- !app_assoc. reflexivity. }
      destruct (network w (fetch_count (trace w))) as [r|e]; [|exact Hnext].
      destruct (ok r).
      * destruct (json r) as [u|e]; apply Hstop.
      * destruct (is_4xx r); [apply Hstop | exact Hnext].
    + exists (Return None), w, 0%nat, false. simpl. rewrite app_nil_r. repeat split. lia.
Qed.

(** X3: whatever the network does, the lookup sends at most three
    requests, all of them the identity request carrying the credential, and
    waits nothing, 1000 ms, or 1000 ms and then 2000 ms; without a credential
    it performs no effect at all. *)
Theorem getGitHubUser_effects_bounded (env : ProcessEnv) (net : nat -> FetchOutcome) :
  (fetch_count (snd (run_getGitHubUser env net)) <= maxRetries)%nat
  /\ (sleeps (snd (run_getGitHubUser env net)) = []
      \/ sleeps (snd (run_getGitHubUser env net)) = [1000]%Z
      \/ sleeps (snd (run_getGitHubUser env net)) = [1000; 2000]%Z)
  /\ (forall t, getToken env = Return t ->
        Forall (lookup_effect t) (snd (run_getGitHubUser env net)))
  /\ (hasToken env = false -> snd (run_getGitHubUser env net) = []).
Proof.
  destruct (hasToken env) eqn:Htok.
  - destruct (getToken_hasToken env Htok) as (t & _ & _ & Ht).
    rewrite (run_with_token env net Htok).
    destruct (retry_loop_shape env t maxRetries 0 {| network := net; trace := [] |} Ht)
      as (res & w' & n & stopped & Hr & Htr & Hn).
    rewrite Hr. cbn [snd]. rewrite Htr. cbn [trace app].
    assert (Hcount : fetch_count (retried_trace t 0 n
                       ++ (if stopped then [identity_request t] else []))%list
                     = (n + if stopped then 1 else 0)%nat).
    { rewrite fetch_count_app, retried_trace_fetch_count. destruct stopped; reflexivity. }
    assert (Hsleeps : sleeps (retried_trace t 0 n
                        ++ (if stopped then [identity_request t] else []))%list
                      = waits_from 0 n).
    { rewrite sleeps_app, retried_trace_sleeps.
      destruct stopped; simpl; apply app_nil_r. }
    split; [rewrite Hcount; exact Hn|]. split; [|split; [|discriminate]].
    + rewrite Hsleeps. change maxRetries with 3%nat in Hn.
      destruct n as [|[|[|[|n]]]]; [auto | auto | auto | | destruct stopped; lia].
      right. right. reflexivity.
    + intros t' Ht'. assert (t' = t) as -> by congruence.
      apply Forall_app. split; [apply retried_trace_effects|].
      destruct stopped; repeat constructor.
  - rewrite (getGitHubUser_no_credential env net Htok). cbn [snd].
    split; [apply Nat.le_0_l|]. split; [left; reflexivity|]. split; [|reflexivity].
    intros t _. constructor.
Qed.

(** X4: [hasToken] is the non-throwing probe of [getToken]: it is true
    exactly when [getToken] returns, false exactly when [getToken] throws,
    and a returned token is never the empty string. *)
Theorem hasToken_probes_getToken (env : ProcessEnv) :
  (hasToken env = true <-> exists t, getToken env = Return t)
  /\ (hasToken env = false <-> exists e, getToken env = Throw e)
  /\ (forall t, getToken env = Return t -> t <> "").
Proof.
  destruct (hasToken env) eqn:Htok.
  - destruct (getToken_hasToken env Htok) as (t & _ & Hne & Ht).
    repeat split; eauto; try discriminate.
    + intros [e He]. congruence.
    + intros t' Ht'. congruence.
  - pose proof (getToken_no_token env Htok) as Ht.
    repeat split; eauto; try discriminate.
    + intros [t Hr]. congruence.
    + intros t Hr. congruence.
Qed.

(** X5: the promise of the lookup rejects exactly when a 2xx response
    whose body does not decode ends the loop, after attempts that were all
    retried; it rejects with the rejection of [response.json()].  Transport
    errors and statuses outside 200..299 never make it reject. *)
Theorem getGitHubUser_rejects_iff (env : ProcessEnv) (net : nat -> FetchOutcome) (e : exn) :
  fst (run_getGitHubUser env net) = Throw e <->
  hasToken env = true
  /\ exists k r, (k < maxRetries)%nat
       /\ (forall j, (j < k)%nat -> retried (net j) = true)
       /\ net k = Responded r /\ ok r = true /\ json r = Throw e.
Proof.
  split.
  - intros Hrun. destruct (hasToken env) eqn:Htok.
    + split; [reflexivity|].
      destruct (getToken_hasToken env Htok) as (t & _ & _ & Ht).
      rewrite (run_with_token env net Htok) in Hrun.
      destruct (retry_loop env maxRetries 0 {| network := net; trace := [] |})
        as [res w'] eqn:Hloop.
      cbn [fst] in Hrun. subst res.
      apply (retry_loop_throws env t) in Hloop; [|exact Ht | reflexivity].
      destruct Hloop as (k & r & Hk & Hretry & Hn & Hok & Hj).
      exists k, r. split; [lia|]. split; [|auto].
      intros j Hj'. apply Hretry. lia.
    + rewrite (getGitHubUser_no_credential env net Htok) in Hrun. discriminate.
  - intros (Htok & k & r & Hk & Hretry & Hn & Hok & Hj).
    destruct (getToken_hasToken env Htok) as (t & _ & _ & Ht).
    rewrite (run_settles env net t k r Htok Ht Hk Hretry Hn Hok), Hj. reflexivity.
Qed.

(** ** What the patterns of the validator accept *)

Section RegexShapes.
Import Regex.
Local Open Scope list_scope.

Lemma Matches_Class_inv p s : Matches (Class p) s -> exists c, s = [c] /\ p c = true.
Proof. intros H. inversion H; subst. eauto. Qed.

Lemma Matches_Repeat_inv r lo hi s :
  Matches (Repeat r lo hi) s ->
  (lo = 0%nat /\ s = [])
  \/ exists hi' s1 s2, hi = S hi' /\ s = s1 ++ s2 /\ Matches r s1
                       /\ Matches (Repeat r (Nat.pred lo) hi') s2.
Proof. intros H. inversion H; subst; [left; auto | right; eauto 8]. Qed.

(** A bounded repetition of a character class. *)
Lemma Matches_Repeat_Class p : forall hi lo s,
  Matches (Repeat (Class p) lo hi) s <->
  (lo <= length s <= hi)%nat /\ forallb p s = true.
Proof.
  intros hi lo s. split.
  - revert lo s. induction hi as [|hi IH]; intros lo s H;
      apply Matches_Repeat_inv in H;
      destruct H as [[-> ->]|(hi' & s1 & s2 & Hhi & -> & H1 & H2)];
      try (simpl; split; [lia | reflexivity]); [discriminate|].
    injection Hhi as <-.
    apply Matches_Class_inv in H1. destruct H1 as (c & -> & Hc).
    apply IH in H2. destruct H2 as [Hlen Hall]. simpl. rewrite Hc, Hall.
    split; [lia | reflexivity].
  - revert lo hi. induction s as [|c s IH]; intros lo hi [Hlen Hall]; simpl in *.
    + assert (lo = 0)%nat as -> by lia. constructor.
    + destruct hi as [|hi]; [lia|].
      apply andb_true_iff in Hall. destruct Hall as [Hc Hall].
      change (c :: s) with ([c] ++ s). constructor; [constructor; exact Hc|].
      apply IH. split; [lia | exact Hall].
Qed.

(** Any number of characters of a class. *)
Lemma Matches_Star_Class p s : Matches (Star (Class p)) s <-> forallb p s = true.
Proof.
  split.
  - remember (Star (Class p)) as r eqn:Hr.
    induction 1 as [| | | | | |r' s1 s2 H1 _ H2 IH2| |]; try discriminate.
    + reflexivity.
    + injection Hr as ->. apply Matches_Class_inv in H1. destruct H1 as (c & -> & Hc).
      simpl. rewrite Hc. apply IH2. reflexivity.
  - induction s as [|c s IH]; simpl; [constructor|].
    intros H. apply andb_true_iff in H. destruct H as [Hc Hs].
    change (c :: s) with ([c] ++ s). constructor; [constructor; exact Hc | auto].
Qed.

(** A pattern [/^[first][rest]{0,n}$/]. *)
Lemma test_first_rest (first rest : ascii -> bool) (n : nat) (s : string) :
  test (Seq (Class first) (Repeat (Class rest) 0 n)) s = true <->
  match s with
  | EmptyString => False
  | String c s' =>
      first c = true /\ forallb rest (chars s') = true /\ (String.length s' <= n)%nat
  end.
Proof.
  unfold test. rewrite matches_spec. split.
  - intros H. apply Matches_Seq_inv in H. destruct H as (s1 & s2 & Hs & H1 & H2).
    apply Matches_Class_inv in H1. destruct H1 as (c & -> & Hc).
    apply Matches_Repeat_Class in H2. destruct H2 as [Hlen Hall].
    destruct s as [|c' s']; simpl in Hs; [discriminate|].
    injection Hs as -> <-. rewrite <- (length_chars s').
    repeat split; [exact Hc | exact Hall | unfold chars; lia].
  - destruct s as [|c s']; [tauto|]. intros (Hc & Hall & Hlen).
    change (list_ascii_of_string (String c s')) with ([c] ++ chars s').
    constructor; [constructor; exact Hc|].
    apply Matches_Repeat_Class. rewrite length_chars. split; [lia | exact Hall].
Qed.

Lemma forallb_ext_eq {A} (p q : A -> bool) (l : list A) :
  (forall x, p x = q x) -> forallb p l = forallb q l.
Proof. intros H. induction l as [|x l IH]; simpl; [reflexivity|]. now rewrite H, IH. Qed.

Lemma name_char_class c : union letter (union digit (one_of "-_")) c = name_char c.
Proof.
  unfold union, one_of, name_char. simpl.
  destruct (letter c), (digit c), (Ascii.eqb c "-"), (Ascii.eqb c "_"); reflexivity.
Qed.

Lemma id_char_class c : union lower (union digit (one_of "-")) c = id_char c.
Proof.
  unfold union, one_of, id_char. simpl.
  destruct (lower c), (digit c), (Ascii.eqb c "-"); reflexivity.
Qed.

Lemma test_PROJECT_NAME_RE s : test PROJECT_NAME_RE s = true <-> shaped letter name_char s.
Proof.
  unfold PROJECT_NAME_RE. rewrite test_first_rest. unfold shaped.
  destruct s as [|c s']; [tauto|].
  rewrite (forallb_ext_eq _ _ _ name_char_class). simpl String.length. split.
  - intros (? & ? & ?). repeat split; auto. lia.
  - intros (? & ? & ?). repeat split; auto. lia.
Qed.

Lemma test_MODULE_ID_RE s : test MODULE_ID_RE s = true <-> shaped lower id_char s.
Proof.
  unfold MODULE_ID_RE. rewrite test_first_rest. unfold shaped.
  destruct s as [|c s']; [tauto|].
  rewrite (forallb_ext_eq _ _ _ id_char_class). simpl String.length. split.
  - intros (? & ? & ?). repeat split; auto. lia.
  - intros (? & ? & ?). repeat split; auto. lia.
Qed.

End RegexShapes.

(** ** Hyphens of a module id *)

Lemma endsWith_hyphen_cons c s :
  endsWith (String c s) "-" =
  match s with
  | EmptyString => Ascii.eqb c "-"
  | String _ _ => endsWith s "-"
  end.
Proof.
  unfold endsWith. destruct s as [|c' s'].
  - simpl. destruct (Ascii.eqb c "-"); reflexivity.
  - cbn [String.length].
    replace (S (S (String.length s')) - 1)%nat with (S (String.length s')) by lia.
    replace (S (String.length s') - 1)%nat with (String.length s') by lia.
    reflexivity.
Qed.

Lemma prefix_hyphens c s :
  String.prefix "--" (String c s) =
  Ascii.eqb c "-" && match s with
                     | EmptyString => false
                     | String c' _ => Ascii.eqb c' "-"
                     end.
Proof.
  cbn [String.prefix]. destruct (ascii_dec "-" c) as [<-|Hc].
  - rewrite Ascii.eqb_refl. cbn [andb]. destruct s as [|c' s']; [reflexivity|].
    cbn [String.prefix]. destruct (ascii_dec "-" c') as [<-|Hc'].
    + destruct s'; rewrite Ascii.eqb_refl; reflexivity.
    + symmetry. apply Ascii.eqb_neq. congruence.
  - replace (Ascii.eqb c "-") with false; [reflexivity|].
    symmetry. apply Ascii.eqb_neq. congruence.
Qed.

(** The two hyphen tests of [validateModule], as one scan of the id. *)
Lemma hyphens_apart_spec s :
  hyphens_apart (chars s) = negb (endsWith s "-" || includes s "--").
Proof.
  induction s as [|c s IH]; [reflexivity|].
  rewrite endsWith_hyphen_cons. cbn [includes]. rewrite prefix_hyphens.
  change (chars (String c s)) with (c :: chars s). cbn [hyphens_apart].
  destruct s as [|c' s'].
  - simpl. destruct (Ascii.eqb c "-"); reflexivity.
  - change (chars (String c' s')) with (c' :: chars s') in *. rewrite IH.
    destruct (Ascii.eqb c "-" && Ascii.eqb c' "-"); simpl.
    + rewrite orb_true_r. reflexivity.
    + reflexivity.
Qed.

(** ** Module checks *)

Lemma existsb_String_eqb k l : existsb (String.eqb k) l = true <-> In k l.
Proof.
  rewrite existsb_exists. split.
  - intros (x & Hin & Heq). apply String.eqb_eq in Heq. congruence.
  - intros Hin. exists k. split; [exact Hin | apply String.eqb_refl].
Qed.

Lemma truthy_iff (x : option string) :
  truthy x = true <-> exists s, x = Some s /\ s <> "".
Proof.
  split; [apply truthy_true_inv|]. intros (s & -> & Hs). now apply truthy_Some_ne.
Qed.

Lemma shaped_nonempty first rest s : shaped first rest s -> s <> "".
Proof. destruct s; simpl; [tauto | discriminate]. Qed.

Lemma push_not_nil (array : list string) (x : string) : push array x <> [].
Proof. unfold push. destruct array; discriminate. Qed.

(** The module id of a module that raises no complaint about it. *)
Lemma moduleId_accepted (id : option string) :
  (truthy id = true /\ Regex.test MODULE_ID_RE (the id) = true
   /\ endsWith (the id) "-" || includes (the id) "--" = false)
  <-> exists s, id = Some s /\ shaped lower id_char s /\ hyphens_apart (chars s) = true.
Proof.
  split.
  - intros (Ht & Hre & Hhy). apply truthy_true_inv in Ht. destruct Ht as (s & -> & Hne).
    simpl the in *. exists s. split; [reflexivity|]. split.
    + apply test_MODULE_ID_RE. exact Hre.
    + rewrite hyphens_apart_spec, Hhy. reflexivity.
  - intros (s & -> & Hsh & Hhy). simpl the.
    split; [apply truthy_Some_ne; eapply shaped_nonempty; eassumption|].
    split; [apply test_MODULE_ID_RE; exact Hsh|].
    rewrite hyphens_apart_spec in Hhy. apply negb_true_iff. exact Hhy.
Qed.

Lemma validateModule_accepts (m : ModuleConfig) (index : nat) :
  validateModule m index = [] <-> module_accepted m.
Proof.
  unfold module_accepted. rewrite <- moduleId_accepted.
  rewrite <- (truthy_iff (type m)).
  assert (Hkind : (exists k, kind m = Some k /\ In k KINDS)
                  <-> truthy (kind m) = true
                      /\ existsb (String.eqb (the (kind m))) KINDS = true).
  { rewrite existsb_String_eqb. split.
    - intros (k & Hk & Hin). rewrite Hk. simpl the. split; [|exact Hin].
      apply truthy_Some_ne. intros ->. simpl in Hin. repeat destruct Hin as [Hin|Hin];
        try discriminate; exact Hin.
    - intros [Ht Hin]. apply truthy_true_inv in Ht. destruct Ht as (k & Hk & _).
      rewrite Hk in Hin. eauto. }
  rewrite Hkind. unfold validateModule. fold KINDS.
  destruct (truthy (kind m)), (existsb (String.eqb (the (kind m))) KINDS),
    (truthy (type m)), (truthy (moduleId m)),
    (Regex.test MODULE_ID_RE (the (moduleId m))),
    (endsWith (the (moduleId m)) "-" || includes (the (moduleId m)) "--");
    cbn [negb]; cbv iota;
    (split; [intros H; try (exfalso; revert H; apply push_not_nil); tauto
            | intros H; try reflexivity; exfalso; intuition discriminate]).
Qed.

Local Ltac complaints_by_case :=
  let done cs :=
    exists cs; split; [intros index; reflexivity|];
    split; [intros c Hc; cbv [In MODULE_COMPLAINTS app] in *; tauto|];
    cbn [length app]; lia in
  let with_id k t :=
    first [ done (k ++ t ++ [])%list
          | done (k ++ t ++ [".moduleId is required"])%list
          | done (k ++ t ++ [".moduleId must be lowercase, start with a letter, use hyphens only, and be 1-100 chars"])%list
          | done (k ++ t ++ [".moduleId cannot end with hyphen or contain consecutive hyphens"])%list ] in
  let with_type k :=
    first [ with_id k (@nil string) | with_id k [".type is required"] ] in
  first [ with_type (@nil string)
        | with_type [".kind is required (code, extension, provider, vcs)"]
        | with_type [".kind must be one of: code, extension, provider, vcs"] ].

(** The index of a module only places its complaints. *)
Lemma validateModule_form (m : ModuleConfig) :
  exists complaints,
    (forall index, validateModule m index = map (at_position index) complaints)
    /\ incl complaints MODULE_COMPLAINTS
    /\ (List.length complaints <= 3)%nat.
Proof.
  unfold validateModule, push, at_position.
  repeat (match goal with
          | |- context [if negb ?b then _ else _] => destruct b
          | |- context [if ?b then _ else _] => destruct b
          end; cbn [negb app]; cbv iota);
    complaints_by_case.
Qed.

(** ** Domain names: the labels of an accepted name *)

Section DomainLabels.
Import Regex.
Local Open Scope list_scope.

Lemma split_no_sep sep l :
  Forall (fun c => c <> sep) l ->
  split sep (string_of_list_ascii l) = [string_of_list_ascii l].
Proof.
  induction 1 as [|c l Hc _ IH]; [reflexivity|].
  simpl. rewrite IH. apply Ascii.eqb_neq in Hc. rewrite Hc. reflexivity.
Qed.

Lemma split_app_sep sep l rest :
  Forall (fun c => c <> sep) l ->
  split sep (string_of_list_ascii (l ++ sep :: rest)) =
  string_of_list_ascii l :: split sep (string_of_list_ascii rest).
Proof.
  induction 1 as [|c l Hc _ IH]; simpl.
  - rewrite Ascii.eqb_refl. reflexivity.
  - rewrite IH. apply Ascii.eqb_neq in Hc. rewrite Hc. reflexivity.
Qed.

Lemma length_string_of_list_ascii l : String.length (string_of_list_ascii l) = length l.
Proof. induction l as [|c l IH]; simpl; [reflexivity | now rewrite IH]. Qed.

Lemma forallb_no_sep (p : ascii -> bool) sep l :
  p sep = false -> forallb p l = true -> Forall (fun c => c <> sep) l.
Proof.
  intros Hsep Hall. apply List.Forall_forall. intros c Hin ->.
  rewrite forallb_forall in Hall. specialize (Hall _ Hin). congruence.
Qed.

(** A label of the domain pattern. *)
Lemma domain_label_i_inv l :
  Matches domain_label_i l ->
  (1 <= length l <= 63)%nat /\ Forall (fun c => c <> "."%char) l.
Proof.
  unfold domain_label_i, Opt. intros H.
  apply Matches_Seq_inv in H. destruct H as (s1 & s2 & -> & H1 & H2).
  apply Matches_Class_inv in H1. destruct H1 as (c & -> & Hc).
  assert (Hc' : c <> "."%char) by (intros ->; vm_compute in Hc; discriminate).
  apply Matches_Alt_inv in H2. destruct H2 as [H2|H2].
  - apply Matches_Eps_inv in H2. subst. simpl. split; [lia|]. repeat constructor. exact Hc'.
  - apply Matches_Seq_inv in H2. destruct H2 as (mid & fin & -> & Hmid & Hfin).
    apply Matches_Repeat_Class in Hmid. destruct Hmid as [Hlen Hall].
    apply Matches_Class_inv in Hfin. destruct Hfin as (c2 & -> & Hc2).
    assert (Hc2' : c2 <> "."%char) by (intros ->; vm_compute in Hc2; discriminate).
    simpl. rewrite length_app. simpl. split; [lia|].
    constructor; [exact Hc'|]. apply Forall_app. split.
    + eapply forallb_no_sep; [|exact Hall]. reflexivity.
    + repeat constructor. exact Hc2'.
Qed.

(** The labels that end in a dot, in front of the rest of the name. *)
Lemma dotted_labels_split s :
  Matches (Star (Seq domain_label_i (Class (one_of ".")))) s ->
  forall rest,
    exists labels,
      split "." (string_of_list_ascii (s ++ rest)) =
        map string_of_list_ascii labels ++ split "." (string_of_list_ascii rest)
      /\ Forall (Matches domain_label_i) labels.
Proof.
  remember (Star (Seq domain_label_i (Class (one_of ".")))) as r eqn:Hr.
  induction 1 as [| | | | | |r' s1 s2 H1 _ H2 IH2| |]; try discriminate; intros rest.
  - exists []. split; [reflexivity | constructor].
  - injection Hr as ->. specialize (IH2 eq_refl rest).
    destruct IH2 as (labels & Hsplit & Hall).
    apply Matches_Seq_inv in H1. destruct H1 as (l & d & -> & Hl & Hd).
    apply Matches_Class_inv in Hd. destruct Hd as (c & -> & Hc).
    assert (c = "."%char) as ->.
    { unfold one_of in Hc. simpl in Hc. rewrite orb_false_r in Hc.
      now apply Ascii.eqb_eq in Hc. }
    destruct (domain_label_i_inv _ Hl) as [Hlen Hnodot].
    exists (l :: labels). split.
    + rewrite <- !app_assoc. simpl. rewrite (split_app_sep _ _ _ Hnodot), Hsplit.
      reflexivity.
    + constructor; [exact Hl | exact Hall].
Qed.

(** The labels of a name the domain pattern accepts: one or more labels
    of the pattern, then the top-level label. *)
Lemma DOMAIN_RE_split d :
  test DOMAIN_RE d = true ->
  exists label labels tld,
    split "." d = map string_of_list_ascii (label :: labels) ++ [string_of_list_ascii tld]
    /\ Forall (Matches domain_label_i) (label :: labels)
    /\ (2 <= length tld <= 24)%nat
    /\ forallb (ignore_case lower) tld = true.
Proof.
  unfold test. rewrite matches_spec. unfold DOMAIN_RE, Plus. intros H.
  apply Matches_Seq_inv in H. destruct H as (front & tld & Hd & Hfront & Htld).
  apply Matches_Seq_inv in Hfront. destruct Hfront as (one & more & -> & Hone & Hmore).
  apply Matches_Repeat_Class in Htld. destruct Htld as [Hlen Hall].
  assert (Hnodot : Forall (fun c => c <> "."%char) tld)
    by (eapply forallb_no_sep; [|exact Hall]; reflexivity).
  destruct (dotted_labels_split _ Hmore tld) as (labels & Hsplit & Hmatch).
  apply Matches_Seq_inv in Hone. destruct Hone as (l & dt & -> & Hl & Hdot).
  apply Matches_Class_inv in Hdot. destruct Hdot as (c & -> & Hc).
  assert (c = "."%char) as ->.
  { unfold one_of in Hc. simpl in Hc. rewrite orb_false_r in Hc.
    now apply Ascii.eqb_eq in Hc. }
  destruct (domain_label_i_inv _ Hl) as [_ Hnd].
  exists l, labels, tld. split; [|split; [constructor; assumption | split; assumption]].
  rewrite <- (string_of_list_ascii_of_string d), Hd.
  rewrite <- !app_assoc. simpl.
  rewrite (split_app_sep _ _ _ Hnd), Hsplit, (split_no_sep _ _ Hnodot). reflexivity.
Qed.

(** A name the domain pattern accepts has at least two labels, of 1 to 63
    characters each. *)
Lemma DOMAIN_RE_labels d :
  test DOMAIN_RE d = true ->
  Forall label_sized (split "." d) /\ (2 <= length (split "." d))%nat.
Proof.
  intros H. destruct (DOMAIN_RE_split d H) as (label & labels & tld & -> & Hmatch & Hlen & _).
  split.
  - apply Forall_app. split.
    + apply Forall_map. eapply List.Forall_impl; [|exact Hmatch].
      intros l Hl. apply domain_label_i_inv in Hl. unfold label_sized.
      rewrite length_string_of_list_ascii. tauto.
    + constructor; [|constructor]. unfold label_sized.
      rewrite length_string_of_list_ascii. lia.
  - rewrite length_app. simpl. lia.
Qed.

End DomainLabels.

Lemma some_false_Forall (labels : list string) :
  Forall label_sized labels ->
  some (fun label => (63 <? String.length label)%nat) labels = false.
Proof.
  unfold some. induction 1 as [|l labels [_ Hl] _ IH]; [reflexivity|].
  simpl. rewrite IH. destruct (Nat.ltb_spec 63 (String.length l)); [lia | reflexivity].
Qed.

(** What the domain checks can say. *)
Lemma check_domain_cases config :
  check_domain config [] = []
  \/ check_domain config [] = ["domain is required"]
  \/ check_domain config [] =
       ["domain must be a valid domain name (e.g., myapp.com, api.myapp.io)"]
  \/ check_domain config [] = ["domain name too long (max 253 characters)"].
Proof.
  unfold check_domain, push.
  destruct (truthy (domain config)); cbn [negb]; cbv iota; [|auto].
  destruct (Regex.test DOMAIN_RE (the (domain config))) eqn:Hre; cbn [negb]; cbv iota; [|auto].
  destruct (253 <? _)%nat; [auto 6|].
  rewrite some_false_Forall; [auto|]. apply DOMAIN_RE_labels. exact Hre.
Qed.

(** ** The validator, check by check *)

Lemma check_projectName_accepts config :
  check_projectName config [] = [] <->
  exists s, projectName config = Some s /\ shaped letter name_char s.
Proof.
  unfold check_projectName. split.
  - destruct (truthy (projectName config)) eqn:Ht; cbn [negb]; cbv iota;
      [|intros H; exfalso; revert H; apply push_not_nil].
    destruct (Regex.test PROJECT_NAME_RE (the (projectName config))) eqn:Hre;
      cbn [negb]; cbv iota; [|intros H; exfalso; revert H; apply push_not_nil].
    intros _. apply truthy_true_inv in Ht. destruct Ht as (s & Hs & _).
    exists s. split; [exact Hs|]. rewrite Hs in Hre. apply test_PROJECT_NAME_RE. exact Hre.
  - intros (s & Hs & Hshape). rewrite Hs. simpl the.
    rewrite (truthy_Some_ne s (shaped_nonempty _ _ _ Hshape)).
    apply test_PROJECT_NAME_RE in Hshape. rewrite Hshape. reflexivity.
Qed.

Lemma check_domain_accepts config :
  check_domain config [] = [] <->
  exists d, domain config = Some d /\ Regex.test DOMAIN_RE d = true
            /\ (String.length d <= 253)%nat.
Proof.
  unfold check_domain. split.
  - destruct (truthy (domain config)) eqn:Ht; cbn [negb]; cbv iota;
      [|intros H; exfalso; revert H; apply push_not_nil].
    destruct (Regex.test DOMAIN_RE (the (domain config))) eqn:Hre;
      cbn [negb]; cbv iota; [|intros H; exfalso; revert H; apply push_not_nil].
    destruct (Nat.ltb_spec 253 (String.length (the (domain config))));
      [intros H'; exfalso; revert H'; apply push_not_nil|].
    intros _. apply truthy_true_inv in Ht. destruct Ht as (d & Hd & _).
    exists d. rewrite Hd in *. auto.
  - intros (d & Hd & Hre & Hlen). rewrite Hd. simpl the.
    assert (Hne : d <> "") by (intros ->; vm_compute in Hre; discriminate).
    rewrite (truthy_Some_ne d Hne), Hre. cbn [negb]; cbv iota.
    destruct (Nat.ltb_spec 253 (String.length d)); [lia|].
    rewrite some_false_Forall; [reflexivity|]. apply DOMAIN_RE_labels. exact Hre.
Qed.

Lemma check_owner_accepts config :
  check_owner config [] = [] <->
  exists o, owner config = Some o /\ Regex.test EMAIL_RE o = true
            /\ (String.length o <= 254)%nat.
Proof.
  unfold check_owner. split.
  - destruct (truthy (owner config)) eqn:Ht; cbn [negb]; cbv iota;
      [|intros H; exfalso; revert H; apply push_not_nil].
    destruct (Regex.test EMAIL_RE (the (owner config))) eqn:Hre;
      cbn [negb]; cbv iota; [|intros H; exfalso; revert H; apply push_not_nil].
    destruct (Nat.ltb_spec 254 (String.length (the (owner config))));
      [intros H'; exfalso; revert H'; apply push_not_nil|].
    intros _. apply truthy_true_inv in Ht. destruct Ht as (o & Ho & _).
    exists o. rewrite Ho in *. auto.
  - intros (o & Ho & Hre & Hlen). rewrite Ho. simpl the.
    assert (Hne : o <> "") by (intros ->; vm_compute in Hre; discriminate).
    rewrite (truthy_Some_ne o Hne), Hre. cbn [negb]; cbv iota.
    destruct (Nat.ltb_spec 254 (String.length o)); [lia | reflexivity].
Qed.

Lemma concat_imap_nil {A B} (P : A -> Prop) (l : list A) : forall (f : nat -> A -> list B),
  (forall i a, f i a = [] <-> P a) ->
  (concat (imap f l) = [] <-> Forall P l).
Proof.
  induction l as [|a l IH]; intros f Hf; simpl.
  - split; [constructor | reflexivity].
  - specialize (IH (f ∘ S) (fun i a => Hf (S i) a)). split.
    + intros H. apply app_eq_nil in H. destruct H as [Ha Hl].
      constructor; [apply (Hf 0%nat); exact Ha | apply IH; exact Hl].
    + intros H. inversion H; subst. apply app_nil. split.
      * now apply (Hf 0%nat).
      * now apply IH.
Qed.

Lemma check_modules_accepts config :
  fst (check_modules config [] []) = [] <->
  exists ms, modules config = Some ms /\ Forall module_accepted ms.
Proof.
  unfold check_modules. destruct (modules config) as [ms|]; simpl.
  - destruct ms as [|m ms].
    + simpl. split; [eauto | reflexivity].
    + cbn [List.length Nat.eqb].
      assert (H : concat (imap (fun index module => validateModule module index) (m :: ms)) = []
                  <-> Forall module_accepted (m :: ms)).
      { apply concat_imap_nil. intros i a. apply validateModule_accepts. }
      destruct (List.length _ =? 0)%nat; cbn [fst app]; rewrite H; split.
      * eauto.
      * intros (ms' & [= <-] & Hall). exact Hall.
      * eauto.
      * intros (ms' & [= <-] & Hall). exact Hall.
  - split; [intros H; exfalso; revert H; apply push_not_nil|].
    intros (ms & [=] & _).
Qed.

Lemma validateConfig_accepts config :
  valid (validateConfig config) = true <-> project_accepted config.
Proof.
  rewrite validateConfig_valid, validateConfig_errors. unfold project_accepted.
  rewrite <- check_projectName_accepts, <- check_domain_accepts,
    <- check_owner_accepts, <- check_modules_accepts.
  rewrite !app_nil. tauto.
Qed.

(** The errors raised for the modules all start with [modules[]. *)
Lemma check_modules_errors_form config e :
  In e (fst (check_modules config [] [])) ->
  e = "modules array is required"
  \/ exists index complaint, In complaint MODULE_COMPLAINTS /\ e = at_position index complaint.
Proof.
  unfold check_modules. destruct (modules config) as [ms|]; simpl; [|intuition].
  destruct (List.length ms =? 0)%nat; [intros []|].
  assert (H : forall (f : nat -> nat),
             In e (concat (imap (fun index module => validateModule module (f index)) ms)) ->
             exists index complaint,
               In complaint MODULE_COMPLAINTS /\ e = at_position index complaint).
  { induction ms as [|m ms IH]; intros f; simpl; [intros []|].
    rewrite in_app_iff. intros [Hin|Hin].
    - destruct (validateModule_form m) as (cs & Hcs & Hincl & _).
      rewrite Hcs in Hin. apply in_map_iff in Hin. destruct Hin as (c & <- & Hc).
      exists (f 0%nat), c. split; [apply Hincl; exact Hc | reflexivity].
    - apply (IH (f ∘ S)). exact Hin. }
  intros Hin. right. apply (H (fun index => index)).
  destruct (List.length _ =? 0)%nat; exact Hin.
Qed.

Lemma check_projectName_cases config :
  check_projectName config [] = []
  \/ check_projectName config [] = ["projectName is required"]
  \/ check_projectName config [] =
       ["projectName must start with a letter, contain only letters, numbers, hyphens, and underscores, and be 1-100 chars"].
Proof.
  unfold check_projectName, push.
  repeat match goal with |- context [if ?b then _ else _] => destruct b end; auto.
Qed.

Lemma check_owner_cases config :
  check_owner config [] = []
  \/ check_owner config [] = ["owner email is required"]
  \/ check_owner config [] = ["owner must be a valid email address"]
  \/ check_owner config [] = ["email address too long (max 254 characters)"].
Proof.
  unfold check_owner, push.
  repeat match goal with |- context [if ?b then _ else _] => destruct b end; auto.
Qed.

Lemma length_concat_imap {A B} (n : nat) (l : list A) : forall (f : nat -> A -> list B),
  (forall i a, (List.length (f i a) <= n)%nat) ->
  (List.length (concat (imap f l)) <= n * List.length l)%nat.
Proof.
  induction l as [|a l IH]; intros f Hf; simpl; [lia|].
  rewrite length_app. specialize (IH (f ∘ S) (fun i a => Hf (S i) a)).
  specialize (Hf 0%nat a). lia.
Qed.

Lemma validateModule_at_most_three m index : (List.length (validateModule m index) <= 3)%nat.
Proof.
  destruct (validateModule_form m) as (cs & Hcs & _ & Hlen).
  rewrite Hcs, length_map. exact Hlen.
Qed.

Lemma check_modules_errors_length config :
  (List.length (fst (check_modules config [] []))
   <= match modules config with
      | Some ms => 3 * List.length ms
      | None => 1
      end)%nat.
Proof.
  unfold check_modules. destruct (modules config) as [ms|]; simpl; [|lia].
  destruct (List.length ms =? 0)%nat; [simpl; lia|].
  assert (H := length_concat_imap 3 ms (fun index module => validateModule module index)
                 (fun i a => validateModule_at_most_three a i)).
  destruct (List.length _ =? 0)%nat; exact H.
Qed.

(** X6: a project name raises no error exactly when it has 1 to 100
    characters, starts with a letter and goes on with letters, digits,
    hyphens and underscores, as the error message says; the name check says
    one thing at most. *)
Theorem projectName_accepted_shape (config : GrablinConfig) :
  (check_projectName config [] = [] <->
   exists s, projectName config = Some s /\ shaped letter name_char s)
  /\ (truthy (projectName config) = false <->
      check_projectName config [] = ["projectName is required"])
  /\ (List.length (check_projectName config []) <= 1)%nat.
Proof.
  split; [apply check_projectName_accepts|]. split.
  - unfold check_projectName, push.
    destruct (truthy (projectName config)); cbn [negb]; cbv iota.
    + destruct (Regex.test _ _); simpl; split; discriminate.
    + split; reflexivity.
  - destruct (check_projectName_cases config) as [-> | [-> | ->]]; simpl; lia.
Qed.

(** X7: [validateModule] raises nothing about a module exactly when its
    [kind] is one of the four kinds, its [type] is a non-empty string and its
    [moduleId] has 1 to 100 characters, starts with a lowercase letter, goes
    on with lowercase letters, digits and hyphens, and has no hyphen at its
    end and no two hyphens in a row.  The index, [layers] and [fieldValues]
    play no part. *)
Theorem module_accepted_at_any_index (m : ModuleConfig) (index : nat) :
  validateModule m index = [] <-> module_accepted m.
Proof. apply validateModule_accepts. Qed.

(** X8: every error of [validateConfig] is one of nine messages about
    the configuration or one of six complaints about a module placed at
    [modules[i]]; there are at most three errors for the scalar fields, one
    for a missing [modules] and three per module. *)
Theorem validateConfig_error_vocabulary (config : GrablinConfig) :
  (forall e, In e (errors (validateConfig config)) ->
     In e CONFIG_COMPLAINTS
     \/ exists index complaint,
          In complaint MODULE_COMPLAINTS /\ e = at_position index complaint)
  /\ (List.length (errors (validateConfig config))
      <= 3 + match modules config with
             | Some ms => 3 * List.length ms
             | None => 1
             end)%nat.
Proof.
  rewrite validateConfig_errors. split.
  - intros e. rewrite !in_app_iff. intros [H|[H|[H|H]]].
    + left. destruct (check_projectName_cases config) as [E|[E|E]]; rewrite E in H;
        simpl in H; unfold CONFIG_COMPLAINTS; simpl; intuition.
    + left. destruct (check_domain_cases config) as [E|[E|[E|E]]]; rewrite E in H;
        simpl in H; unfold CONFIG_COMPLAINTS; simpl; intuition.
    + left. destruct (check_owner_cases config) as [E|[E|[E|E]]]; rewrite E in H;
        simpl in H; unfold CONFIG_COMPLAINTS; simpl; intuition.
    + apply check_modules_errors_form in H. destruct H as [->|H]; [|right; exact H].
      left. unfold CONFIG_COMPLAINTS. simpl. intuition.
  - rewrite !length_app.
    pose proof (check_modules_errors_length config) as Hm.
    assert (Hp : (List.length (check_projectName config []) <= 1)%nat)
      by (destruct (check_projectName_cases config) as [-> | [-> | ->]]; simpl; lia).
    assert (Ho : (List.length (check_owner config []) <= 1)%nat)
      by (destruct (check_owner_cases config) as [-> | [-> | [-> | ->]]]; simpl; lia).
    pose proof (check_domain_at_most_one config) as Hd.
    lia.
Qed.

(** X9: the error "domain label too long (max 63 characters per label)"
    is never reported: a domain that passes the pattern has at least two
    labels of 1 to 63 characters each, so the label test that follows the
    pattern test never fires. *)
Theorem domain_label_error_unreachable (config : GrablinConfig) :
  ~ In LABEL_TOO_LONG (errors (validateConfig config))
  /\ (forall d, Regex.test DOMAIN_RE d = true ->
        Forall label_sized (split "." d) /\ (2 <= List.length (split "." d))%nat).
Proof.
  split; [|apply DOMAIN_RE_labels].
  rewrite validateConfig_errors, !in_app_iff. intros [H|[H|[H|H]]].
  - destruct (check_projectName_cases config) as [E|[E|E]]; rewrite E in H;
      simpl in H; intuition discriminate.
  - destruct (check_domain_cases config) as [E|[E|[E|E]]]; rewrite E in H;
      simpl in H; intuition discriminate.
  - destruct (check_owner_cases config) as [E|[E|[E|E]]]; rewrite E in H;
      simpl in H; intuition discriminate.
  - apply check_modules_errors_form in H.
    destruct H as [H|(index & complaint & _ & H)]; discriminate.
Qed.

(** X10: a configuration is valid exactly when its project name, domain
    and owner pass their checks and [modules] is an array whose modules all
    pass; [description], [environments], [provider], [vcs] and [version] play
    no part. *)
Theorem valid_iff_project_accepted (config : GrablinConfig) :
  (valid (validateConfig config) = true <-> project_accepted config)
  /\ (forall config',
        projectName config' = projectName config -> domain config' = domain config ->
        owner config' = owner config -> modules config' = modules config ->
        valid (validateConfig config') = valid (validateConfig config)).
Proof.
  split; [apply validateConfig_accepts|].
  intros config' Hp Hd Ho Hm.
  apply eq_true_iff_eq. rewrite !validateConfig_accepts. unfold project_accepted.
  rewrite Hp, Hd, Ho, Hm. reflexivity.
Qed.

(** X11: modules are checked one by one: a valid configuration stays
    valid when its modules are replaced by any selection of them, repeated
    or reordered.  In particular two modules may carry the same [moduleId]. *)
Theorem modules_checked_one_by_one (config : GrablinConfig)
    (ms selection : list ModuleConfig) :
  valid (validateConfig config) = true ->
  modules config = Some ms ->
  (forall m, In m selection -> In m ms) ->
  valid (validateConfig (with_modules config selection)) = true.
Proof.
  rewrite !validateConfig_accepts. unfold project_accepted.
  intros (Hp & Hd & Ho & (ms' & Hms' & Hall)) Hms Hsel.
  cbn [with_modules projectName domain owner modules].
  split; [exact Hp|]. split; [exact Hd|]. split; [exact Ho|].
  exists selection. split; [reflexivity|].
  assert (ms' = ms) as -> by congruence.
  rewrite List.Forall_forall in *. auto.
Qed.

Lemma modules_checked_one_by_one_witness :
  valid (validateConfig
           (with_modules sample_project
              [sample_module "extension" "auth0"; sample_module "extension" "auth0";
               sample_module "code" "react"])) = true.
Proof.
  apply (modules_checked_one_by_one sample_project
           [sample_module "code" "react"; sample_module "extension" "auth0"]).
  - vm_compute. reflexivity.
  - reflexivity.
  - simpl. intuition.
Defined.

(** X12: the three warnings: "No modules" for an empty [modules] array,
    "No code modules" for a non-empty one without a module of kind [code],
    "No environments" when [environments] is missing.  A missing [modules]
    raises no warning, and there are never more than two. *)
Theorem warnings_classified (config : GrablinConfig) :
  (In NO_MODULES (warnings (validateConfig config)) <-> modules config = Some [])
  /\ (In NO_CODE_MODULES (warnings (validateConfig config)) <->
      exists m ms, modules config = Some (m :: ms)
                   /\ Forall (fun m' => kind m' <> Some "code") (m :: ms))
  /\ (In NO_ENVIRONMENTS (warnings (validateConfig config)) <-> environments config = None)
  /\ (List.length (warnings (validateConfig config)) <= 2)%nat.
Proof.
  assert (Hfilter : forall ms : list ModuleConfig,
             (List.length (List.filter (fun m => bool_decide (kind m = Some "code")) ms) =? 0)%nat
               = true
             <-> Forall (fun m' => kind m' <> Some "code") ms).
  { induction ms as [|m ms IH]; simpl.
    - split; [constructor | reflexivity].
    - destruct (bool_decide_reflect (kind m = Some "code")) as [Hk|Hk]; simpl.
      + split; [discriminate|]. intros H. inversion H; subst. contradiction.
      + rewrite IH. split; [intros H; constructor; assumption|].
        intros H. inversion H; subst. assumption. }
  unfold validateConfig, check_modules, check_environments, push,
    NO_MODULES, NO_CODE_MODULES, NO_ENVIRONMENTS.
  destruct (modules config) as [[|m ms]|].
  - cbn [List.length Nat.eqb app fst snd errors warnings].
    destruct (environments config); cbn [app warnings In List.length];
      repeat split; try tauto; try lia; try discriminate;
      try (intros [H|H]; [discriminate H | tauto]);
      try (intros (? & ? & [=] & _)); intuition discriminate.
  - cbn [List.length Nat.eqb]. specialize (Hfilter (m :: ms)).
    destruct (List.length _ =? 0)%nat; cbn [app fst snd errors warnings];
      destruct (environments config); cbn [app warnings In List.length];
      repeat split; try tauto; try lia; try discriminate;
      try (intros [H|H]; [discriminate H | tauto]);
      try (intros _; exists m, ms; split; [reflexivity | apply Hfilter; reflexivity]);
      try (intros (m' & ms' & [= <- <-] & Hall); apply Hfilter in Hall; discriminate);
      intuition discriminate.
  - cbn [app fst snd errors warnings].
    destruct (environments config); cbn [app warnings In List.length];
      repeat split; try tauto; try lia; try discriminate;
      try (intros [H|H]; [discriminate H | tauto]);
      try (intros (? & ? & [=] & _)); intuition discriminate.
Qed.

(** ** The owner address *)

Section OwnerAddress.
Import Regex.
Local Open Scope list_scope.

Lemma host_label_chars l :
  Matches host_label l -> l <> [] /\ forallb host_char l = true.
Proof.
  unfold host_label, Opt. intros H.
  apply Matches_Seq_inv in H. destruct H as (s1 & s2 & -> & H1 & H2).
  apply Matches_Class_inv in H1. destruct H1 as (c & -> & Hc).
  split; [discriminate|].
  assert (Hc' : host_char c = true).
  { unfold host_char. unfold union in Hc. apply orb_true_iff in Hc.
    destruct Hc as [-> | ->]; [reflexivity | rewrite orb_true_r; reflexivity]. }
  simpl. rewrite Hc'. simpl.
  apply Matches_Alt_inv in H2. destruct H2 as [H2|H2].
  - apply Matches_Eps_inv in H2. subst. reflexivity.
  - apply Matches_Seq_inv in H2. destruct H2 as (mid & fin & -> & Hmid & Hfin).
    apply Matches_Repeat_Class in Hmid. destruct Hmid as [_ Hmid].
    apply Matches_Class_inv in Hfin. destruct Hfin as (c2 & -> & Hc2).
    rewrite forallb_app. apply andb_true_iff. split.
    + rewrite forallb_forall in *. intros x Hx. specialize (Hmid x Hx).
      unfold host_char. unfold union, one_of in Hmid. simpl in Hmid.
      rewrite orb_false_r in Hmid.
      destruct (letter x), (digit x), (Ascii.eqb x "-"); try discriminate; reflexivity.
    + simpl. rewrite andb_true_r. unfold host_char. unfold union in Hc2.
      apply orb_true_iff in Hc2.
      destruct Hc2 as [-> | ->]; [reflexivity | rewrite orb_true_r; reflexivity].
Qed.

Lemma host_tail_chars s :
  Matches (Star (Seq (Class (one_of ".")) host_label)) s -> forallb host_char s = true.
Proof.
  remember (Star (Seq (Class (one_of ".")) host_label)) as r eqn:Hr.
  induction 1 as [| | | | | |r' s1 s2 H1 _ H2 IH2| |]; try discriminate.
  - reflexivity.
  - injection Hr as ->. specialize (IH2 eq_refl).
    apply Matches_Seq_inv in H1. destruct H1 as (d & l & -> & Hd & Hl).
    apply Matches_Class_inv in Hd. destruct Hd as (c & -> & Hc).
    assert (c = "."%char) as ->.
    { unfold one_of in Hc. simpl in Hc. rewrite orb_false_r in Hc.
      now apply Ascii.eqb_eq in Hc. }
    apply host_label_chars in Hl. destruct Hl as [_ Hl].
    rewrite !forallb_app, Hl, IH2. reflexivity.
Qed.

Lemma Matches_Plus_Class p s :
  Matches (Plus (Class p)) s -> s <> [] /\ forallb p s = true.
Proof.
  unfold Plus. intros H.
  apply Matches_Seq_inv in H. destruct H as (s1 & s2 & -> & H1 & H2).
  apply Matches_Class_inv in H1. destruct H1 as (c & -> & Hc).
  apply Matches_Star_Class in H2. split; [discriminate|].
  simpl. rewrite Hc, H2. reflexivity.
Qed.

Lemma string_of_list_ascii_app l1 l2 :
  string_of_list_ascii (l1 ++ l2) = (string_of_list_ascii l1 ++ string_of_list_ascii l2)%string.
Proof. induction l1 as [|c l1 IH]; simpl; [reflexivity | now rewrite IH]. Qed.

End OwnerAddress.

(** X13: an owner address the validator takes has exactly one [@], with
    a non-empty local part in front of it and after it a non-empty host of
    letters, digits, hyphens and dots; the host needs no dot. *)
Theorem owner_accepted_shape (o : string) :
  Regex.test EMAIL_RE o = true ->
  exists local host,
    o = local ++ "@" ++ host
    /\ local <> "" /\ host <> ""
    /\ ~ In "@"%char (chars local)
    /\ forallb host_char (chars host) = true.
Proof.
  unfold Regex.test. rewrite matches_spec. unfold EMAIL_RE. intros H.
  apply Matches_Seq_inv in H. destruct H as (l & s1 & Ho & Hl & H).
  apply Matches_Plus_Class in Hl. destruct Hl as [Hlne Hl].
  apply Matches_Seq_inv in H. destruct H as (a & s2 & -> & Ha & H).
  apply Matches_Class_inv in Ha. destruct Ha as (c & -> & Hc).
  assert (c = "@"%char) as ->.
  { unfold Regex.one_of in Hc. simpl in Hc. rewrite orb_false_r in Hc.
    now apply Ascii.eqb_eq in Hc. }
  apply Matches_Seq_inv in H. destruct H as (h1 & h2 & -> & Hh1 & Hh2).
  apply host_label_chars in Hh1. destruct Hh1 as [Hh1ne Hh1].
  apply host_tail_chars in Hh2.
  exists (string_of_list_ascii l), (string_of_list_ascii (h1 ++ h2)%list).
  split; [|split; [|split; [|split]]].
  - rewrite <- (string_of_list_ascii_of_string o), Ho.
    rewrite string_of_list_ascii_app. reflexivity.
  - destruct l; [contradiction | discriminate].
  - destruct h1; [contradiction | discriminate].
  - unfold chars. rewrite list_ascii_of_string_of_list_ascii. intros Hin.
    rewrite forallb_forall in Hl. specialize (Hl _ Hin). vm_compute in Hl. discriminate.
  - unfold chars. rewrite list_ascii_of_string_of_list_ascii.
    rewrite forallb_app, Hh1, Hh2. reflexivity.
Qed.

Lemma owner_accepted_shape_witness :
  exists local host,
    "dev@localhost" = local ++ "@" ++ host
    /\ local <> "" /\ host <> ""
    /\ ~ In "@"%char (chars local)
    /\ forallb host_char (chars host) = true.
Proof. apply (owner_accepted_shape "dev@localhost"). reflexivity. Defined.

(** ** Config store: every property, other files, unreadable files *)

Lemma loadConfig_saved (path_resolve : string -> string) (fs : FileSystem)
    (config : GrablinConfig) (p : option string) :
  loadConfig path_resolve (snd (saveConfig path_resolve fs config p)) p
  = Return (Some (saved_document config)).
Proof.
  unfold loadConfig, saveConfig. simpl snd.
  rewrite lookup_insert_eq. rewrite parse_stringify. reflexivity.
Qed.

Local Ltac own_field x :=
  unfold own_properties; rewrite !assoc_last_app, !assoc_last_field; simpl;
  destruct (version _), x; reflexivity.

Lemma own_description config :
  assoc_last "description" (own_properties config) =
  (fun s => Some (JString s)) <$> description config.
Proof. own_field (description config). Qed.

Lemma own_owner config :
  assoc_last "owner" (own_properties config) = (fun s => Some (JString s)) <$> owner config.
Proof. own_field (owner config). Qed.

Lemma own_modules config :
  assoc_last "modules" (own_properties config) =
  (fun ms => Some (JArray (map module_json ms))) <$> modules config.
Proof. own_field (modules config). Qed.

Lemma own_environments config :
  assoc_last "environments" (own_properties config) =
  (fun xs => Some (strings_json xs)) <$> environments config.
Proof. own_field (environments config). Qed.

Lemma own_provider config :
  assoc_last "provider" (own_properties config) =
  (fun x => Some (or_null_json x)) <$> provider config.
Proof. own_field (provider config). Qed.

Lemma own_vcs config :
  assoc_last "vcs" (own_properties config) = (fun x => Some (or_null_json x)) <$> vcs config.
Proof. own_field (vcs config). Qed.

(** A module is written with the properties it has. *)
Lemma module_json_properties (m : ModuleConfig) :
  get "kind" (module_json m) = JString <$> kind m
  /\ get "type" (module_json m) = JString <$> type m
  /\ get "moduleId" (module_json m) = JString <$> moduleId m
  /\ get "layers" (module_json m) = strings_json <$> layers m
  /\ get "fieldValues" (module_json m) = JObject <$> fieldValues m.
Proof.
  unfold module_json, serializable, get.
  destruct (kind m), (type m), (moduleId m), (layers m), (fieldValues m);
    repeat split; reflexivity.
Qed.

(** X14: the file that [saveConfig] wrote loads back with every property
    of the configuration: [description] and [owner] as strings,
    [environments] as an array of strings, [modules] as an array of module
    objects that carry the [kind], [type], [moduleId], [layers] and
    [fieldValues] of each module, and [provider] and [vcs] as the string or
    the [null] they hold (the setup stores [null] for the choice "None", and
    [null] is written as [null]); a property the configuration lacks is
    absent from the document. *)
Theorem save_then_load_every_property (path_resolve : string -> string) (fs : FileSystem)
    (config : GrablinConfig) (p : option string) :
  exists document,
    loadConfig path_resolve (snd (saveConfig path_resolve fs config p)) p
      = Return (Some document)
    /\ get "description" document = JString <$> description config
    /\ get "owner" document = JString <$> owner config
    /\ get "modules" document = (fun ms => JArray (map module_json ms)) <$> modules config
    /\ get "environments" document = strings_json <$> environments config
    /\ get "provider" document = or_null_json <$> provider config
    /\ get "vcs" document = or_null_json <$> vcs config
    /\ (forall m, get "kind" (module_json m) = JString <$> kind m
                  /\ get "type" (module_json m) = JString <$> type m
                  /\ get "moduleId" (module_json m) = JString <$> moduleId m
                  /\ get "layers" (module_json m) = strings_json <$> layers m
                  /\ get "fieldValues" (module_json m) = JObject <$> fieldValues m).
Proof.
  exists (saved_document config). split; [apply loadConfig_saved|].
  unfold saved_document.
  repeat (split; [|try apply module_json_properties]).
  - rewrite saved_property, own_description. destruct (description config); reflexivity.
  - rewrite saved_property, own_owner. destruct (owner config); reflexivity.
  - rewrite saved_property, own_modules. destruct (modules config); reflexivity.
  - rewrite saved_property, own_environments. destruct (environments config); reflexivity.
  - rewrite saved_property, own_provider. destruct (provider config); reflexivity.
  - rewrite saved_property, own_vcs. destruct (vcs config); reflexivity.
Qed.

(** The configuration of a setup answered with "None" for the provider and
    for the host is saved with [provider] and [vcs] set to [null]. *)
Example setup_without_provider_saves_null (basicAnswers : Prompts.BasicAnswers)
    (stackAnswers : Prompts.StackAnswers) :
  get "provider"
      (saved_document (Prompts.promptForConfig basicAnswers stackAnswers local_only))
    = Some JNull
  /\ get "vcs"
        (saved_document (Prompts.promptForConfig basicAnswers stackAnswers local_only))
      = Some JNull.
Proof.
  unfold saved_document. rewrite !saved_property, own_provider, own_vcs.
  split; reflexivity.
Qed.


Lemma parse_value_blank fuel s : forallb is_ws s = true -> parse_value fuel s = None.
Proof.
  intros Hs. assert (Hskip : skip_ws s = []).
  { induction s as [|c s IH]; [reflexivity|]. simpl in *.
    apply andb_true_iff in Hs. destruct Hs as [Hc Hs]. rewrite Hc. auto. }
  destruct fuel; simpl; [reflexivity|]. rewrite Hskip. reflexivity.
Qed.

(** X16: a config file that is empty or holds blanks only does not load:
    [loadConfig] throws an [Error] whose message starts with "Failed to parse
    config file: ". *)
Theorem loadConfig_blank_file (path_resolve : string -> string) (fs : FileSystem)
    (p : option string) (content : string) :
  fs !! path_resolve (getConfigPath p) = Some content ->
  blank content = true ->
  exists reason,
    loadConfig path_resolve fs p = Throw (Error ("Failed to parse config file: " ++ reason)).
Proof.
  intros Hfile Hblank. unfold loadConfig. unfold getConfigPath in Hfile. rewrite Hfile.
  unfold parse. rewrite (parse_value_blank _ _ Hblank). simpl. eauto.
Qed.

Lemma loadConfig_blank_file_witness :
  exists reason,
    loadConfig (fun file => "/work/" ++ file) {[ "/work/grablin.json" := "  " ++ LF ]} None
    = Throw (Error ("Failed to parse config file: " ++ reason)).
Proof.
  apply (loadConfig_blank_file (fun file => "/work/" ++ file) _ None ("  " ++ LF));
    reflexivity.
Defined.

(** X17: the path that the commands compute with [getConfigPath] and
    pass on addresses the file the store would address by itself: the
    default of [getConfigPath] and the default of [loadConfig] and
    [saveConfig] are the same, and the path is never the empty string. *)
Theorem getConfigPath_agrees_with_store (path_resolve : string -> string)
    (fs : FileSystem) (config : GrablinConfig) (configOption : option string) :
  getConfigPath configOption <> ""
  /\ getConfigPath (Some (getConfigPath configOption)) = getConfigPath configOption
  /\ loadConfig path_resolve fs (Some (getConfigPath configOption))
     = loadConfig path_resolve fs configOption
  /\ saveConfig path_resolve fs config (Some (getConfigPath configOption))
     = saveConfig path_resolve fs config configOption.
Proof.
  assert (Hne : getConfigPath configOption <> "").
  { unfold getConfigPath, js_or. destruct (truthy configOption) eqn:Ht.
    - apply truthy_true_inv in Ht. destruct Ht as (s & -> & Hs). exact Hs.
    - discriminate. }
  assert (Hidem : the (js_or (Some (getConfigPath configOption)) (Some DEFAULT_CONFIG_FILE))
                  = the (js_or configOption (Some DEFAULT_CONFIG_FILE))).
  { unfold js_or at 1. rewrite (truthy_Some_ne _ Hne). reflexivity. }
  split; [exact Hne|]. split; [exact Hidem|].
  unfold loadConfig, saveConfig. rewrite Hidem. split; reflexivity.
Qed.

(** ** Interactive setup *)

Section PromptPatterns.
Import Regex.
Local Open Scope list_scope.

Lemma test_PROMPT_NAME_RE s :
  test PROMPT_NAME_RE s = true <->
  match s with
  | EmptyString => False
  | String c s' => letter c = true /\ forallb name_char (chars s') = true
  end.
Proof.
  unfold test, PROMPT_NAME_RE. rewrite matches_spec. split.
  - intros H. apply Matches_Seq_inv in H. destruct H as (s1 & s2 & Hs & H1 & H2).
    apply Matches_Class_inv in H1. destruct H1 as (c & -> & Hc).
    apply Matches_Star_Class in H2.
    destruct s as [|c' s']; simpl in Hs; [discriminate|].
    injection Hs as -> <-. split; [exact Hc|].
    rewrite <- (forallb_ext_eq _ _ _ name_char_class). exact H2.
  - destruct s as [|c s']; [tauto|]. intros [Hc Hall].
    change (list_ascii_of_string (String c s')) with ([c] ++ chars s').
    constructor; [constructor; exact Hc|]. apply Matches_Star_Class.
    rewrite (forallb_ext_eq _ _ _ name_char_class). exact Hall.
Qed.

End PromptPatterns.

Lemma push_extensions_app (extensions : list string) : forall modules,
  push_extensions modules extensions =
  (modules ++ map (fun ext => {| kind := Some "extension"; type := Some ext;
                                 moduleId := Some ext; layers := None;
                                 fieldValues := no_fieldValues |}) extensions)%list.
Proof.
  unfold push_extensions.
  induction extensions as [|ext extensions IH]; intros modules; simpl.
  - now rewrite app_nil_r.
  - rewrite IH, <- app_assoc. reflexivity.
Qed.

(** X18: the project-name question of the setup takes every name the
    validator takes, and the names it takes that the validator refuses are
    those of more than 100 characters. *)
Theorem name_prompt_vs_validator (s : string) :
  Regex.test PROJECT_NAME_RE s = true <->
  validate_projectName s = Valid /\ (String.length s <= 100)%nat.
Proof.
  rewrite test_PROJECT_NAME_RE. unfold validate_projectName, shaped.
  destruct (Regex.test PROMPT_NAME_RE s) eqn:Hre; cbn [negb]; cbv iota.
  - apply test_PROMPT_NAME_RE in Hre. destruct s as [|c s']; [tauto|]. tauto.
  - split.
    + intros H. exfalso.
      assert (Regex.test PROMPT_NAME_RE s = true); [|congruence].
      apply test_PROMPT_NAME_RE. destruct s as [|c s']; tauto.
    + intros [H _]. discriminate.
Qed.

Lemma warnings_of_environments config :
  (environments config = None -> In NO_ENVIRONMENTS (warnings (validateConfig config)))
  /\ (environments config <> None -> ~ In NO_ENVIRONMENTS (warnings (validateConfig config))).
Proof.
  unfold validateConfig, check_environments, check_modules, push, NO_ENVIRONMENTS.
  destruct (modules config) as [[|m ms]|]; cbn [List.length Nat.eqb];
    try destruct (List.length _ =? 0)%nat; cbn [warnings app];
    destruct (environments config); split; intros H; try congruence;
    cbn [In app]; try tauto; intuition discriminate.
Qed.

Lemma module_accepted_by_run (m : ModuleConfig) :
  validateModule m 0 = [] -> module_accepted m.
Proof. apply validateModule_accepts. Qed.

Lemma extension_module_accepted ext :
  chosen_from EXTENSION_CHOICES (Some ext) -> module_accepted (extension_module ext).
Proof.
  unfold chosen_from. cbn [map EXTENSION_CHOICES Prompts.value In].
  intros H. repeat (destruct H as [[= <-]|H]; [apply module_accepted_by_run; vm_compute; reflexivity|]).
  destruct H.
Qed.

Lemma extension_id_not_fixed ext :
  chosen_from EXTENSION_CHOICES (Some ext) -> ~ In (Some ext) FIXED_IDS.
Proof.
  unfold chosen_from. cbn [map EXTENSION_CHOICES Prompts.value In].
  intros H. repeat (destruct H as [[= <-]|H]; [cbn; intuition discriminate|]).
  destruct H.
Qed.

(** The modules of the configuration, group by group. *)
Lemma prompted_modules basicAnswers stackAnswers infraAnswers :
  modules (promptForConfig basicAnswers stackAnswers infraAnswers) =
  Some ((if truthy (frontend stackAnswers) then
           [ {| kind := Some "code"; type := frontend stackAnswers;
                moduleId := Some "frontend"; layers := Some ["frontend"; "cicd"];
                fieldValues := no_fieldValues |} ]
         else [])
        ++ (if truthy (backend stackAnswers) then
              [ {| kind := Some "code"; type := backend stackAnswers;
                   moduleId := Some "api"; layers := Some ["backend"; "cicd"];
                   fieldValues := no_fieldValues |} ]
            else [])
        ++ map extension_module (extensions stackAnswers)
        ++ (if truthy (infra_provider infraAnswers) then
              [ {| kind := Some "provider"; type := infra_provider infraAnswers;
                   moduleId := infra_provider infraAnswers; layers := Some ["ops"];
                   fieldValues := no_fieldValues |} ]
            else [])
        ++ (if truthy (infra_vcs infraAnswers) then
              [ {| kind := Some "vcs"; type := infra_vcs infraAnswers;
                   moduleId := infra_vcs infraAnswers; layers := Some ["cicd"];
                   fieldValues := no_fieldValues |} ]
            else []))%list.
Proof.
  unfold promptForConfig. cbn [modules]. rewrite push_extensions_app.
  fold extension_module.
  destruct (truthy (frontend stackAnswers)), (truthy (backend stackAnswers)),
    (truthy (infra_provider infraAnswers)), (truthy (infra_vcs infraAnswers));
    cbn [app]; rewrite <- ?app_assoc, ?app_nil_r; reflexivity.
Qed.

Lemma NoDup_map_Some {A} (l : list A) : List.NoDup l -> List.NoDup (map Some l).
Proof.
  induction 1 as [|x l Hx _ IH]; simpl; constructor; [|exact IH].
  rewrite in_map_iff. intros (y & [= ->] & Hy). contradiction.
Qed.

Lemma NoDup_around {A} (pre post mid : list A) :
  List.NoDup (pre ++ post) -> List.NoDup mid ->
  (forall x, In x mid -> ~ In x (pre ++ post)) ->
  List.NoDup (pre ++ mid ++ post).
Proof.
  induction pre as [|a pre IH]; intros Hpp Hmid Hdisj; simpl in *.
  - apply List.NoDup_app; [exact Hmid | exact Hpp | exact Hdisj].
  - inversion Hpp as [|? ? Ha Hpp']; subst. constructor.
    + rewrite !in_app_iff. rewrite in_app_iff in Ha. intros [H|[H|H]]; [tauto| |tauto].
      apply (Hdisj a H). left. reflexivity.
    + apply IH; [exact Hpp' | exact Hmid|].
      intros x Hx Hin. apply (Hdisj x Hx). right. exact Hin.
Qed.

(** X19: the modules that the setup builds from answers taken from its
    tables of choices all pass the validator, so the configuration is valid
    exactly when the three typed answers (project name, domain, owner) pass
    the validator's checks; the module ids are pairwise different when no
    extension is ticked twice; and [environments] is always an array, so the
    warning for missing environments is never raised. *)
Theorem prompted_modules_accepted (basicAnswers : BasicAnswers)
    (stackAnswers : StackAnswers) (infraAnswers : InfraAnswers) :
  answers_from_choices stackAnswers infraAnswers ->
  let config := promptForConfig basicAnswers stackAnswers infraAnswers in
  (exists ms, modules config = Some ms /\ Forall module_accepted ms)
  /\ (valid (validateConfig config) = true <->
      shaped letter name_char (basic_projectName basicAnswers)
      /\ (Regex.test DOMAIN_RE (basic_domain basicAnswers) = true
          /\ (String.length (basic_domain basicAnswers) <= 253)%nat)
      /\ (Regex.test EMAIL_RE (basic_owner basicAnswers) = true
          /\ (String.length (basic_owner basicAnswers) <= 254)%nat))
  /\ (List.NoDup (extensions stackAnswers) -> List.NoDup (module_ids config))
  /\ ~ In NO_ENVIRONMENTS (warnings (validateConfig config)).
Proof.
  intros (Hf & Hb & He & Hp & Hv) config.
  pose proof (prompted_modules basicAnswers stackAnswers infraAnswers) as Hms.
  fold config in Hms.
  unfold chosen_from in Hf, Hb, Hp, Hv.
  cbn [map FRONTEND_CHOICES BACKEND_CHOICES PROVIDER_CHOICES VCS_CHOICES Prompts.value In]
    in Hf, Hb, Hp, Hv.
  assert (Hall : exists ms, modules config = Some ms /\ Forall module_accepted ms).
  { eexists. split; [exact Hms|].
    repeat (apply Forall_app; split).
    - destruct Hf as [<-|[<-|[<-|[]]]]; cbn [truthy String.eqb negb]; cbv iota;
        repeat constructor; apply module_accepted_by_run; vm_compute; reflexivity.
    - destruct Hb as [<-|[<-|[<-|[]]]]; cbn [truthy String.eqb negb]; cbv iota;
        repeat constructor; apply module_accepted_by_run; vm_compute; reflexivity.
    - apply Forall_map. eapply List.Forall_impl; [|exact He].
      intros ext. apply extension_module_accepted.
    - destruct Hp as [<-|[<-|[<-|[]]]]; cbn [truthy String.eqb negb]; cbv iota;
        repeat constructor; apply module_accepted_by_run; vm_compute; reflexivity.
    - destruct Hv as [<-|[<-|[]]]; cbn [truthy String.eqb negb]; cbv iota;
        repeat constructor; apply module_accepted_by_run; vm_compute; reflexivity. }
  split; [exact Hall|]. split; [|split].
  - rewrite validateConfig_accepts. unfold project_accepted.
    change (projectName config) with (Some (basic_projectName basicAnswers)).
    change (domain config) with (Some (basic_domain basicAnswers)).
    change (owner config) with (Some (basic_owner basicAnswers)).
    split.
    + intros ((s & [= <-] & Hs) & (d & [= <-] & Hd) & (o & [= <-] & Ho) & _). tauto.
    + intros (Hs & Hd & Ho). repeat split; eauto.
  - intros Hnd. unfold module_ids. rewrite Hms.
    match goal with |- context [default [] (Some ?l)] => change (default [] (Some l)) with l end.
    rewrite !map_app, map_map. cbn [extension_module moduleId].
    rewrite app_assoc.
    replace (map (fun x : string => Some x) (extensions stackAnswers)
             ++ map moduleId
                  (if truthy (infra_provider infraAnswers)
                   then [ {| kind := Some "provider"; type := infra_provider infraAnswers;
                             moduleId := infra_provider infraAnswers;
                             layers := Some ["ops"]; fieldValues := no_fieldValues |} ]
                   else [])
             ++ map moduleId
                  (if truthy (infra_vcs infraAnswers)
                   then [ {| kind := Some "vcs"; type := infra_vcs infraAnswers;
                             moduleId := infra_vcs infraAnswers;
                             layers := Some ["cicd"]; fieldValues := no_fieldValues |} ]
                   else []))%list
      with (map (fun x : string => Some x) (extensions stackAnswers)
            ++ (map moduleId
                  (if truthy (infra_provider infraAnswers)
                   then [ {| kind := Some "provider"; type := infra_provider infraAnswers;
                             moduleId := infra_provider infraAnswers;
                             layers := Some ["ops"]; fieldValues := no_fieldValues |} ]
                   else [])
                ++ map moduleId
                  (if truthy (infra_vcs infraAnswers)
                   then [ {| kind := Some "vcs"; type := infra_vcs infraAnswers;
                             moduleId := infra_vcs infraAnswers;
                             layers := Some ["cicd"]; fieldValues := no_fieldValues |} ]
                   else [])))%list by reflexivity.
    apply NoDup_around.
    + destruct Hf as [<-|[<-|[<-|[]]]], Hb as [<-|[<-|[<-|[]]]],
        Hp as [<-|[<-|[<-|[]]]], Hv as [<-|[<-|[]]];
        cbn [truthy String.eqb negb map app moduleId]; cbv iota;
        repeat (constructor; [cbn [In]; intuition discriminate|]); constructor.
    + apply NoDup_map_Some. exact Hnd.
    + intros x Hx Hin. apply in_map_iff in Hx. destruct Hx as (ext & <- & Hext).
      rewrite List.Forall_forall in He. specialize (He ext Hext).
      apply (extension_id_not_fixed ext He). revert Hin.
      destruct Hf as [<-|[<-|[<-|[]]]], Hb as [<-|[<-|[<-|[]]]],
        Hp as [<-|[<-|[<-|[]]]], Hv as [<-|[<-|[]]];
        cbn [truthy String.eqb negb map app moduleId In]; cbv iota;
        unfold FIXED_IDS; cbn [In]; intuition.
  - apply warnings_of_environments. discriminate.
Qed.

Lemma prompted_modules_accepted_witness :
  valid (validateConfig (promptForConfig my_app full_stack on_aws)) = true.
Proof.
  apply (prompted_modules_accepted my_app full_stack on_aws).
  - unfold answers_from_choices, chosen_from. cbn.
    repeat split; repeat constructor; tauto.
  - cbn. repeat split; try reflexivity; lia.
Defined.

(** ** The environments typed in the setup *)

Lemma split_pieces (sep : ascii) (s : string) :
  Forall (fun piece => ~ In sep (chars piece)) (split sep s) /\ split sep s <> [].
Proof.
  induction s as [|c s [IH Hne]]; simpl.
  - split; [repeat constructor; simpl; tauto | discriminate].
  - destruct (Ascii.eqb_spec c sep) as [->|Hc].
    + split; [|discriminate]. constructor; [simpl; tauto | exact IH].
    + destruct (split sep s) as [|w ws]; [contradiction|].
      split; [|discriminate]. inversion IH; subst.
      constructor; [|assumption]. simpl. intros [H|H]; [congruence | contradiction].
Qed.

Lemma trimStart_chars c s : In c (chars (trimStart s)) -> In c (chars s).
Proof.
  induction s as [|a s IH]; simpl; [tauto|].
  destruct (is_space a); simpl; tauto.
Qed.

Lemma trimEnd_chars c s : In c (chars (trimEnd s)) -> In c (chars s).
Proof.
  induction s as [|a s IH]; simpl; [tauto|].
  destruct (trimEnd s) as [|b t].
  - destruct (is_space a); simpl; tauto.
  - simpl in *. tauto.
Qed.

Lemma trimStart_head s :
  trimStart s = "" \/ exists c t, trimStart s = String c t /\ is_space c = false.
Proof.
  induction s as [|a s IH]; simpl; [auto|].
  destruct (is_space a) eqn:Ha; [exact IH | right; eauto].
Qed.

Lemma trimEnd_idem s : trimEnd (trimEnd s) = trimEnd s.
Proof.
  induction s as [|a s IH]; simpl; [reflexivity|].
  destruct (trimEnd s) as [|b t] eqn:Ht.
  - destruct (is_space a) eqn:Ha; simpl; [reflexivity | now rewrite Ha].
  - change (trimEnd (String a (String b t)))
      with (match trimEnd (String b t) with
            | EmptyString => if is_space a then EmptyString else String a EmptyString
            | String b' t' => String a (String b' t')
            end).
    rewrite IH. reflexivity.
Qed.

Lemma trimEnd_head c t :
  is_space c = false -> exists t', trimEnd (String c t) = String c t'.
Proof.
  intros Hc. simpl. destruct (trimEnd t); [rewrite Hc|]; eauto.
Qed.

Lemma trim_trimmed s : trimmed (trim s).
Proof.
  unfold trimmed, trim. split; [|apply trimEnd_idem].
  destruct (trimStart_head s) as [->|(c & t & -> & Hc)]; [reflexivity|].
  destruct (trimEnd_head c t Hc) as (t' & ->). simpl. rewrite Hc. reflexivity.
Qed.

(** X20: the environments kept from the typed line are the pieces
    between its commas, with the white space at their ends removed and the
    empty ones dropped: no environment is empty, starts or ends with white
    space, or holds a comma. *)
Theorem environments_filter_clean (input : string) :
  Forall (fun environment =>
            environment <> "" /\ trimmed environment
            /\ ~ In ","%char (chars environment))
         (environments_filter input).
Proof.
  unfold environments_filter. apply List.Forall_forall. intros e He.
  apply filter_In in He. destruct He as [He Hne].
  apply in_map_iff in He. destruct He as (piece & <- & Hpiece).
  split; [|split].
  - apply truthy_true_inv in Hne. destruct Hne as (s & [= <-] & Hs). exact Hs.
  - apply trim_trimmed.
  - destruct (split_pieces "," input) as [Hall _].
    rewrite List.Forall_forall in Hall. specialize (Hall piece Hpiece).
    intros Hin. apply Hall. unfold trim in Hin.
    apply trimStart_chars, trimEnd_chars. exact Hin.
Qed.

Example environments_filter_default :
  environments_filter "dev, staging, prod" = ["dev"; "staging"; "prod"]
  /\ environments_filter " , ," = [].
Proof. split; reflexivity. Qed.

(** ** The domain question of the setup and the validator *)

Section PromptDomain.
Import Regex.
Local Open Scope list_scope.

Lemma endsWith_hyphen_last l c :
  endsWith (string_of_list_ascii (l ++ [c])) "-" = Ascii.eqb c "-".
Proof.
  induction l as [|a l IH].
  - simpl app. simpl string_of_list_ascii. apply (endsWith_hyphen_cons c "").
  - simpl app. simpl string_of_list_ascii. rewrite endsWith_hyphen_cons.
    destruct (string_of_list_ascii (l ++ [c])) eqn:E; [|exact IH].
    destruct l; discriminate.
Qed.

Lemma ignore_case_incl (p : ascii -> bool) c : p c = true -> ignore_case p c = true.
Proof. intros H. unfold ignore_case. rewrite H. reflexivity. Qed.

Lemma forallb_ignore_case (p : ascii -> bool) l :
  forallb p l = true -> forallb (ignore_case p) l = true.
Proof.
  rewrite !forallb_forall. intros H c Hc. apply ignore_case_incl, H, Hc.
Qed.

(** The names the domain question takes: a first character that is a
    lowercase letter or a digit, more of these or hyphens, a dot, and two or
    more lowercase letters. *)
Lemma test_PROMPT_DOMAIN_RE d :
  test PROMPT_DOMAIN_RE d = true <->
  exists c rest tld,
    chars d = (c :: rest) ++ "."%char :: tld
    /\ union lower digit c = true /\ forallb id_char rest = true
    /\ forallb lower tld = true /\ (2 <= length tld)%nat.
Proof.
  unfold test, PROMPT_DOMAIN_RE. rewrite matches_spec. split.
  - intros H.
    apply Matches_Seq_inv in H. destruct H as (s1 & s2 & Hs & H1 & H).
    apply Matches_Class_inv in H1. destruct H1 as (c & -> & Hc).
    apply Matches_Seq_inv in H. destruct H as (rest & s3 & -> & Hrest & H).
    apply Matches_Star_Class in Hrest.
    apply Matches_Seq_inv in H. destruct H as (dt & s4 & -> & Hdot & H).
    apply Matches_Class_inv in Hdot. destruct Hdot as (c' & -> & Hc').
    assert (c' = "."%char) as ->.
    { unfold one_of in Hc'. simpl in Hc'. rewrite orb_false_r in Hc'.
      now apply Ascii.eqb_eq in Hc'. }
    apply Matches_Seq_inv in H. destruct H as (t2 & t' & -> & Ht2 & Ht').
    apply Matches_Repeat_Class in Ht2. destruct Ht2 as [Hlen Hall2].
    apply Matches_Star_Class in Ht'.
    exists c, rest, (t2 ++ t'). split; [|split; [exact Hc|split; [|split]]].
    + unfold chars. rewrite Hs. reflexivity.
    + rewrite <- (forallb_ext_eq _ _ _ id_char_class). exact Hrest.
    + rewrite forallb_app, Hall2, Ht'. reflexivity.
    + rewrite length_app. lia.
  - intros (c & rest & tld & Hs & Hc & Hrest & Htld & Hlen).
    unfold chars in Hs. rewrite Hs.
    destruct tld as [|a [|b t']]; simpl in Hlen; try lia.
    simpl in Htld. apply andb_true_iff in Htld. destruct Htld as [Ha Htld].
    apply andb_true_iff in Htld. destruct Htld as [Hb Ht'].
    change ((c :: rest) ++ "."%char :: a :: b :: t')
      with ([c] ++ (rest ++ (["."%char] ++ ([a; b] ++ t')))).
    constructor; [constructor; exact Hc|].
    constructor.
    { apply Matches_Star_Class. rewrite (forallb_ext_eq _ _ _ id_char_class). exact Hrest. }
    constructor; [constructor; reflexivity|].
    constructor.
    { apply Matches_Repeat_Class. simpl. rewrite Ha, Hb. split; [lia | reflexivity]. }
    apply Matches_Star_Class. exact Ht'.
Qed.

(** A label of the domain pattern ends in a letter or a digit. *)
Lemma domain_label_i_last l :
  Matches domain_label_i l ->
  endsWith (string_of_list_ascii l) "-" = false.
Proof.
  unfold domain_label_i, Opt. intros H.
  apply Matches_Seq_inv in H. destruct H as (s1 & s2 & -> & H1 & H2).
  apply Matches_Class_inv in H1. destruct H1 as (c & -> & Hc).
  apply Matches_Alt_inv in H2. destruct H2 as [H2|H2].
  - apply Matches_Eps_inv in H2. subst. rewrite app_nil_r.
    change [c] with ([] ++ [c]). rewrite endsWith_hyphen_last.
    apply Ascii.eqb_neq. intros ->. vm_compute in Hc. discriminate.
  - apply Matches_Seq_inv in H2. destruct H2 as (mid & fin & -> & _ & Hfin).
    apply Matches_Class_inv in Hfin. destruct Hfin as (c2 & -> & Hc2).
    rewrite app_assoc, endsWith_hyphen_last.
    apply Ascii.eqb_neq. intros ->. vm_compute in Hc2. discriminate.
Qed.

(** A label of lowercase letters, digits and hyphens that is short enough
    and does not end in a hyphen is a label of the domain pattern. *)
Lemma domain_label_i_intro c rest :
  union lower digit c = true -> forallb id_char rest = true ->
  (length (c :: rest) <= 63)%nat ->
  endsWith (string_of_list_ascii (c :: rest)) "-" = false ->
  Matches domain_label_i (c :: rest).
Proof.
  intros Hc Hrest Hlen Hend. unfold domain_label_i, Opt.
  change (c :: rest) with ([c] ++ rest).
  constructor; [constructor; apply ignore_case_incl; exact Hc|].
  destruct rest as [|x rest'] using rev_ind; [apply MAltL; constructor|].
  clear IHrest'. apply MAltR.
  rewrite forallb_app in Hrest. apply andb_true_iff in Hrest. destruct Hrest as [Hmid Hx].
  simpl in Hx. rewrite andb_true_r in Hx.
  change (c :: rest' ++ [x]) with ((c :: rest') ++ [x]) in Hend.
  rewrite endsWith_hyphen_last in Hend.
  simpl in Hlen. rewrite length_app in Hlen. simpl in Hlen.
  constructor.
  - apply Matches_Repeat_Class. split; [lia|].
    apply forallb_ignore_case. rewrite (forallb_ext_eq _ _ _ id_char_class). exact Hmid.
  - constructor. apply ignore_case_incl. unfold id_char in Hx. unfold union.
    rewrite Hend, orb_false_r in Hx. exact Hx.
Qed.

End PromptDomain.

Lemma string_of_list_ascii_inj l1 l2 :
  string_of_list_ascii l1 = string_of_list_ascii l2 -> l1 = l2.
Proof.
  intros H. apply (f_equal list_ascii_of_string) in H.
  now rewrite !list_ascii_of_string_of_list_ascii in H.
Qed.

(** X21: a name the domain question of the setup takes has two labels,
    and the validator takes it exactly when its first label has at most 63
    characters and does not end in a hyphen and its last has at most 24.
    (The question takes no name of three labels or more, such as the
    [api.myapp.io] that the validator's message gives as an example.) *)
Theorem domain_prompt_vs_validator (d : string) :
  validate_domain d = Valid ->
  exists label tld,
    split "." d = [label; tld]
    /\ (Regex.test DOMAIN_RE d = true <->
        (String.length label <= 63)%nat /\ endsWith label "-" = false
        /\ (String.length tld <= 24)%nat).
Proof.
  unfold validate_domain.
  destruct (Regex.test PROMPT_DOMAIN_RE d) eqn:Hprompt; cbn [negb]; cbv iota; [|discriminate].
  intros _. apply test_PROMPT_DOMAIN_RE in Hprompt.
  destruct Hprompt as (c & rest & tld & Hd & Hc & Hrest & Htld & Hlen).
  assert (Hc' : c <> "."%char) by (intros ->; vm_compute in Hc; discriminate).
  assert (Hnd : Forall (fun x => x <> "."%char) (c :: rest)).
  { constructor; [exact Hc'|]. eapply forallb_no_sep; [|exact Hrest]. reflexivity. }
  assert (Hnt : Forall (fun x => x <> "."%char) tld).
  { eapply forallb_no_sep; [|exact Htld]. reflexivity. }
  assert (Hsplit : split "." d = [string_of_list_ascii (c :: rest); string_of_list_ascii tld]).
  { rewrite <- (string_of_list_ascii_of_string d). unfold chars in Hd. rewrite Hd.
    rewrite (split_app_sep _ _ _ Hnd), (split_no_sep _ _ Hnt). reflexivity. }
  exists (string_of_list_ascii (c :: rest)), (string_of_list_ascii tld).
  split; [exact Hsplit|]. rewrite !length_string_of_list_ascii. split.
  - intros Hre. destruct (DOMAIN_RE_split d Hre) as (l & ls & tld' & Hs & Hmatch & Hl24 & _).
    rewrite Hsplit in Hs. destruct ls as [|l2 ls]; cbn [map app] in Hs.
    + injection Hs as Hl Ht.
      change (String c (string_of_list_ascii rest))
        with (string_of_list_ascii (c :: rest)) in Hl.
      apply string_of_list_ascii_inj in Hl, Ht. subst l tld'.
      inversion Hmatch as [|? ? Hm _]; subst.
      split; [apply (domain_label_i_inv _ Hm)|].
      split; [apply (domain_label_i_last _ Hm) | lia].
    + injection Hs as _ Hs. destruct ls; discriminate.
  - intros (Hl63 & Hend & Hl24). unfold Regex.test. apply matches_spec.
    unfold chars in Hd. rewrite Hd. unfold DOMAIN_RE, Regex.Plus.
    replace ((c :: rest) ++ "."%char :: tld)%list
      with ((((c :: rest) ++ ["."%char]) ++ []) ++ tld)%list
      by (rewrite app_nil_r, <- app_assoc; reflexivity).
    constructor.
    + constructor; [|constructor].
      constructor; [|constructor; reflexivity].
      apply domain_label_i_intro; assumption.
    + apply Matches_Repeat_Class. split; [lia|].
      apply forallb_ignore_case. exact Htld.
Qed.

Lemma domain_prompt_vs_validator_witness :
  exists label tld,
    split "." "my-app-.com" = [label; tld]
    /\ (Regex.test DOMAIN_RE "my-app-.com" = true <->
        (String.length label <= 63)%nat /\ endsWith label "-" = false
        /\ (String.length tld <= 24)%nat).
Proof. apply (domain_prompt_vs_validator "my-app-.com"). reflexivity. Defined.

Example trailing_hyphen_domain :
  validate_domain "my-app-.com" = Valid /\ Regex.test DOMAIN_RE "my-app-.com" = false
  /\ validate_domain "api.myapp.io" <> Valid /\ Regex.test DOMAIN_RE "api.myapp.io" = true.
Proof. repeat split; vm_compute; discriminate || reflexivity. Qed.

(** ** The [whoami] command *)

Lemma run_whoami_with_token env net :
  hasToken env = true ->
  run_whoami env net =
  let '(res, w') := getGitHubUser env {| network := net; trace := [] |} in
  match res with
  | Return None =>
      {| printed := [SpinnerStart "Fetching user info"; SpinnerStop;
                    LoggerError "Invalid or expired token."];
         exitCode := Some 1%Z; world := w' |}
  | Return (Some user) =>
      {| printed :=
           ([SpinnerStart "Fetching user info"; SpinnerStop; ConsoleLog "";
             LoggerSection "Authenticated User"; LoggerKv "Username" (login user)]
            ++ (if truthy (name user) then [LoggerKv "Name" (default "" (name user))] else [])
            ++ (if truthy (email user) then [LoggerKv "Email" (default "" (email user))] else [])
            ++ [LoggerKv "User ID" (pretty (id user)); ConsoleLog ""])%list;
         exitCode := None; world := w' |}
  | Throw error =>
      {| printed := [SpinnerStart "Fetching user info"; SpinnerFail "Failed to fetch user info";
                    LoggerError (message_of error)];
         exitCode := Some 1%Z; world := w' |}
  end.
Proof.
  intros Htok. unfold run_whoami, whoamiCommand. rewrite Htok. cbn [negb].
  destruct (getGitHubUser env _) as [[[user|]|error] w']; reflexivity.
Qed.

Lemma run_getGitHubUser_eq env net :
  run_getGitHubUser env net =
  (fst (getGitHubUser env {| network := net; trace := [] |}),
   trace (snd (getGitHubUser env {| network := net; trace := [] |}))).
Proof. unfold run_getGitHubUser. destruct (getGitHubUser env _); reflexivity. Qed.

Lemma not_In_app_output (x : Output) (l1 l2 : list Output) :
  ~ In x l1 -> ~ In x l2 -> ~ In x (l1 ++ l2)%list.
Proof. rewrite in_app_iff. tauto. Qed.

(** X22: [whoami] ends with exit code 1 exactly when a credential is set
    and the lookup yields no user (it returned none or rejected); it
    performs the effects of the lookup and no other, so at most three
    requests, and none at all without a credential. *)
Theorem whoami_exit_code (env : ProcessEnv) (net : nat -> FetchOutcome) :
  (exitCode (run_whoami env net) = Some 1%Z <->
   hasToken env = true /\ forall user, fst (run_getGitHubUser env net) <> Return (Some user))
  /\ (exitCode (run_whoami env net) = None \/ exitCode (run_whoami env net) = Some 1%Z)
  /\ trace (world (run_whoami env net)) = snd (run_getGitHubUser env net)
  /\ (fetch_count (trace (world (run_whoami env net))) <= maxRetries)%nat
  /\ (hasToken env = false -> trace (world (run_whoami env net)) = []).
Proof.
  destruct (hasToken env) eqn:Htok.
  - rewrite (run_whoami_with_token env net Htok), (run_getGitHubUser_eq env net).
    assert (Hbound : (fetch_count (trace (snd (getGitHubUser env {| network := net; trace := [] |})))
                      <= maxRetries)%nat).
    { unfold getGitHubUser. rewrite Htok. cbn [negb].
      destruct (getToken_hasToken env Htok) as (t & _ & _ & Ht).
      destruct (retry_loop_shape env t maxRetries 0 {| network := net; trace := [] |} Ht)
        as (res & w' & n & stopped & Hr & Htr & Hn).
      rewrite Hr. cbn [snd]. rewrite Htr. cbn [trace app].
      rewrite fetch_count_app, retried_trace_fetch_count.
      destruct stopped; [change (fetch_count [identity_request t]) with 1%nat
                        | change (fetch_count []) with 0%nat]; lia. }
    destruct (getGitHubUser env _) as [[[user|]|error] w']; cbn [fst snd exitCode world] in *;
      (split; [|split; [auto|split; [reflexivity|split; [exact Hbound | discriminate]]]]).
    + split; [discriminate|]. intros [_ H]. exfalso. apply (H user). reflexivity.
    + split; [|reflexivity]. intros _. split; [reflexivity | discriminate].
    + split; [|reflexivity]. intros _. split; [reflexivity | discriminate].
  - unfold run_whoami, whoamiCommand. rewrite Htok. cbn [negb exitCode world trace].
    rewrite (getGitHubUser_no_credential env net Htok). cbn [snd].
    split; [|split; [auto|split; [reflexivity|split; [apply Nat.le_0_l | reflexivity]]]].
    split; [discriminate | intros [H _]; discriminate].
Qed.

(** X23: with a credential, [whoami] reports "Failed to fetch user info"
    exactly when the lookup was ended by a 2xx response whose body does not
    decode; a network that fails or a server that answers outside 200..499
    on all three attempts is reported as "Invalid or expired token.". *)
Theorem whoami_failure_reports (env : ProcessEnv) (net : nat -> FetchOutcome) :
  hasToken env = true ->
  (In (SpinnerFail "Failed to fetch user info") (printed (run_whoami env net)) <->
   exists k r e, settles_at net k r /\ json r = Throw e)
  /\ ((forall j, (j < maxRetries)%nat -> retried (net j) = true) ->
      printed (run_whoami env net) =
        [SpinnerStart "Fetching user info"; SpinnerStop;
         LoggerError "Invalid or expired token."]
      /\ exitCode (run_whoami env net) = Some 1%Z).
Proof.
  intros Htok.
  destruct (getToken_hasToken env Htok) as (t & _ & _ & Ht).
  pose proof (run_getGitHubUser_eq env net) as Hrun.
  pose proof (run_whoami_with_token env net Htok) as Hw.
  split.
  - split.
    + intros Hin. rewrite Hw in Hin.
      destruct (getGitHubUser env _) as [[[user|]|error] w'] eqn:Hget;
        cbn [printed] in Hin.
      * exfalso. revert Hin. apply not_In_app_output; [cbn; intuition discriminate|].
        apply not_In_app_output; [destruct (truthy (name user)); cbn; intuition discriminate|].
        apply not_In_app_output; [destruct (truthy (email user)); cbn; intuition discriminate|].
        cbn; intuition discriminate.
      * exfalso. cbn in Hin. intuition discriminate.
      * unfold getGitHubUser in Hget. rewrite Htok in Hget. cbn [negb] in Hget.
        apply (retry_loop_throws env t) in Hget; [|exact Ht | reflexivity].
        destruct Hget as (k & r & Hk & Hretry & Hn & Hok & Hj).
        exists k, r, error. split; [|exact Hj]. unfold settles_at.
        split; [lia|]. split; [intros j Hj'; apply Hretry; lia | auto].
    + intros (k & r & e & (Hk & Hretry & Hn & Hok) & Hj).
      pose proof (run_settles env net t k r Htok Ht Hk Hretry Hn Hok) as Hs.
      rewrite Hj, Hrun in Hs. injection Hs as Hres _.
      rewrite Hw. destruct (getGitHubUser env _) as [res w']. cbn [fst] in Hres. subst res.
      cbn. tauto.
  - intros Hretry.
    assert (Hnone : fst (getGitHubUser env {| network := net; trace := [] |}) = Return None).
    { unfold getGitHubUser. rewrite Htok. cbn [negb].
      replace maxRetries with (maxRetries + 0)%nat at 1 by lia.
      rewrite (retry_loop_retried env t maxRetries 0 0 {| network := net; trace := [] |}
                 Ht eq_refl)
        by (try lia; intros j Hj; apply Hretry; lia).
      rewrite retry_loop_exhausted by (simpl; lia). reflexivity. }
    rewrite Hw. destruct (getGitHubUser env _) as [res w']. cbn [fst] in Hnone. subst res.
    split; reflexivity.
Qed.

Lemma whoami_failure_reports_witness :
  printed (run_whoami token_env unreachable_network) =
    [SpinnerStart "Fetching user info"; SpinnerStop; LoggerError "Invalid or expired token."]
  /\ exitCode (run_whoami token_env unreachable_network) = Some 1%Z.
Proof.
  apply (whoami_failure_reports token_env unreachable_network); [reflexivity|].
  intros j _. reflexivity.
Defined.

(** ** The [list] command *)

Lemma own_property_assign {A} (obj : list (string * A)) key a k :
  own_property (assign obj key a) k =
  if (key =? k)%string then Some a else own_property obj k.
Proof.
  induction obj as [|[k' a'] obj IH]; simpl.
  - reflexivity.
  - destruct (String.eqb_spec k' key) as [->|Hne]; simpl.
    + destruct (key =? k)%string; reflexivity.
    + rewrite IH. destruct (String.eqb_spec k' k) as [->|Hne'].
      * destruct (String.eqb_spec key k) as [->|_]; [contradiction | reflexivity].
      * reflexivity.
Qed.

Lemma inherited_name_spec key :
  existsb (String.eqb key) OBJECT_PROTOTYPE = true <-> In key OBJECT_PROTOTYPE.
Proof. apply existsb_String_eqb. Qed.

Lemma of_kind_cons k module modules :
  of_kind k (module :: modules) =
  if (kind_or_unknown module =? k)%string then module :: of_kind k modules
  else of_kind k modules.
Proof. reflexivity. Qed.

(** The first loop, when no kind is inherited: every group gathers the
    modules of its kind. *)
Lemma group_loop_returns (modules : list ModuleInfo) : forall groups,
  Forall (fun module => ~ inherited_kind module) modules ->
  exists groups',
    group_loop modules groups = Return groups'
    /\ forall k, own_property groups' k =
                 match own_property groups k with
                 | Some items => Some (items ++ of_kind k modules)%list
                 | None => match of_kind k modules with
                           | [] => None
                           | items => Some items
                           end
                 end.
Proof.
  induction modules as [|module modules IH]; intros groups Hall.
  - exists groups. split; [reflexivity|]. intros k.
    destruct (own_property groups k); [rewrite app_nil_r|]; reflexivity.
  - inversion Hall as [|? ? Hm Hrest]; subst.
    cbn [group_loop]. fold (kind_or_unknown module).
    assert (Hnot : existsb (String.eqb (kind_or_unknown module)) OBJECT_PROTOTYPE = false).
    { apply not_true_is_false. rewrite inherited_name_spec. exact Hm. }
    unfold member. rewrite Hnot.
    destruct (own_property groups (kind_or_unknown module)) as [items|] eqn:Hown.
    + destruct (IH (assign groups (kind_or_unknown module) (items ++ [module])%list) Hrest)
        as (groups' & Hrun & Hspec).
      exists groups'. split; [exact Hrun|]. intros k. rewrite Hspec, own_property_assign.
      rewrite of_kind_cons.
      destruct (String.eqb_spec (kind_or_unknown module) k) as [<-|Hne].
      * rewrite Hown, <- app_assoc. reflexivity.
      * reflexivity.
    + destruct (IH (assign groups (kind_or_unknown module) ([] ++ [module])%list) Hrest)
        as (groups' & Hrun & Hspec).
      exists groups'. split; [exact Hrun|]. intros k. rewrite Hspec, own_property_assign.
      rewrite of_kind_cons.
      destruct (String.eqb_spec (kind_or_unknown module) k) as [<-|Hne].
      * rewrite Hown. reflexivity.
      * reflexivity.
Qed.

(** The first loop throws at the first module whose kind is inherited. *)
Lemma group_loop_throws (modules : list ModuleInfo) : forall groups,
  (forall k, In k OBJECT_PROTOTYPE -> own_property groups k = None) ->
  Exists inherited_kind modules ->
  group_loop modules groups = Throw (TypeError "groups[kind].push is not a function").
Proof.
  induction modules as [|module modules IH]; intros groups Hinv Hex.
  - inversion Hex.
  - cbn [group_loop]. fold (kind_or_unknown module). unfold member.
    destruct (in_dec string_dec (kind_or_unknown module) OBJECT_PROTOTYPE) as [Hin|Hnin].
    + rewrite (Hinv _ Hin). apply inherited_name_spec in Hin. rewrite Hin. reflexivity.
    + assert (Hrest : Exists inherited_kind modules).
      { inversion Hex; subst; [contradiction | assumption]. }
      assert (Hnot : existsb (String.eqb (kind_or_unknown module)) OBJECT_PROTOTYPE = false).
      { apply not_true_is_false. rewrite inherited_name_spec. exact Hnin. }
      rewrite Hnot.
      destruct (own_property groups (kind_or_unknown module)) as [items|];
        apply IH; try exact Hrest; intros k Hk; rewrite own_property_assign;
        (destruct (String.eqb_spec (kind_or_unknown module) k) as [<-|_];
         [contradiction | apply Hinv; exact Hk]).
Qed.

Lemma sort_loop_priority (modules : list ModuleInfo) groups :
  (forall k, own_property groups k = match of_kind k modules with
                                     | [] => None
                                     | items => Some items
                                     end) ->
  sort_loop priority groups [] = grouped modules.
Proof.
  intros Hspec. unfold priority, grouped. cbn [sort_loop]. unfold member.
  rewrite !Hspec. cbn [omap list_omap priority].
  destruct (of_kind "code" modules), (of_kind "extension" modules),
    (of_kind "provider" modules), (of_kind "vcs" modules), (of_kind "unknown" modules);
    reflexivity.
Qed.

Lemma groupByKind_returns modules :
  Forall (fun module => ~ inherited_kind module) modules ->
  groupByKind modules = Return (grouped modules).
Proof.
  intros Hall. unfold groupByKind.
  destruct (group_loop_returns modules [] Hall) as (groups & -> & Hspec).
  rewrite (sort_loop_priority modules groups); [reflexivity|].
  intros k. rewrite Hspec. reflexivity.
Qed.

Lemma In_grouped modules k items :
  In (k, items) (grouped modules) <->
  In k priority /\ items = of_kind k modules /\ items <> [].
Proof.
  unfold grouped. rewrite <- list_elem_of_In, list_elem_of_omap. split.
  - intros (k' & Hk' & Hsome). apply list_elem_of_In in Hk'.
    destruct (of_kind k' modules) as [|m ms] eqn:Hof; [discriminate|].
    injection Hsome as <- <-. rewrite Hof. repeat split; [exact Hk' | discriminate].
  - intros (Hk & -> & Hne). exists k. split; [apply list_elem_of_In; exact Hk|].
    destruct (of_kind k modules); [contradiction | reflexivity].
Qed.

(** X24: [groupByKind] returns, for the kinds code, extension, provider,
    vcs and unknown in this order, the non-empty groups of the modules of
    that kind in the order given (a module without kind counts as unknown);
    a module of any other kind is in no group.  When the kind of a module
    names a member of [Object.prototype], such as [constructor] or
    [toString], the function throws a [TypeError] instead. *)
Theorem groupByKind_spec (modules : list ModuleInfo) :
  (Forall (fun module => ~ inherited_kind module) modules ->
   groupByKind modules = Return (grouped modules))
  /\ (Exists inherited_kind modules ->
      groupByKind modules = Throw (TypeError "groups[kind].push is not a function"))
  /\ (forall module,
        (exists k items, In (k, items) (grouped modules) /\ In module items) <->
        In module modules /\ In (kind_or_unknown module) priority).
Proof.
  split; [apply groupByKind_returns|]. split.
  - intros Hex. unfold groupByKind.
    rewrite (group_loop_throws modules []); [reflexivity | reflexivity | exact Hex].
  - intros module. split.
    + intros (k & items & Hin & Hm). apply In_grouped in Hin.
      destruct Hin as (Hk & -> & _). unfold of_kind in Hm. apply filter_In in Hm.
      destruct Hm as [Hm Heq]. apply String.eqb_eq in Heq. subst k. auto.
    + intros [Hm Hk]. exists (kind_or_unknown module), (of_kind (kind_or_unknown module) modules).
      assert (Hin : In module (of_kind (kind_or_unknown module) modules)).
      { unfold of_kind. apply filter_In. split; [exact Hm | apply String.eqb_refl]. }
      split; [|exact Hin]. apply In_grouped. repeat split; [exact Hk|].
      intros Hnil. rewrite Hnil in Hin. destruct Hin.
Qed.

(** X25: the title printed for a group that [groupByKind] returned is
    one of the five titles of the table: the fallback of [formatKindTitle]
    to the kind itself is not used there. *)
Theorem group_titles (modules : list ModuleInfo) (sorted : list (string * list ModuleInfo))
    (k : string) (items : list ModuleInfo) :
  groupByKind modules = Return sorted ->
  In (k, items) sorted ->
  exists title, formatKindTitle k = Str title /\ In title TITLES /\ title <> k.
Proof.
  intros Hrun Hin.
  assert (Hk : In k priority).
  { destruct (List.Exists_dec inherited_kind modules
                (fun m => in_dec string_dec (kind_or_unknown m) OBJECT_PROTOTYPE))
      as [Hex|Hnex].
    - unfold groupByKind in Hrun.
      rewrite (group_loop_throws modules []) in Hrun; [discriminate | reflexivity | exact Hex].
    - rewrite groupByKind_returns in Hrun.
      + injection Hrun as <-. apply In_grouped in Hin. tauto.
      + apply List.Forall_forall. intros m Hm Hinh. apply Hnex.
        apply List.Exists_exists. eauto. }
  unfold priority in Hk. cbn [In] in Hk.
  destruct Hk as [<-|[<-|[<-|[<-|[<-|[]]]]]]; eexists;
    (split; [reflexivity|]); (split; [unfold TITLES; cbn [In]; tauto | discriminate]).
Qed.

Lemma group_titles_witness :
  exists title, formatKindTitle "unknown" = Str title /\ In title TITLES /\ title <> "unknown".
Proof.
  apply (group_titles [sample_info "auth0" (Some "extension"); sample_info "mystery" None]
           [("extension", [sample_info "auth0" (Some "extension")]);
            ("unknown", [sample_info "mystery" None])]
           "unknown" [sample_info "mystery" None]).
  - reflexivity.
  - right. left. reflexivity.
Defined.

Lemma lower_char_not_capital c : is_capital (lower_char c) = false.
Proof. destruct c as [[] [] [] [] [] [] [] []]; vm_compute; reflexivity. Qed.

Lemma lower_char_idem c : lower_char (lower_char c) = lower_char c.
Proof. destruct c as [[] [] [] [] [] [] [] []]; vm_compute; reflexivity. Qed.

Lemma toLowerCase_idem s : toLowerCase (toLowerCase s) = toLowerCase s.
Proof.
  induction s as [|c s IH]; simpl; [reflexivity|]. now rewrite lower_char_idem, IH.
Qed.

Lemma toLowerCase_no_capital s : existsb is_capital (chars (toLowerCase s)) = false.
Proof.
  induction s as [|c s IH]; [reflexivity|].
  change (chars (toLowerCase (String c s)))
    with (lower_char c :: chars (toLowerCase s)).
  cbn [existsb]. rewrite lower_char_not_capital, IH. reflexivity.
Qed.

(** X26: [mapTypeToKind] maps a type word, whatever its case, to one of
    the four kinds of the validator, each kind to itself, and a word that is
    not in its table to [null], with two exceptions: for "constructor" and
    "__proto__" the lookup in the table runs into [Object.prototype] and
    what is returned is not a string. *)
Theorem mapTypeToKind_spec (type : string) :
  (forall k, mapTypeToKind type = Some (Str k) -> In k KINDS)
  /\ (mapTypeToKind type = Some Inherited <->
      toLowerCase type = "constructor" \/ toLowerCase type = "__proto__")
  /\ (mapTypeToKind type = None <->
      ~ In (toLowerCase type) (TYPE_WORDS ++ ["constructor"; "__proto__"]))
  /\ mapTypeToKind (toLowerCase type) = mapTypeToKind type
  /\ (forall k, In k KINDS -> mapTypeToKind k = Some (Str k)).
Proof.
  assert (Hinh : existsb (String.eqb (toLowerCase type)) OBJECT_PROTOTYPE = true <->
                 toLowerCase type = "constructor" \/ toLowerCase type = "__proto__").
  { rewrite inherited_name_spec. split.
    - intros Hin. pose proof (toLowerCase_no_capital type) as Hcap.
      unfold OBJECT_PROTOTYPE in Hin. cbn [In] in Hin.
      repeat (destruct Hin as [Hin|Hin];
              [first [ left; symmetry; exact Hin
                     | right; symmetry; exact Hin
                     | rewrite <- Hin in Hcap; vm_compute in Hcap; discriminate ]|]).
      destruct Hin.
    - intros [-> | ->]; unfold OBJECT_PROTOTYPE; cbn [In]; tauto. }
  split; [|split; [|split; [|split]]].
  - intros k. unfold mapTypeToKind, member. cbn [own_property].
    repeat match goal with
           | |- context [(?a =? toLowerCase type)%string] =>
               destruct (a =? toLowerCase type)%string
           end;
      try (cbn [truthy String.eqb negb]; intros [= <-]; unfold KINDS; cbn [In]; tauto).
    destruct (existsb _ _); discriminate.
  - rewrite <- Hinh. unfold mapTypeToKind, member. cbn [own_property].
    repeat match goal with
           | |- context [(?a =? toLowerCase type)%string] =>
               destruct (String.eqb_spec a (toLowerCase type)) as [<-|?]
           end; try (cbn; split; discriminate).
    destruct (existsb _ _); split; congruence.
  - unfold TYPE_WORDS. cbn [app In].
    unfold mapTypeToKind, member. cbn [own_property].
    repeat match goal with
           | |- context [(?a =? toLowerCase type)%string] =>
               destruct (String.eqb_spec a (toLowerCase type)) as [?|?]
           end; try (cbn [truthy String.eqb negb]; split; [discriminate | tauto]).
    destruct (existsb _ _) eqn:Hex.
    + split; [discriminate|]. intros H. exfalso. apply H.
      destruct (proj1 Hinh eq_refl) as [E|E]; rewrite E; tauto.
    + split; [|reflexivity]. intros _ H.
      assert (Hex' : false = true) by (apply Hinh; intuition congruence).
      discriminate.
  - unfold mapTypeToKind. rewrite toLowerCase_idem. reflexivity.
  - unfold KINDS. cbn [In]. intros k [<-|[<-|[<-|[<-|[]]]]]; reflexivity.
Qed.
